(** * VIP Manager: allocation planner and execution engine

    A shallow embedding of [vip_manager.go] (planner: [GetSpareIps],
    [AllocateIps], [ReduceIps]) and of the operations file of package
    [utils] (engine:
    [Execute], [ExecuteParallel], the worker pool), together with the
    properties the design document states about them.

    Conventions.
    - Go's [int] is [Z]; the counts handled here are slice lengths, far
      from the 64-bit bound, so no wrap-around is written out.
    - Go maps are [gmap string _].  A [range] over a map visits every
      entry once in an order the language leaves unspecified; each
      [range] statement therefore reads its order from a schedule
      (see [GoMap]).
    - Calls to the cloud API are the constructors of a small free monad
      ([prog]); the API itself is a parameter ([Cloud]). *)

From stdpp Require Import gmap strings.
From Stdlib Require Import ZArith Lia.

#[local] Set Warnings "-clear-no-such-hyp".

Local Open Scope Z_scope.

(** ** Go map iteration *)

Module GoMap.

(** [shuffle code l] visits [l] in the order described by [code]: the
    next entry visited is the one at position [c mod length] of those not
    yet visited.  When the code runs out the rest is visited as it stands.
    Every order is the shuffle of some code ([shuffle_complete]). *)
Fixpoint shuffle {A} (code : list nat) (l : list A) : list A :=
  match code with
  | [] => l
  | c :: code' =>
      match l with
      | [] => []
      | _ :: _ =>
          let i := (c mod length l)%nat in
          match l !! i with
          | Some x => x :: shuffle code' (delete i l)
          | None => l
          end
      end
  end.

(** The entries of a Go map in the order one [range] statement sees. *)
Definition range {V} (code : list nat) (m : gmap string V) : list (string * V) :=
  shuffle code (map_to_list m).

(** [m[k]]: the value stored, or the zero value. *)
Definition get {V} (zero : V) (m : gmap string V) (k : string) : V :=
  default zero (m !! k).

(** [len(m)]. *)
Definition len {V} (m : gmap string V) : Z := Z.of_nat (size m).

End GoMap.

(** [len(s)] of a slice. *)
Definition len {A} (s : list A) : Z := Z.of_nat (length s).

(** ** Data model ([utils/gcp.go], the operations file of [utils],
    [vip_manager.go]) *)

Module GcpConfig.
Record t := mk {
  Project : string;
  Zone : string;
  GceInstanceGroup : string;
  AliasNetwork : string;
  WaitSeconds : Z }.
End GcpConfig.

Record GceInstance := mkGceInstance {
  Name : string;
  NetworkInterface : string;
  NetworkFingerprint : string;
  AliasNetwork : string;
  AliasIps : list string }.

(** [type Type int] with the constants [Add], [Remove]. *)
Inductive Type_ := Add | Remove.

(** The fields [Type] and [Instance] of the source are [OpType] and
    [OpInstance] here, where both words are reserved.  [Instance] points
    to the instance of the snapshot; nothing writes through it. *)
Record Operation := mkOperation {
  OpType : Type_;
  OpInstance : GceInstance;
  Ips : list string }.

Record Config := mkConfig {
  Gcp : GcpConfig.t;
  VIPs : list string;
  Workers : nat;
  SleepSeconds : Z }.

(** The [range] statements of the planner and of [ExecuteParallel], by the
    line they stand on.  [sched site n] is the order of the [n]-th
    execution of the statement [site] within one pass. *)
Inductive site :=
| RangeMinAliasIps      (* vip_manager.go:139 *)
| RangeSpareInstances   (* vip_manager.go:153 *)
| RangeSpareUsed        (* vip_manager.go:161 *)
| RangeAllocInit        (* vip_manager.go:184 *)
| RangeAllocAssign      (* vip_manager.go:194 *)
| RangeMinValue         (* vip_manager.go:210 *)
| RangeMaxValue         (* vip_manager.go:220 *)
| RangeReduceInit       (* vip_manager.go:238 *)
| RangeReduceDec        (* vip_manager.go:252 *)
| RangeReduceInc        (* vip_manager.go:259 *)
| RangeReduceGen        (* vip_manager.go:271 *)
| RangeExecute.         (* utils, ExecuteParallel, line 71 *)

Definition Schedule := site -> nat -> list nat.

(** ** Allocation planner ([vip_manager.go]) *)

(** [operations[name].Ips]: nil when [name] has no operation. *)
Definition opIps (operations : gmap string Operation) (name : string) : list string :=
  match operations !! name with
  | Some operation => Ips operation
  | None => []
  end.

Definition minAliasIps (code : list nat) (instances : gmap string GceInstance)
    (operations : gmap string Operation) : Z :=
  foldl (fun min '(name, instance) =>
           let ips := len (AliasIps instance) + len (opIps operations name) in
           if (min <? 0) || (ips <? min) then ips else min)
        (-1) (GoMap.range code instances).

(** The three loops of [GetSpareIps]. *)
Definition spareInit (vips : list string) : gmap string bool :=
  foldl (fun used ip => <[ip := false]> used) ∅ vips.

Definition spareMark (used : gmap string bool) (ips : list string) : gmap string bool :=
  foldl (fun used ip =>
           match used !! ip with
           | Some _ => <[ip := true]> used
           | None => used
           end) used ips.

Definition GetSpareIps (sched : Schedule) (cfg : Config)
    (instances : gmap string GceInstance) : list string :=
  let used := spareInit (VIPs cfg) in
  let used := foldl (fun used '(_, instance) => spareMark used (AliasIps instance))
                    used (GoMap.range (sched RangeSpareInstances 0%nat) instances) in
  foldl (fun spare '(ip, inuse) => if inuse : bool then spare else spare ++ [ip])
        [] (GoMap.range (sched RangeSpareUsed 0%nat) used).

(** Lines 184-190: one empty [Add] operation per instance. *)
Definition allocInit (code : list nat) (instances : gmap string GceInstance)
    : gmap string Operation :=
  foldl (fun operations '(name, instance) =>
           <[name := mkOperation Add instance []]> operations)
        ∅ (GoMap.range code instances).

(** Lines 194-203: the first instance, in range order, whose load is [min]. *)
Definition allocPick (code : list nat) (instances : gmap string GceInstance)
    (operations : gmap string Operation) (min : Z) : option (string * GceInstance) :=
  List.find (fun '(name, instance) =>
               len (AliasIps instance) + len (opIps operations name) =? min)
            (GoMap.range code instances).

(** Lines 197-200: [ip] is appended to the operation of [name], if there
    is one. *)
Definition stage (operations : gmap string Operation) (name ip : string)
    : gmap string Operation :=
  match operations !! name with
  | Some operation =>
      <[name := mkOperation (OpType operation) (OpInstance operation)
                            (Ips operation ++ [ip])]> operations
  | None => operations
  end.

(** One iteration of the loop at line 192, for the spare address [ip]. *)
Definition allocStep (sched : Schedule) (n : nat) (instances : gmap string GceInstance)
    (operations : gmap string Operation) (ip : string) : gmap string Operation :=
  let min := minAliasIps (sched RangeMinAliasIps n) instances operations in
  match allocPick (sched RangeAllocAssign n) instances operations min with
  | Some (name, _) => stage operations name ip
  | None => operations
  end.

(** The loop at line 192; [n] counts the iterations already done. *)
Fixpoint allocLoop (sched : Schedule) (n : nat) (instances : gmap string GceInstance)
    (spare : list string) (operations : gmap string Operation) : gmap string Operation :=
  match spare with
  | [] => operations
  | ip :: spare' =>
      allocLoop sched (S n) instances spare' (allocStep sched n instances operations ip)
  end.

(** Lines 183-204 of [AllocateIps]: the operations handed to the engine. *)
Definition AllocateIps_operations (sched : Schedule)
    (instances : gmap string GceInstance) (spare : list string) : gmap string Operation :=
  allocLoop sched 0 instances spare (allocInit (sched RangeAllocInit 0%nat) instances).

Definition minValue (code : list nat) (values : gmap string Z) : Z :=
  foldl (fun min '(_, v) => if (min <? 0) || (v <? min) then v else min)
        (-1) (GoMap.range code values).

Definition maxValue (code : list nat) (values : gmap string Z) : Z :=
  foldl (fun max '(_, v) => if max <? v then v else max)
        0 (GoMap.range code values).

(** Lines 237-244: the current count of every instance. *)
Definition reduceInit (code : list nat) (instances : gmap string GceInstance)
    : gmap string Z :=
  foldl (fun target '(name, instance) => <[name := len (AliasIps instance)]> target)
        ∅ (GoMap.range code instances).

(** Lines 252-257 and 259-264: add [d] to the first entry, in range order,
    whose value is [x]. *)
Definition bumpFirst (code : list nat) (x d : Z) (target : gmap string Z) : gmap string Z :=
  match List.find (fun '(_, v) => v =? x) (GoMap.range code target) with
  | Some (name, _) => <[name := GoMap.get 0 target name + d]> target
  | None => target
  end.

(** One iteration of the loop at line 250, the [n]-th. *)
Definition robinHoodStep (sched : Schedule) (n : nat) (min max : Z)
    (target : gmap string Z) : gmap string Z :=
  let target := bumpFirst (sched RangeReduceDec n) max (-1) target in
  bumpFirst (sched RangeReduceInc n) min 1 target.

(** The loop at line 250.  [None]: the fuel ran out before the loop ended. *)
Fixpoint robinHoodLoop (fuel : nat) (sched : Schedule) (n : nat) (min max : Z)
    (target : gmap string Z) : option (gmap string Z) :=
  if max - min >? 1 then
    match fuel with
    | O => None
    | S fuel' =>
        let target := robinHoodStep sched n min max target in
        let min := minValue (sched RangeMinValue (S n)) target in
        let max := maxValue (sched RangeMaxValue (S n)) target in
        robinHoodLoop fuel' sched (S n) min max target
    end
  else Some target.

(** Lines 246-267 of [ReduceIps]: the "Robin Hood" pass over [target]. *)
Definition robinHood (fuel : nat) (sched : Schedule) (target : gmap string Z)
    : option (gmap string Z) :=
  let min := minValue (sched RangeMinValue 0%nat) target in
  let max := maxValue (sched RangeMaxValue 0%nat) target in
  robinHoodLoop fuel sched 0 min max target.

(** Lines 237-267 of [ReduceIps]: the target computation. *)
Definition ReduceIps_target (fuel : nat) (sched : Schedule)
    (instances : gmap string GceInstance) : option (gmap string Z) :=
  robinHood fuel sched (reduceInit (sched RangeReduceInit 0%nat) instances).

(** [ips[:n]].  Beyond [len(ips)] the outcome depends on the capacity of
    the slice (a longer slice or a run-time panic), which is not part of
    this model: [None]. *)
Definition sliceTo (ips : list string) (n : Z) : option (list string) :=
  if (0 <=? n) && (n <=? len ips) then Some (take (Z.to_nat n) ips) else None.

(** Lines 272-280: the body of the loop that makes the operations.
    [None]: a slice expression has left the model. *)
Definition reduceGen (target : gmap string Z) (acc : option (gmap string Operation))
    (entry : string * GceInstance) : option (gmap string Operation) :=
  let '(name, instance) := entry in
  match acc with
  | None => None
  | Some operations =>
      let reduction := len (AliasIps instance) - GoMap.get 0 target name in
      if reduction >? 0 then
        match sliceTo (AliasIps instance) reduction with
        | Some ips => Some (<[name := mkOperation Remove instance ips]> operations)
        | None => None
        end
      else Some operations
  end.

(** Lines 270-281 of [ReduceIps]. *)
Definition ReduceIps_operations (code : list nat) (instances : gmap string GceInstance)
    (target : gmap string Z) : option (gmap string Operation) :=
  foldl (reduceGen target) (Some ∅) (GoMap.range code instances).

(** ** Cloud API and the programs that call it *)

(** Outcome of the write call [Instances.UpdateNetworkInterface]. *)
Inductive write_result := WriteOk | WriteConflict | WriteError.

(** The request body [compute.NetworkInterface] built by [UpdateAliasIPs]:
    the fingerprint and the alias ranges, each an [IpCidrRange] with its
    [SubnetworkRangeName]. *)
Record NetworkInterfaceBody := mkBody {
  Fingerprint : string;
  AliasIpRanges : list (string * string) }.

(** The calls that leave the process.  [GetInstance] and
    [ListInstancesInGroup] answer [None] on error.  [WaitForUpdate] polls
    [GetInstance] and sleeps on the wall clock; it is kept as one call. *)
Inductive call : Type -> Type :=
| ListInstancesInGroup : call (option (list string))
| GetInstance (name : string) : call (option GceInstance)
| UpdateNetworkInterface (name iface : string) (rb : NetworkInterfaceBody)
    : call write_result
| WaitForUpdate (instanceName : string) (newState : list string) : call unit.

Inductive prog (R : Type) : Type :=
| Ret (r : R)
| Vis {X : Type} (c : call X) (k : X -> prog R).

Arguments Ret {R} r.
Arguments Vis {R X} c k.

Fixpoint bind {R S : Type} (p : prog R) (f : R -> prog S) : prog S :=
  match p with
  | Ret r => f r
  | Vis c k => Vis c (fun x => bind (k x) f)
  end.

Notation "'let*' x ':=' p 'in' q" := (bind p (fun x => q))
  (at level 10, x name, p at level 100, q at level 200).

Definition trigger {X} (c : call X) : prog X := Vis c Ret.

(** What an observer of the API sees of a call; for the write call also
    its outcome. *)
Inductive event :=
| EvList
| EvGet (name : string)
| EvUpdate (name iface : string) (rb : NetworkInterfaceBody) (r : write_result)
| EvWait (instanceName : string) (newState : list string).

Definition event_of {X} (c : call X) : X -> event :=
  match c in call X return X -> event with
  | ListInstancesInGroup => fun _ => EvList
  | GetInstance name => fun _ => EvGet name
  | UpdateNetworkInterface name iface rb => fun r => EvUpdate name iface rb r
  | WaitForUpdate name newState => fun _ => EvWait name newState
  end.

Definition is_write_ok (e : event) : bool :=
  match e with EvUpdate _ _ _ WriteOk => true | _ => false end.

Definition is_write_failed (e : event) : bool :=
  match e with
  | EvUpdate _ _ _ WriteConflict | EvUpdate _ _ _ WriteError => true
  | _ => false
  end.

Definition is_wait (e : event) : bool :=
  match e with EvWait _ _ => true | _ => false end.

(** The external system.  Its answers may depend on the number of calls
    answered so far, which covers transient failures and changes made by
    others; only the write call can change its state. *)
Record Cloud := mkCloud {
  St : Type;
  cloud_list : nat -> St -> option (list string);
  cloud_get : nat -> St -> string -> option GceInstance;
  cloud_update : nat -> St -> string -> string -> NetworkInterfaceBody
                 -> write_result * St }.

Record world (cloud : Cloud) := mkWorld {
  w_clock : nat;
  w_state : St cloud;
  w_trace : list event }.

Arguments mkWorld {cloud} _ _ _.
Arguments w_clock {cloud} _.
Arguments w_state {cloud} _.
Arguments w_trace {cloud} _.

Definition perform {cloud : Cloud} {X} (c : call X) (w : world cloud) : X * world cloud :=
  let answer : X * St cloud :=
    match c in call X return X * St cloud with
    | ListInstancesInGroup =>
        (cloud_list cloud (w_clock w) (w_state w), w_state w)
    | GetInstance name =>
        (cloud_get cloud (w_clock w) (w_state w) name, w_state w)
    | UpdateNetworkInterface name iface rb =>
        cloud_update cloud (w_clock w) (w_state w) name iface rb
    | WaitForUpdate _ _ => (tt, w_state w)
    end in
  (answer.1, mkWorld (S (w_clock w)) answer.2 (w_trace w ++ [event_of c answer.1])).

Arguments perform : simpl never.

Fixpoint run {cloud : Cloud} {R} (p : prog R) (w : world cloud) : R * world cloud :=
  match p with
  | Ret r => (r, w)
  | Vis c k => let a := perform c w in run (k a.1) a.2
  end.

(** ** [utils/gcp.go]

    [GetInstance] and [ListInstancesInGroup] are calls of the API.
    [GetInstancesFromMIG] and [UpdateAliasIPs] are programs over them. *)

(** [GetInstancesFromMIG]: the instances found and whether an error is
    returned.  An instance that cannot be fetched is left out. *)
Fixpoint fetchInstances (names : list string) (instances : gmap string GceInstance)
    : prog (gmap string GceInstance * bool) :=
  match names with
  | [] => Ret (instances, false)
  | name :: names' =>
      let* r := trigger (GetInstance name) in
      match r with
      | None => fetchInstances names' instances
      | Some instance => fetchInstances names' (<[name := instance]> instances)
      end
  end.

Definition GetInstancesFromMIG : prog (gmap string GceInstance * bool) :=
  let* r := trigger ListInstancesInGroup in
  match r with
  | None => Ret (∅, true)
  | Some names => fetchInstances names ∅
  end.

(** [UpdateAliasIPs]; the result is [err != nil]. *)
Definition UpdateAliasIPs (cfg : GcpConfig.t) (instance : GceInstance)
    (ips : list string) : prog bool :=
  let ipRanges := map (fun ip => (ip +:+ "/32", GcpConfig.AliasNetwork cfg)) ips in
  let rb := mkBody (NetworkFingerprint instance) ipRanges in
  let* r := trigger (UpdateNetworkInterface (Name instance) (NetworkInterface instance) rb) in
  match r with
  | WriteOk => Ret false
  | WriteConflict | WriteError => Ret true
  end.

(** ** Execution engine (package [utils]: [Execute], [ExecuteParallel]) *)

(** [slices.Contains]. *)
Definition Contains (s : list string) (v : string) : bool :=
  existsb (String.eqb v) s.

(** Lines 91-107 of [Execute]: the state to write. *)
Definition newStateOf (operation : Operation) (instance : GceInstance) : list string :=
  match OpType operation with
  | Add =>
      foldl (fun newState ip =>
               if negb (Contains newState ip) then newState ++ [ip] else newState)
            (AliasIps instance) (Ips operation)
  | Remove =>
      foldl (fun newState ip =>
               if negb (Contains (Ips operation) ip) then newState ++ [ip] else newState)
            [] (AliasIps instance)
  end.

Definition Execute (cfg : GcpConfig.t) (operation : Operation) : prog Z :=
  let* r := trigger (GetInstance (Name (OpInstance operation))) in
  match r with
  | None => Ret 0
  | Some instance =>
      let newState := newStateOf operation instance in
      if len (AliasIps instance) =? len newState then Ret 0
      else
        let* err := UpdateAliasIPs cfg instance newState in
        if err : bool then Ret 0
        else
          let* _ := trigger (WaitForUpdate (Name instance) newState) in
          Ret 1
  end.

(** *** The worker pool

    [in] and [out] are unbuffered channels: a send and the matching
    receive happen together.  A worker is either at [operation := <-in]
    ([Idle]) or inside [out <- Execute(cfg, operation)] ([Busy p], where
    [p] is what is left of [Execute]; at [Busy (Ret r)] it is at the send
    on [out]).  The caller of [ExecuteParallel] is in the first loop with
    the entries still to visit, in the second loop with its counter [i],
    or has returned. *)
Inductive worker := Idle | Busy (p : prog Z).

Inductive caller :=
| Submitting (rest : list (string * Operation))
| Collecting (i : Z)
| Returned.

Record pool (cloud : Cloud) := mkPool {
  pc : caller;
  changes : Z;
  inFlight : Z;
  workers : list worker;
  wld : world cloud }.

Arguments mkPool {cloud} _ _ _ _ _.
Arguments pc {cloud} _.
Arguments changes {cloud} _.
Arguments inFlight {cloud} _.
Arguments workers {cloud} _.
Arguments wld {cloud} _.

(** The steps of the pool.  [Main]: a step of the caller alone (an entry
    with no addresses is passed over; a loop ends).  [Send j]: [in <-
    operation] meets the receive of worker [j].  [Work j]: worker [j] makes
    the next call of its [Execute].  [Recv j]: [<-out] meets the send of
    worker [j]. *)
Inductive action := Main | Send (j : nat) | Work (j : nat) | Recv (j : nat).

Definition pool_step {cloud : Cloud} (cfg : GcpConfig.t) (a : action) (s : pool cloud)
    : option (pool cloud) :=
  match a with
  | Main =>
      match pc s with
      | Submitting [] =>
          Some (mkPool (Collecting 0) (changes s) (inFlight s) (workers s) (wld s))
      | Submitting ((_, operation) :: rest) =>
          if len (Ips operation) >? 0 then None
          else Some (mkPool (Submitting rest) (changes s) (inFlight s) (workers s) (wld s))
      | Collecting i =>
          if i <? inFlight s then None
          else Some (mkPool Returned (changes s) (inFlight s) (workers s) (wld s))
      | Returned => None
      end
  | Send j =>
      match pc s, workers s !! j with
      | Submitting ((_, operation) :: rest), Some Idle =>
          if len (Ips operation) >? 0 then
            Some (mkPool (Submitting rest) (changes s) (inFlight s + 1)
                         (<[j := Busy (Execute cfg operation)]> (workers s)) (wld s))
          else None
      | _, _ => None
      end
  | Work j =>
      match workers s !! j with
      | Some (Busy (Vis c k)) =>
          let a := perform c (wld s) in
          Some (mkPool (pc s) (changes s) (inFlight s)
                       (<[j := Busy (k a.1)]> (workers s)) a.2)
      | _ => None
      end
  | Recv j =>
      match pc s, workers s !! j with
      | Collecting i, Some (Busy (Ret r)) =>
          if i <? inFlight s then
            Some (mkPool (Collecting (i + 1)) (changes s + r) (inFlight s)
                         (<[j := Idle]> (workers s)) (wld s))
          else None
      | _, _ => None
      end
  end.

Fixpoint pool_run {cloud : Cloud} (cfg : GcpConfig.t) (acts : list action) (s : pool cloud)
    : option (pool cloud) :=
  match acts with
  | [] => Some s
  | a :: acts' =>
      match pool_step cfg a s with
      | Some s' => pool_run cfg acts' s'
      | None => None
      end
  end.

(** The pool when [ExecuteParallel] is entered: [StartWorkers] has started
    [nworkers] workers and every one of them waits on [in]. *)
Definition pool_init {cloud : Cloud} (nworkers : nat) (code : list nat)
    (operations : gmap string Operation) (w : world cloud) : pool cloud :=
  mkPool (Submitting (GoMap.range code operations)) 0 0 (replicate nworkers Idle) w.

(** [ExecuteParallel] under the interleaving [acts]: the value returned and
    the world left behind, or [None] when [acts] is not an execution that
    ends with the return. *)
Definition ExecuteParallel {cloud : Cloud} (cfg : GcpConfig.t) (nworkers : nat)
    (code : list nat) (acts : list action) (operations : gmap string Operation)
    (w : world cloud) : option (Z * world cloud) :=
  match pool_run cfg acts (pool_init nworkers code operations w) with
  | Some s =>
      match pc s with
      | Returned => Some (changes s, wld s)
      | _ => None
      end
  | None => None
  end.

(** The entries of a list of operations whose address list is not empty,
    and their number in a map of operations. *)
Definition nonEmpty (l : list (string * Operation)) : list (string * Operation) :=
  List.filter (fun '(_, operation) => len (Ips operation) >? 0) l.

Definition nonEmptyOps (operations : gmap string Operation) : Z :=
  len (nonEmpty (map_to_list operations)).

(** The successful writes among the events of a trace. *)
Definition writesOk (trace : list event) : Z :=
  len (List.filter is_write_ok trace).

(** ** The two passes ([vip_manager.go])

    [sched] orders the [range] statements and [acts] is the interleaving
    of the worker pool.  The result is [None] when [acts] is not an
    execution of [ExecuteParallel] up to its return and, for [ReduceIps],
    when [fuel] does not cover the Robin Hood loop or a slice expression
    leaves the model ([sliceTo]). *)
Definition AllocateIps {cloud : Cloud} (sched : Schedule) (acts : list action)
    (cfg : Config) (w : world cloud) : option (Z * world cloud) :=
  let '((instances, err), w) := run GetInstancesFromMIG w in
  if err : bool then Some (0, w)
  else
    let spare := GetSpareIps sched cfg instances in
    if (len spare =? 0) || (GoMap.len instances =? 0) then Some (0, w)
    else
      ExecuteParallel (Gcp cfg) (Workers cfg) (sched RangeExecute 0%nat) acts
                      (AllocateIps_operations sched instances spare) w.

Definition ReduceIps {cloud : Cloud} (fuel : nat) (sched : Schedule) (acts : list action)
    (cfg : Config) (w : world cloud) : option (Z * world cloud) :=
  let '((instances, err), w) := run GetInstancesFromMIG w in
  if err : bool then Some (0, w)
  else if GoMap.len instances =? 0 then Some (0, w)
  else
    match ReduceIps_target fuel sched instances with
    | None => None
    | Some target =>
        match ReduceIps_operations (sched RangeReduceGen 0%nat) instances target with
        | None => None
        | Some operations =>
            ExecuteParallel (Gcp cfg) (Workers cfg) (sched RangeExecute 0%nat) acts
                            operations w
        end
    end.

(** ** Quantities the properties speak about *)

(** Sum of [f v] over the values of a map. *)
Definition msum {V} (f : V -> Z) (m : gmap string V) : Z :=
  map_fold (fun _ v acc => f v + acc) 0 m.

(** Every two values of the map differ by at most one. *)
Definition balanced (m : gmap string Z) : Prop :=
  map_Forall (fun _ v1 => map_Forall (fun _ v2 => v1 - v2 <= 1) m) m.

(** No value of the map is negative. *)
Definition nonneg (m : gmap string Z) : Prop :=
  map_Forall (fun _ v => 0 <= v) m.

(** [x] is the least (greatest) value of [m]. *)
Definition is_min (m : gmap string Z) (x : Z) : Prop :=
  (exists k, m !! k = Some x) /\ (forall k v, m !! k = Some v -> x <= v).

Definition is_max (m : gmap string Z) (x : Z) : Prop :=
  (exists k, m !! k = Some x) /\ (forall k v, m !! k = Some v -> v <= x).

(** The count of addresses an instance holds. *)
Definition count (instance : GceInstance) : Z := len (AliasIps instance).

(** Fuel that covers the Robin Hood loop on [target]. *)
Definition robinHoodFuel (target : gmap string Z) : nat :=
  Z.to_nat (msum (fun v => v * v) target).

(** The load of [name] while a grow pass runs: addresses held plus
    addresses staged so far. *)
Definition load (instances : gmap string GceInstance)
    (operations : gmap string Operation) (name : string) : Z :=
  match instances !! name with
  | Some instance => count instance + len (opIps operations name)
  | None => 0
  end.

(** An address of an instance of the snapshot. *)
Definition assigned (instances : gmap string GceInstance) (ip : string) : Prop :=
  exists name instance, instances !! name = Some instance /\ ip ∈ AliasIps instance.

(** [ip] is staged on [name]. *)
Definition staged (operations : gmap string Operation) (name ip : string) : Prop :=
  exists operation, operations !! name = Some operation /\ ip ∈ Ips operation.

(** The snapshot once every staged address has been added. *)
Definition applyAdds (instances : gmap string GceInstance)
    (operations : gmap string Operation) : gmap string GceInstance :=
  map_imap (fun name instance =>
              Some (mkGceInstance (Name instance) (NetworkInterface instance)
                      (NetworkFingerprint instance) (AliasNetwork instance)
                      (AliasIps instance ++ opIps operations name)))
           instances.

(** Every leaf of a program satisfies [P]. *)
Fixpoint returns_only {R} (P : R -> Prop) (p : prog R) : Prop :=
  match p with
  | Ret r => P r
  | Vis c k => forall x, returns_only P (k x)
  end.

(** The desired final address set in the words of the design: the union
    of the current and the added addresses ([Add]), the current addresses
    without the removed ones ([Remove]). *)
Definition desiredSet (operation : Operation) (current : list string) : gset string :=
  match OpType operation with
  | Add => list_to_set current ∪ list_to_set (Ips operation)
  | Remove => list_to_set current ∖ list_to_set (Ips operation)
  end.

(** [p] returns [earned] plus the number of successful writes it makes. *)
Fixpoint tally (earned : Z) (p : prog Z) : Prop :=
  match p with
  | Ret r => r = earned
  | Vis c k =>
      forall x, tally (earned + (if is_write_ok (event_of c x) then 1 else 0)) (k x)
  end.

(** Results received so far by the caller of [ExecuteParallel]. *)
Definition collected {cloud : Cloud} (s : pool cloud) : Z :=
  match pc s with
  | Submitting _ => 0
  | Collecting i => i
  | Returned => inFlight s
  end.

(** Entries the first loop of [ExecuteParallel] has still to visit. *)
Definition remaining {cloud : Cloud} (s : pool cloud) : list (string * Operation) :=
  match pc s with
  | Submitting rest => rest
  | Collecting _ | Returned => []
  end.

Definition is_busy (w : worker) : bool :=
  match w with Busy _ => true | Idle => false end.

(** Workers that hold an operation. *)
Definition busy (ws : list worker) : Z := len (List.filter is_busy ws).

(** [Execute] returns 0 or 1 on every path. *)
Definition zero_or_one (w : worker) : Prop :=
  match w with
  | Idle => True
  | Busy p => returns_only (fun r => r = 0 \/ r = 1) p
  end.

(** What holds of the pool all along a call of [ExecuteParallel] that
    handed over [total] operations to [nworkers] workers. *)
Definition pool_inv {cloud : Cloud} (total : Z) (nworkers : nat) (s : pool cloud) : Prop :=
  0 <= changes s <= collected s /\
  collected s <= inFlight s /\
  inFlight s + len (nonEmpty (remaining s)) = total /\
  inFlight s <= Z.of_nat nworkers /\
  busy (workers s) = inFlight s - collected s /\
  length (workers s) = nworkers /\
  Forall zero_or_one (workers s).

Definition sumZ (l : list Z) : Z := foldr Z.add 0 l.

Definition earns (w : worker) (e : Z) : Prop :=
  match w with
  | Idle => e = 0
  | Busy p => tally e p
  end.

(** The changes counted so far and the successful writes of the workers
    still at work add up to the successful writes made since the trace
    held [base] of them. *)
Definition pool_tally {cloud : Cloud} (base : Z) (s : pool cloud) : Prop :=
  exists earned : list Z,
    Forall2 earns (workers s) earned /\
    changes s + sumZ earned = writesOk (w_trace (wld s)) - base.

(** What holds of the operations of a grow pass once the spare
    addresses [done] have been dealt with. *)
Definition alloc_inv (instances : gmap string GceInstance) (done : list string)
    (operations : gmap string Operation) : Prop :=
  (forall name, is_Some (instances !! name) <-> is_Some (operations !! name)) /\
  (forall name operation, operations !! name = Some operation ->
     OpType operation = Add /\ instances !! name = Some (OpInstance operation)) /\
  (forall name ip, staged operations name ip -> ip ∈ done) /\
  (forall n1 n2 ip, staged operations n1 ip -> staged operations n2 ip -> n1 = n2) /\
  (forall name operation, operations !! name = Some operation -> NoDup (Ips operation)).

(** A program that makes no write call. *)
Fixpoint reads_only {R} (p : prog R) : Prop :=
  match p with
  | Ret _ => True
  | Vis c k =>
      match c with
      | UpdateNetworkInterface _ _ _ => False
      | _ => True
      end /\ forall x, reads_only (k x)
  end.

(** An interleaving that brings [ExecuteParallel] to its return when the
    workers are enough: the operations are handed to the workers [j],
    [j+1], ... in turn; then each worker in turn makes all the calls of its
    [Execute] and hands over the result. *)
Fixpoint submitActs (j : nat) (rest : list (string * Operation)) : list action :=
  match rest with
  | [] => []
  | (_, operation) :: rest' =>
      if len (Ips operation) >? 0 then Send j :: submitActs (S j) rest'
      else Main :: submitActs j rest'
  end.

Fixpoint drive {cloud : Cloud} (j : nat) (p : prog Z) (w : world cloud) : list action :=
  match p with
  | Ret _ => []
  | Vis c k => Work j :: drive j (k (perform c w).1) (perform c w).2
  end.

Fixpoint collectActs {cloud : Cloud} (j : nat) (ps : list (prog Z)) (w : world cloud)
    : list action :=
  match ps with
  | [] => []
  | p :: ps' => drive j p w ++ Recv j :: collectActs (S j) ps' (run p w).2
  end.

(** The world after the programs [ps] have run one after the other, and
    the sum of their results. *)
Fixpoint runAll {cloud : Cloud} (ps : list (prog Z)) (w : world cloud) : Z * world cloud :=
  match ps with
  | [] => (0, w)
  | p :: ps' => let r := runAll ps' (run p w).2 in ((run p w).1 + r.1, r.2)
  end.

Definition sequentialActs {cloud : Cloud} (cfg : GcpConfig.t)
    (entries : list (string * Operation)) (w : world cloud) : list action :=
  submitActs 0 entries ++ Main ::
  collectActs 0 ((fun e => Execute cfg e.2) <$> nonEmpty entries) w ++ [Main].

(** ** Clouds and schedules for the examples *)

(** An inventory that never changes; every write is answered [wr]. *)
Definition fixedCloud (nodes : list GceInstance) (wr : write_result) : Cloud :=
  mkCloud unit
    (fun _ _ => Some (Name <$> nodes))
    (fun _ _ name => List.find (fun i => String.eqb (Name i) name) nodes)
    (fun _ st _ _ _ => (wr, st)).

(** Every [range] in the order the map lists its entries. *)
Definition sched0 : Schedule := fun _ _ => [].

Definition node (name : string) (ips : list string) : GceInstance :=
  mkGceInstance name "nic0" "fp" "vips" ips.

Definition gcp0 : GcpConfig.t := GcpConfig.mk "p" "z" "mig" "vips" 60.

Definition config0 (vips : list string) (nworkers : nat) : Config :=
  mkConfig gcp0 vips nworkers 10.

Definition snapshot (nodes : list GceInstance) : gmap string GceInstance :=
  list_to_map ((fun i => (Name i, i)) <$> nodes).

(** One node without addresses, a pool of one address, one worker, and a
    cloud that refuses every write. *)
Definition nodesOne : list GceInstance := [node "a" []].
Definition cloudWriteFails : Cloud := fixedCloud nodesOne WriteError.
Definition cloudConflict : Cloud := fixedCloud nodesOne WriteConflict.
Definition configOne : Config := config0 ["10.0.0.1"] 1.
Definition actsOne : list action :=
  [Send 0%nat; Main; Work 0%nat; Work 0%nat; Recv 0%nat; Main].

(** Two nodes without addresses, a pool of four addresses, two workers,
    and a cloud that accepts every write. *)
Definition nodesTwo : list GceInstance := [node "a" []; node "b" []].
Definition cloudTwo : Cloud := fixedCloud nodesTwo WriteOk.
Definition configTwo : Config :=
  config0 ["10.0.0.1"; "10.0.0.2"; "10.0.0.3"; "10.0.0.4"] 2.
Definition actsTwo : list action :=
  [Send 0%nat; Send 1%nat; Main; Work 0%nat; Work 0%nat; Work 1%nat; Work 1%nat;
   Work 1%nat; Work 0%nat; Recv 1%nat; Recv 0%nat; Main].

(** Two nodes with two addresses each and one without. *)
Definition nodesBalanced : list GceInstance :=
  [node "a" ["10.0.0.1"; "10.0.0.2"]; node "b" ["10.0.0.3"]; node "c" ["10.0.0.4"]].
Definition cloudBalanced : Cloud := fixedCloud nodesBalanced WriteOk.

(** No node at all. *)
Definition cloudEmpty : Cloud := fixedCloud [] WriteOk.

(** The worlds the examples start from and reach. *)
Definition startWriteFails : world cloudWriteFails := @mkWorld cloudWriteFails 0 tt [].
Definition startConflict : world cloudConflict := @mkWorld cloudConflict 0 tt [].
Definition startTwo : world cloudTwo := @mkWorld cloudTwo 0 tt [].
Definition startBalanced : world cloudBalanced := @mkWorld cloudBalanced 0 tt [].
Definition startEmpty : world cloudEmpty := @mkWorld cloudEmpty 0 tt [].


Definition refusedOne : world cloudWriteFails :=
  @mkWorld cloudWriteFails 4 tt
    [EvList; EvGet "a"; EvGet "a";
     EvUpdate "a" "nic0" (mkBody "fp" [("10.0.0.1/32", "vips")]) WriteError].

Definition fetchedBalanced : world cloudBalanced :=
  @mkWorld cloudBalanced 4 tt [EvList; EvGet "a"; EvGet "b"; EvGet "c"].

Definition fetchedEmpty : world cloudEmpty := @mkWorld cloudEmpty 1 tt [EvList].

Definition heldBalanced : world cloudBalanced := @mkWorld cloudBalanced 1 tt [EvGet "a"].

(** The operations of the examples. *)
Definition addOne : Operation := mkOperation Add (node "a" []) ["10.0.0.1"].
Definition addHeld : Operation :=
  mkOperation Add (node "a" ["10.0.0.1"; "10.0.0.2"]) ["10.0.0.1"].
Definition operationsTwo : gmap string Operation :=
  AllocateIps_operations sched0 (snapshot nodesTwo)
    (GetSpareIps sched0 configTwo (snapshot nodesTwo)).

(** Four nodes that hold 3, 3, 3 and 0 addresses, and a schedule other
    than [sched0]. *)
Definition nodes3330 : list GceInstance :=
  [node "a" ["1"; "2"; "3"]; node "b" ["4"; "5"; "6"]; node "c" ["7"; "8"; "9"];
   node "d" []].

Definition sched1 : Schedule := fun _ _ => [1; 2; 3]%nat.

(** The counts 3, 3, 3 and 0. *)
Definition counts3330 : gmap string Z :=
  list_to_map [("a", 3); ("b", 3); ("c", 3); ("d", 0)].

(** ** Waiting for a write to show ([exponentialBackoff], [WaitForUpdate])

    Durations are whole seconds.  [WaitForUpdate] reads the wall clock
    and polls [GetInstance]; both are given from outside: [wait_poll k]
    is the answer to the [k]-th poll ([None]: an error) and [wait_since
    k] the value of [int(time.Since(start).Seconds())] read at the end
    of the [k]-th round. *)
Definition exponentialBackoff (elapsedSeconds : Z) : Z :=
  if elapsedSeconds <? 5 then 1
  else if elapsedSeconds <? 15 then 2
  else if elapsedSeconds <? 60 then 5
  else 10.

(** [uint(x)] of an [int]. *)
Definition uint (x : Z) : Z := x mod 2 ^ 64.

Record WaitEnv := mkWaitEnv {
  wait_poll : nat -> option GceInstance;
  wait_since : nat -> Z }.

(** How [WaitForUpdate] ends, by the line it logs. *)
Inductive waited := Updated | PollFailed | GaveUp.

Record WaitResult := mkWaitResult {
  wait_end : waited;
  wait_polls : nat;
  wait_sleeps : list Z }.

(** The loop of [WaitForUpdate] from its [k]-th round on; [sleeps] are
    the durations passed to [time.Sleep] so far.  [None]: the fuel ran
    out. *)
Fixpoint waitLoop (fuel : nat) (WaitSeconds : Z) (env : WaitEnv)
    (newState : list string) (k : nat) (elapsedSeconds : Z) (sleeps : list Z)
    : option WaitResult :=
  if uint elapsedSeconds <? WaitSeconds then
    match fuel with
    | O => None
    | S fuel' =>
        match wait_poll env k with
        | None => Some (mkWaitResult PollFailed (S k) sleeps)
        | Some instance =>
            if len newState =? len (AliasIps instance)
            then Some (mkWaitResult Updated (S k) sleeps)
            else
              waitLoop fuel' WaitSeconds env newState (S k) (wait_since env k)
                       (sleeps ++ [exponentialBackoff elapsedSeconds])
        end
    end
  else Some (mkWaitResult GaveUp k sleeps).

Definition WaitForUpdate_body (fuel : nat) (cfg : GcpConfig.t) (env : WaitEnv)
    (newState : list string) : option WaitResult :=
  waitLoop fuel (GcpConfig.WaitSeconds cfg) env newState 0 0 [].

(** The value of [elapsedSeconds] when round [k] begins. *)
Definition elapsedAt (env : WaitEnv) (k : nat) : Z :=
  match k with
  | O => 0
  | S j => wait_since env j
  end.

(** A clock on which, as long as less than [WaitSeconds] have passed, a
    sleep of [d] seconds takes [d] seconds at least, read as an [int]. *)
Definition honest_clock (WaitSeconds : Z) (env : WaitEnv) : Prop :=
  forall k, elapsedAt env k < WaitSeconds ->
    elapsedAt env k + exponentialBackoff (elapsedAt env k) <= wait_since env k
    /\ wait_since env k < 2 ^ 63.

(** ** Addresses as bytes ([utils/network.go]) *)

(** [increment]: the loop from index [n - 1] down; a byte wraps at 256. *)
Fixpoint incrementFrom (n : nat) (ip : list Z) : list Z :=
  match n with
  | O => ip
  | S i =>
      let b := (nth i ip 0 + 1) mod 256 in
      let ip := <[i := b]> ip in
      if b >? 0 then ip else incrementFrom i ip
  end.

Definition increment (ip : list Z) : list Z := incrementFrom (length ip) ip.

(** The number a list of bytes denotes, first byte first. *)
Definition bigEndian (ip : list Z) : Z := foldl (fun acc b => acc * 256 + b) 0 ip.

Definition bytes (ip : list Z) : Prop := Forall (fun b => 0 <= b < 256) ip.

(** A clock that shows ten more seconds after every round, and a poll
    that never shows the update. *)
Definition tenEnv : WaitEnv :=
  mkWaitEnv (fun _ => Some (node "a" [])) (fun k => 10 * (Z.of_nat k + 1)).

(** The Remove operation a shrink pass makes for [instance] when its
    target is [t]: none when the instance holds [t] addresses or fewer,
    else one that removes the first addresses above [t]. *)
Definition removalFor (t : Z) (instance : GceInstance) : option Operation :=
  if count instance - t >? 0
  then Some (mkOperation Remove instance
               (take (Z.to_nat (count instance - t)) (AliasIps instance)))
  else None.

Definition is_update (e : event) : bool :=
  match e with EvUpdate _ _ _ _ => true | _ => false end.

(** The request body [UpdateAliasIPs] builds for the addresses [ips]. *)
Definition bodyFor (cfg : GcpConfig.t) (instance : GceInstance) (ips : list string)
    : NetworkInterfaceBody :=
  mkBody (NetworkFingerprint instance)
         (map (fun ip => (ip +:+ "/32", GcpConfig.AliasNetwork cfg)) ips).

(** A cloud in which the node "b" cannot be fetched. *)
Definition cloudPartial : Cloud :=
  mkCloud unit
    (fun _ _ => Some ["a"; "b"; "c"])
    (fun _ _ name => if String.eqb name "b" then None else Some (node name ["10.0.0.1"]))
    (fun _ st _ _ _ => (WriteOk, st)).

Definition startPartial : world cloudPartial := @mkWorld cloudPartial 0 tt [].

(** ** The control loop ([main], [PrintInstances]) *)

(** [PrintInstances]: a fetch of the snapshot, logged. *)
Definition PrintInstances : prog unit :=
  let* r := GetInstancesFromMIG in Ret tt.

(** How a round of the loop of [main] ends. *)
Inductive roundEnd := Printed | Slept (seconds : Z).

(** One round of the loop of [main]: both passes, then the instances are
    printed when something changed and the loop sleeps when nothing
    did. *)
Definition mainRound {cloud : Cloud} (fuel : nat) (schedA schedR : Schedule)
    (actsA actsR : list action) (cfg : Config) (w : world cloud)
    : option (roundEnd * world cloud) :=
  match AllocateIps schedA actsA cfg w with
  | None => None
  | Some (changes, w) =>
      match ReduceIps fuel schedR actsR cfg w with
      | None => None
      | Some (reduced, w) =>
          let changes := changes + reduced in
          if changes >? 0 then Some (Printed, (run PrintInstances w).2)
          else Some (Slept (SleepSeconds cfg), w)
      end
  end.

(** ** Prefixes ([ExpandNetworkPrefix]) *)

(** [net.CIDRMask(ones, 8 * l)]: a mask of [l] bytes, [n] one bits and
    then zero bits; a byte that is not full is [^byte(0xff >> n)]. *)
Fixpoint CIDRMask (l : nat) (n : Z) : list Z :=
  match l with
  | O => []
  | S l =>
      if 8 <=? n then 255 :: CIDRMask l (n - 8)
      else Z.lxor 255 (Z.shiftr 255 n) :: CIDRMask l 0
  end.

(** [IP.Mask]: the bytes of the address and of the mask, and-ed. *)
Definition IP_Mask (ip mask : list Z) : list Z := zip_with Z.land ip mask.

(** [IPNet.Contains], for the network number [nn] and the mask [m]:
    the lengths agree and the masked bytes agree. *)
Definition IPNet_Contains (nn m ip : list Z) : bool :=
  bool_decide (length ip = length nn) &&
  bool_decide (IP_Mask nn m = IP_Mask ip m).

(** The loop of [ExpandNetworkPrefix]: [ip] is incremented in place,
    [netip.AddrFromSlice] copies its bytes into the list. *)
Fixpoint expandLoop (fuel : nat) (nn m ip : list Z) (addrs : list (list Z))
    : option (list (list Z)) :=
  match fuel with
  | O => None
  | S fuel =>
      if IPNet_Contains nn m ip
      then expandLoop fuel nn m (increment ip) (addrs ++ [ip])
      else Some addrs
  end.

(** [ExpandNetworkPrefix] for a prefix that [net.ParseCIDR] reads as the
    IPv4 address [ipv4] (its four bytes) and a mask of [ones] bits. *)
Definition ExpandNetworkPrefix (fuel : nat) (ipv4 : list Z) (ones : Z)
    : option (list (list Z)) :=
  let mask := CIDRMask 4 ones in
  let nn := IP_Mask ipv4 mask in
  expandLoop fuel nn mask (IP_Mask ipv4 mask) [].

(** ** Reading an instance ([GetInstance]) *)

(** What [Instances.Get] answers, as far as [GetInstance] reads it: the
    name and the network interfaces, each with its name, its fingerprint
    and its alias ranges ([IpCidrRange], [SubnetworkRangeName]). *)
Record NetworkInterfaceResp := mkInterface {
  IfName : string;
  IfFingerprint : string;
  IfAliasIpRanges : list (string * string) }.

Record InstanceResp := mkInstanceResp {
  RespName : string;
  NetworkInterfaces : list NetworkInterfaceResp }.

Section GetInstance.
(** [net.ParseCIDR] on an IPv4 prefix (the bytes of the address and the
    bits of the mask, [None] for an error) and [netip.Addr.String]. *)
Variable ParseCIDR : string -> option (list Z * Z).
Variable AddrString : list Z -> string.

(** [ExpandNetworkPrefix] on the text of a prefix, with the strings of
    its addresses; after an error the list is empty. *)
Definition expandPrefix (fuel : nat) (prefix : string) : option (list string) :=
  match ParseCIDR prefix with
  | None => Some []
  | Some (ipv4, ones) => map AddrString <$> ExpandNetworkPrefix fuel ipv4 ones
  end.

(** The inner loop of [GetInstance], over the alias ranges. *)
Definition aliasStep (fuel : nat) (st : option GceInstance) (alias : string * string)
    : option GceInstance :=
  match st with
  | None => None
  | Some instance =>
      match expandPrefix fuel alias.1 with
      | None => None
      | Some ips =>
          Some (mkGceInstance (Name instance) (NetworkInterface instance)
                  (NetworkFingerprint instance) alias.2 (AliasIps instance ++ ips))
      end
  end.

(** The outer loop, over the interfaces. *)
Definition interfaceStep (fuel : nat) (st : option GceInstance) (i : NetworkInterfaceResp)
    : option GceInstance :=
  match st with
  | None => None
  | Some instance =>
      foldl (aliasStep fuel)
            (Some (mkGceInstance (Name instance) (IfName i) (IfFingerprint i)
                     (AliasNetwork instance) (AliasIps instance)))
            (IfAliasIpRanges i)
  end.

(** [GetInstance] after the call: the instance made of the answer. *)
Definition instanceOf (fuel : nat) (resp : InstanceResp) : option GceInstance :=
  foldl (interfaceStep fuel) (Some (mkGceInstance (RespName resp) "" "" "" []))
        (NetworkInterfaces resp).

(** An address that the two functions read and write alike. *)
Definition canonical (ip : string) : Prop :=
  match ParseCIDR (ip +:+ "/32") with
  | Some (ipv4, ones) =>
      ones = 32 /\ bytes ipv4 /\ length ipv4 = 4%nat /\ AddrString ipv4 = ip
  | None => False
  end.
End GetInstance.


(** A reader and a printer for one address, for the examples. *)
Definition parseOne (s : string) : option (list Z * Z) :=
  if String.eqb s "10.0.0.1/32" then Some ([10; 0; 0; 1], 32) else None.

Definition printOne (ip : list Z) : string := "10.0.0.1".

(** ** Names of the group ([ListInstancesInGroup]) *)

(** The separator, the character of code 47. *)
Definition slash : Ascii.ascii := Eval cbv in Ascii.ascii_of_nat 47.

(** [strings.Split(s, "/")]. *)
Fixpoint splitSlash (s : string) : list string :=
  match s with
  | EmptyString => [EmptyString]
  | String c s =>
      if Ascii.eqb c slash then EmptyString :: splitSlash s
      else match splitSlash s with
           | [] => [String c EmptyString]
           | part :: parts => String c part :: parts
           end
  end.

(** [url[len(url)-1]] for [url := strings.Split(instance.Instance, "/")];
    [None] stands for the index out of range. *)
Definition instanceName (instance : string) : option string :=
  last (splitSlash instance).

Fixpoint hasSlash (s : string) : bool :=
  match s with
  | EmptyString => false
  | String c s => Ascii.eqb c slash || hasSlash s
  end.

(** A cloud that lists the node "a" twice; its first fetch succeeds (at
    time 1) and its second fails. *)
Definition cloudTwice : Cloud :=
  mkCloud unit
    (fun _ _ => Some ["a"; "a"])
    (fun clock _ name => if (clock <=? 1)%nat then Some (node name ["10.0.0.1"]) else None)
    (fun _ st _ _ _ => (WriteOk, st)).

Definition startTwice : world cloudTwice := @mkWorld cloudTwice 0 tt [].

(** * Properties *)

(** ** Range orders *)

Lemma shuffle_perm {A} (code : list nat) (l : list A) :
  GoMap.shuffle code l ≡ₚ l.
Proof.
  revert l. induction code as [|c code IH]; intros l; simpl; [done|].
  destruct l as [|a l]; [done|].
  destruct ((a :: l) !! (c mod length (a :: l))%nat) as [x|] eqn:Hx; [|done].
  rewrite IH. symmetry. by apply delete_Permutation.
Qed.

(** The codes reach every order of the entries. *)
Lemma shuffle_complete {A} (l l' : list A) :
  l' ≡ₚ l -> exists code, GoMap.shuffle code l = l'.
Proof.
  revert l. induction l' as [|x l' IH]; intros l Hp.
  - apply Permutation_nil_l in Hp. subst. by exists [].
  - assert (Hin : x ∈ l) by (rewrite <- Hp; left).
    apply list_elem_of_lookup in Hin as [i Hi].
    assert (Hlt : (i < length l)%nat) by (eapply lookup_lt_Some; eauto).
    assert (Hp' : l' ≡ₚ delete i l).
    { apply (Permutation_cons_inv (a := x)).
      rewrite Hp. by apply delete_Permutation. }
    destruct (IH _ Hp') as [code Hcode].
    exists (i :: code). simpl.
    destruct l as [|a l]; [simpl in Hlt; lia|].
    rewrite Nat.mod_small by done. rewrite Hi. by rewrite Hcode.
Qed.

Lemma range_perm {V} code (m : gmap string V) :
  GoMap.range code m ≡ₚ map_to_list m.
Proof. apply shuffle_perm. Qed.

Lemma elem_of_range {V} code (m : gmap string V) k v :
  (k, v) ∈ GoMap.range code m <-> m !! k = Some v.
Proof. rewrite range_perm. apply elem_of_map_to_list. Qed.

Lemma range_empty {V} code : GoMap.range code (∅ : gmap string V) = [].
Proof.
  apply Permutation_nil_r. rewrite range_perm. by rewrite map_to_list_empty.
Qed.

Lemma range_nil_inv {V} code (m : gmap string V) :
  GoMap.range code m = [] -> m = ∅.
Proof.
  intros H. apply map_to_list_empty_iff. apply Permutation_nil_r.
  by rewrite <- range_perm, H.
Qed.

Lemma NoDup_fst_range {V} code (m : gmap string V) :
  NoDup (GoMap.range code m).*1.
Proof. rewrite range_perm. apply NoDup_fst_map_to_list. Qed.

Lemma NoDup_range {V} code (m : gmap string V) : NoDup (GoMap.range code m).
Proof. eapply NoDup_fmap_1, NoDup_fst_range. Qed.

(** A [range] with a [break] at the first entry that passes [test]. *)
Lemma find_range_Some {V} (test : string * V -> bool) code (m : gmap string V) k v :
  List.find test (GoMap.range code m) = Some (k, v) ->
  m !! k = Some v /\ test (k, v) = true.
Proof.
  intros H. apply find_some in H as [Hin Ht]. split; [|done].
  apply (elem_of_range code). by apply list_elem_of_In.
Qed.

Lemma find_range_None {V} (test : string * V -> bool) code (m : gmap string V) k v :
  List.find test (GoMap.range code m) = None ->
  m !! k = Some v -> test (k, v) = false.
Proof.
  intros H Hk. eapply find_none in H; [done|].
  apply list_elem_of_In. by apply elem_of_range.
Qed.

(** ** The minimum and maximum scans *)

Section scans.
Context {A : Type} (g : A -> Z).

Lemma foldl_min_acc (f : Z -> A -> Z) (l : list A) (acc : Z) :
  (forall a x, f a x = if (a <? 0) || (g x <? a) then g x else a) ->
  (forall x, x ∈ l -> 0 <= g x) ->
  0 <= acc ->
  let r := foldl f acc l in
  (r = acc \/ exists x, x ∈ l /\ g x = r) /\ r <= acc /\ (forall x, x ∈ l -> r <= g x).
Proof.
  intros Hf. revert acc. induction l as [|y l IH]; intros acc Hg Hacc; simpl.
  - split; [by left|]. split; [lia|]. intros x Hx. by apply elem_of_nil in Hx.
  - assert (Hy : 0 <= g y) by (apply Hg; left).
    assert (Hacc' : 0 <= f acc y).
    { rewrite Hf. destruct ((acc <? 0) || (g y <? acc)); lia. }
    assert (Hle : f acc y <= acc /\ f acc y <= g y /\ (f acc y = acc \/ f acc y = g y)).
    { rewrite Hf. destruct (acc <? 0) eqn:E1; simpl; [lia|].
      destruct (g y <? acc) eqn:E2; lia. }
    destruct (IH (f acc y)) as (Hr & Hr1 & Hr2); [|done|].
    { intros x Hx. apply Hg. by right. }
    split; [|split].
    + destruct Hr as [Hr|(x & Hx & Hgx)].
      * destruct Hle as (_ & _ & [E|E]); [left; congruence|].
        right. exists y. split; [left|congruence].
      * right. exists x. split; [by right|done].
    + lia.
    + intros x Hx. apply elem_of_cons in Hx as [->|Hx]; [lia|by apply Hr2].
Qed.

(** Started at [-1] on non-negative values, the scan of [minValue] and
    [minAliasIps] yields the least value, in whatever order it runs. *)
Lemma foldl_min_spec (f : Z -> A -> Z) (l : list A) :
  (forall a x, f a x = if (a <? 0) || (g x <? a) then g x else a) ->
  (forall x, x ∈ l -> 0 <= g x) ->
  l <> [] ->
  (exists x, x ∈ l /\ g x = foldl f (-1) l) /\
  (forall x, x ∈ l -> foldl f (-1) l <= g x).
Proof.
  intros Hf Hg Hl. destruct l as [|y l]; [done|]. simpl.
  assert (Hy : 0 <= g y) by (apply Hg; left).
  assert (E : f (-1) y = g y) by (rewrite Hf; reflexivity).
  rewrite E.
  destruct (foldl_min_acc f l (g y) Hf) as (Hr & Hr1 & Hr2); [|done|].
  { intros x Hx. apply Hg. by right. }
  split.
  - destruct Hr as [Hr|(x & Hx & Hgx)].
    + exists y. split; [left|done].
    + exists x. split; [by right|done].
  - intros x Hx. apply elem_of_cons in Hx as [->|Hx]; [lia|by apply Hr2].
Qed.

Lemma foldl_max_acc (f : Z -> A -> Z) (l : list A) (acc : Z) :
  (forall a x, f a x = if a <? g x then g x else a) ->
  let r := foldl f acc l in
  (r = acc \/ exists x, x ∈ l /\ g x = r) /\ acc <= r /\ (forall x, x ∈ l -> g x <= r).
Proof.
  intros Hf. revert acc. induction l as [|y l IH]; intros acc; simpl.
  - split; [by left|]. split; [lia|]. intros x Hx. by apply elem_of_nil in Hx.
  - assert (Hle : acc <= f acc y /\ g y <= f acc y /\ (f acc y = acc \/ f acc y = g y)).
    { rewrite Hf. destruct (acc <? g y) eqn:E; lia. }
    destruct (IH (f acc y)) as (Hr & Hr1 & Hr2).
    split; [|split].
    + destruct Hr as [Hr|(x & Hx & Hgx)].
      * destruct Hle as (_ & _ & [E|E]); [left; congruence|].
        right. exists y. split; [left|congruence].
      * right. exists x. split; [by right|done].
    + lia.
    + intros x Hx. apply elem_of_cons in Hx as [->|Hx]; [lia|by apply Hr2].
Qed.

End scans.

Lemma minValue_empty code : minValue code ∅ = -1.
Proof. unfold minValue. by rewrite range_empty. Qed.

Lemma maxValue_empty code : maxValue code ∅ = 0.
Proof. unfold maxValue. by rewrite range_empty. Qed.

Lemma minValue_spec code (m : gmap string Z) :
  nonneg m -> m <> ∅ ->
  (exists k, m !! k = Some (minValue code m)) /\
  (forall k v, m !! k = Some v -> minValue code m <= v).
Proof.
  intros Hnn Hne. unfold minValue.
  destruct (foldl_min_spec snd
              (fun min '(_, v) => if (min <? 0) || (v <? min) then v else min)
              (GoMap.range code m)) as [(x & Hx & Hgx) Hmin].
  - by intros a [k v].
  - intros [k v] Hin. apply elem_of_range in Hin. simpl. eauto.
  - intros E. by apply range_nil_inv in E.
  - split.
    + destruct x as [k v]. exists k. apply elem_of_range in Hx. simpl in Hgx.
      by rewrite <- Hgx.
    + intros k v Hk. apply (Hmin (k, v)). by apply elem_of_range.
Qed.

Lemma maxValue_spec code (m : gmap string Z) :
  nonneg m -> m <> ∅ ->
  (exists k, m !! k = Some (maxValue code m)) /\
  (forall k v, m !! k = Some v -> v <= maxValue code m).
Proof.
  intros Hnn Hne. unfold maxValue.
  destruct (foldl_max_acc snd
              (fun max '(_, v) => if max <? v then v else max)
              (GoMap.range code m) 0) as (Hr & Hr1 & Hr2).
  - by intros a [k v].
  - split.
    + destruct Hr as [Hr|([k v] & Hx & Hgx)].
      * destruct (map_choose m Hne) as (k & v & Hk).
        pose proof (Hr2 (k, v) (proj2 (elem_of_range _ _ _ _) Hk)) as Hle.
        simpl in Hle. pose proof (Hnn _ _ Hk) as Hv. simpl in Hv.
        exists k. rewrite Hk. f_equal. lia.
      * exists k. apply elem_of_range in Hx. simpl in Hgx. by rewrite <- Hgx.
    + intros k v Hk. apply (Hr2 (k, v)). by apply elem_of_range.
Qed.

(** ** Sums over a map *)

Lemma msum_empty {V} (f : V -> Z) : msum f ∅ = 0.
Proof. unfold msum. by rewrite map_fold_empty. Qed.

Lemma msum_insert_new {V} (f : V -> Z) (m : gmap string V) k v :
  m !! k = None -> msum f (<[k := v]> m) = f v + msum f m.
Proof.
  intros H. unfold msum. rewrite map_fold_insert_L; [done| |done].
  intros. lia.
Qed.

Lemma msum_insert {V} (f : V -> Z) (m : gmap string V) k v v' :
  m !! k = Some v -> msum f (<[k := v']> m) = msum f m - f v + f v'.
Proof.
  intros H.
  rewrite <- (insert_delete_eq m k v').
  rewrite msum_insert_new by apply lookup_delete_eq.
  rewrite <- (insert_delete_id m k v) at 2 by done.
  rewrite msum_insert_new by apply lookup_delete_eq. lia.
Qed.

Lemma msum_nonneg {V} (f : V -> Z) (m : gmap string V) :
  (forall v, 0 <= f v) -> 0 <= msum f m.
Proof.
  intros Hf. induction m as [|k v m Hk IH] using map_ind.
  - by rewrite msum_empty.
  - rewrite msum_insert_new by done. specialize (Hf v). lia.
Qed.

Lemma msum_fmap {V W} (f : W -> Z) (h : V -> W) (m : gmap string V) :
  msum f (h <$> m) = msum (fun v => f (h v)) m.
Proof.
  induction m as [|k v m Hk IH] using map_ind.
  - by rewrite fmap_empty, !msum_empty.
  - rewrite fmap_insert. rewrite !msum_insert_new; [lia|done|].
    by rewrite lookup_fmap, Hk.
Qed.

Lemma msum_lookup_le {V} (f : V -> Z) (m : gmap string V) k v :
  (forall x, 0 <= f x) -> m !! k = Some v -> f v <= msum f m.
Proof.
  intros Hf Hk. rewrite <- (insert_delete_id m k v) by done.
  rewrite msum_insert_new by apply lookup_delete_eq.
  pose proof (msum_nonneg f (delete k m) Hf). lia.
Qed.

(** ** Maps built by a [range] loop of stores *)

Lemma foldl_insert_notin {V W} (h : string -> V -> W)
    (f : gmap string W -> string * V -> gmap string W) l acc k :
  (forall a j v, f a (j, v) = <[j := h j v]> a) ->
  k ∉ l.*1 -> foldl f acc l !! k = acc !! k.
Proof.
  intros Hf. revert acc. induction l as [|[j v] l IH]; intros acc Hk; [done|].
  simpl in *. apply not_elem_of_cons in Hk as [Hne Hk].
  rewrite IH by done. rewrite Hf. by rewrite lookup_insert_ne.
Qed.

Lemma foldl_insert_in {V W} (h : string -> V -> W)
    (f : gmap string W -> string * V -> gmap string W) l acc k v :
  (forall a j v, f a (j, v) = <[j := h j v]> a) ->
  NoDup l.*1 -> (k, v) ∈ l -> foldl f acc l !! k = Some (h k v).
Proof.
  intros Hf. revert acc. induction l as [|[j x] l IH]; intros acc Hnd Hin.
  - by apply elem_of_nil in Hin.
  - simpl in *. apply NoDup_cons in Hnd as [Hj Hnd].
    apply elem_of_cons in Hin as [E|Hin].
    + inversion E; subst.
      rewrite (foldl_insert_notin h) by done. rewrite Hf. apply lookup_insert_eq.
    + by apply IH.
Qed.

Lemma foldl_insert_range {V W} (h : string -> V -> W)
    (f : gmap string W -> string * V -> gmap string W) code (m : gmap string V) :
  (forall a j v, f a (j, v) = <[j := h j v]> a) ->
  foldl f ∅ (GoMap.range code m) = map_imap (fun k v => Some (h k v)) m.
Proof.
  intros Hf. apply map_eq. intros k. rewrite map_lookup_imap.
  destruct (m !! k) as [v|] eqn:Hk; simpl.
  - apply (foldl_insert_in h); [done|apply NoDup_fst_range|by apply elem_of_range].
  - rewrite (foldl_insert_notin h); [done|done|].
    intros Hin. apply list_elem_of_fmap in Hin as ([j v] & -> & Hin).
    apply elem_of_range in Hin. simpl in Hk. congruence.
Qed.

Lemma reduceInit_counts code (instances : gmap string GceInstance) :
  reduceInit code instances = count <$> instances.
Proof.
  unfold reduceInit.
  rewrite (foldl_insert_range (fun _ i => count i)); [|done].
  apply map_eq. intros k. rewrite map_lookup_imap, lookup_fmap.
  by destruct (instances !! k).
Qed.

Lemma allocInit_lookup code (instances : gmap string GceInstance) k :
  allocInit code instances !! k = (fun i => mkOperation Add i []) <$> instances !! k.
Proof.
  unfold allocInit.
  rewrite (foldl_insert_range (fun _ i => mkOperation Add i [])); [|done].
  rewrite map_lookup_imap. by destruct (instances !! k).
Qed.

Lemma len_nonneg {A} (l : list A) : 0 <= len l.
Proof. unfold len. lia. Qed.

Lemma counts_nonneg (instances : gmap string GceInstance) :
  nonneg (count <$> instances).
Proof.
  intros k v. rewrite lookup_fmap. destruct (instances !! k); [|done].
  intros [= <-]. apply len_nonneg.
Qed.

(** ** The Robin Hood loop *)

Lemma bumpFirst_spec code x d (target : gmap string Z) :
  (exists k, target !! k = Some x) ->
  exists k, target !! k = Some x /\ bumpFirst code x d target = <[k := x + d]> target.
Proof.
  intros [k0 Hk0]. unfold bumpFirst.
  destruct (List.find _ _) as [[k v]|] eqn:Hf.
  - apply find_range_Some in Hf as [Hk Hv]. apply Z.eqb_eq in Hv. subst v.
    exists k. split; [done|]. unfold GoMap.get. by rewrite Hk.
  - eapply find_range_None in Hf; [|exact Hk0]. simpl in Hf.
    rewrite Z.eqb_refl in Hf. done.
Qed.

(** One round takes one address from an instance at the maximum and gives
    it to another instance, at the minimum. *)
Lemma robinHoodStep_spec sched n mn mx (target : gmap string Z) :
  is_min target mn -> is_max target mx -> mx - mn > 1 ->
  exists k1 k2, k1 <> k2 /\ target !! k1 = Some mx /\ target !! k2 = Some mn /\
    robinHoodStep sched n mn mx target = <[k2 := mn + 1]> (<[k1 := mx - 1]> target).
Proof.
  intros [[kmin Hkmin] Hmin] [Hexmax Hmax] Hgap. unfold robinHoodStep.
  destruct (bumpFirst_spec (sched RangeReduceDec n) mx (-1) target Hexmax)
    as (k1 & Hk1 & ->).
  assert (Hne : kmin <> k1) by (intros ->; rewrite Hk1 in Hkmin; injection Hkmin; lia).
  destruct (bumpFirst_spec (sched RangeReduceInc n) mn 1 (<[k1 := mx + -1]> target))
    as (k2 & Hk2 & ->).
  { exists kmin. by rewrite lookup_insert_ne. }
  assert (Hne2 : k1 <> k2).
  { intros ->. rewrite lookup_insert_eq in Hk2. injection Hk2. lia. }
  rewrite lookup_insert_ne in Hk2 by done.
  exists k1, k2. repeat split; try done.
Qed.

Lemma robinHoodStep_effect (target : gmap string Z) k1 k2 mn mx :
  k1 <> k2 -> target !! k1 = Some mx -> target !! k2 = Some mn ->
  nonneg target -> mx - mn > 1 ->
  let target' := <[k2 := mn + 1]> (<[k1 := mx - 1]> target) in
  nonneg target' /\ target' <> ∅ /\ dom target' = dom target /\
  msum id target' = msum id target /\
  msum (fun v => v * v) target' < msum (fun v => v * v) target.
Proof.
  intros Hne Hk1 Hk2 Hnn Hgap target'.
  pose proof (Hnn _ _ Hk2) as Hmn0. simpl in Hmn0.
  assert (Hk2' : <[k1 := mx - 1]> target !! k2 = Some mn)
    by (by rewrite lookup_insert_ne).
  split; [|split; [|split; [|split]]].
  - intros k v. unfold target'. rewrite !lookup_insert.
    repeat case_decide; intros ?; simplify_eq; try lia. eauto.
  - unfold target'. apply insert_non_empty.
  - unfold target'. rewrite dom_insert_lookup_L by eauto.
    by rewrite dom_insert_lookup_L by eauto.
  - unfold target'. rewrite (msum_insert _ _ _ _ _ Hk2').
    rewrite (msum_insert _ _ _ _ _ Hk1). unfold id. lia.
  - unfold target'. rewrite (msum_insert _ _ _ _ _ Hk2').
    rewrite (msum_insert _ _ _ _ _ Hk1). nia.
Qed.

Lemma is_min_max_balanced (m : gmap string Z) mn mx :
  is_min m mn -> is_max m mx -> mx - mn <= 1 -> balanced m.
Proof.
  intros [_ Hmin] [_ Hmax] Hgap k1 v1 H1 k2 v2 H2. simpl.
  specialize (Hmax _ _ H1). specialize (Hmin _ _ H2). lia.
Qed.

(** With fuel for the sum of squares the loop ends, and it ends balanced
    with the domain and the total kept. *)
Lemma robinHoodLoop_spec sched fuel : forall n mn mx (target : gmap string Z),
  nonneg target -> is_min target mn -> is_max target mx ->
  msum (fun v => v * v) target <= Z.of_nat fuel ->
  exists target', robinHoodLoop fuel sched n mn mx target = Some target' /\
    balanced target' /\ nonneg target' /\ dom target' = dom target /\
    msum id target' = msum id target.
Proof.
  induction fuel as [|fuel IH]; intros n mn mx target Hnn Hmin Hmax Hfuel.
  - simpl. destruct (mx - mn >? 1) eqn:Hgap.
    + exfalso. apply Z.gtb_lt in Hgap. destruct Hmax as [[k Hk] _].
      destruct Hmin as [[k' Hk'] _]. pose proof (Hnn _ _ Hk') as Hv. simpl in Hv.
      pose proof (msum_lookup_le (fun v => v * v) target k mx) as Hle.
      specialize (Hle ltac:(intros; nia) Hk). simpl in Hfuel, Hle. nia.
    + exists target. split; [done|].
      split; [eapply is_min_max_balanced; eauto; lia|done].
  - simpl. destruct (mx - mn >? 1) eqn:Hgap.
    + apply Z.gtb_lt in Hgap.
      destruct (robinHoodStep_spec sched n mn mx target) as (k1 & k2 & Hne & Hk1 & Hk2 & ->);
        [done|done|lia|].
      destruct (robinHoodStep_effect target k1 k2 mn mx) as (Hnn' & Hne' & Hdom & Hsum & Hsq);
        [done|done|done|done|lia|].
      set (target' := <[k2 := mn + 1]> (<[k1 := mx - 1]> target)) in *.
      destruct (IH (S n) (minValue (sched RangeMinValue (S n)) target')
                   (maxValue (sched RangeMaxValue (S n)) target') target')
        as (t & Ht & Hb & Hn & Hd & Hs).
      * done.
      * by apply minValue_spec.
      * by apply maxValue_spec.
      * lia.
      * exists t. split; [done|]. split; [done|]. split; [done|].
        split; congruence.
    + exists target. split; [done|].
      split; [eapply is_min_max_balanced; eauto; lia|done].
Qed.

Lemma robinHoodLoop_empty fuel sched n mn mx :
  mx - mn <= 1 -> robinHoodLoop fuel sched n mn mx ∅ = Some ∅.
Proof.
  intros H. destruct fuel; simpl; destruct (mx - mn >? 1) eqn:E; try done;
    apply Z.gtb_lt in E; lia.
Qed.

(** More fuel does not change a result. *)
Lemma robinHoodLoop_mono sched fuel : forall fuel' n mn mx target target',
  robinHoodLoop fuel sched n mn mx target = Some target' ->
  (fuel <= fuel')%nat ->
  robinHoodLoop fuel' sched n mn mx target = Some target'.
Proof.
  induction fuel as [|fuel IH]; intros fuel' n mn mx target target' H Hle.
  - simpl in H. destruct (mx - mn >? 1) eqn:E; [done|].
    destruct fuel'; simpl; by rewrite E.
  - destruct fuel' as [|fuel']; [lia|]. simpl in *.
    destruct (mx - mn >? 1); [|done]. apply IH; [done|lia].
Qed.

Lemma robinHood_spec sched (target : gmap string Z) :
  nonneg target ->
  exists target',
    (forall fuel, (robinHoodFuel target <= fuel)%nat ->
                  robinHood fuel sched target = Some target') /\
    balanced target' /\ nonneg target' /\ dom target' = dom target /\
    msum id target' = msum id target.
Proof.
  intros Hnn. destruct (decide (target = ∅)) as [->|Hne].
  - exists ∅. split.
    + intros fuel _. unfold robinHood.
      rewrite minValue_empty, maxValue_empty. by apply robinHoodLoop_empty.
    + split; [|done]. intros k v. by rewrite lookup_empty.
  - destruct (robinHoodLoop_spec sched (robinHoodFuel target) 0
                (minValue (sched RangeMinValue 0%nat) target)
                (maxValue (sched RangeMaxValue 0%nat) target) target)
      as (t & Ht & Hrest).
    + done.
    + by apply minValue_spec.
    + by apply maxValue_spec.
    + unfold robinHoodFuel. rewrite Z2Nat.id; [lia|].
      apply msum_nonneg. intros; nia.
    + exists t. split; [|done]. intros fuel Hfuel. unfold robinHood.
      eapply robinHoodLoop_mono; eauto.
Qed.


(** C4: on every map of counts (no value negative) the Robin Hood loop
    of ReduceIps ends, whatever the iteration orders: the sum of the
    squares of the counts is fuel enough, and so is any larger fuel. *)
Theorem C4_robin_hood_terminates (sched : Schedule) (target : gmap string Z) :
  nonneg target ->
  exists target', forall fuel, (robinHoodFuel target <= fuel)%nat ->
    robinHood fuel sched target = Some target'.
Proof.
  intros Hnn. destruct (robinHood_spec sched target Hnn) as (t & Ht & _).
  by exists t.
Qed.

Lemma C4_witness :
  exists target', forall fuel, (robinHoodFuel counts3330 <= fuel)%nat ->
    robinHood fuel sched0 counts3330 = Some target'.
Proof.
  apply (C4_robin_hood_terminates sched0 counts3330).
  unfold nonneg. apply (bool_decide_unpack _). vm_compute. exact I.
Defined.

(** C1: the target computation of a shrink pass ends with targets that
    differ by at most one (also as the code's own maxValue and minValue
    measure it), one target per instance, and with the sum of the targets
    equal to the sum of the current counts of the instances. *)
Theorem C1_shrink_targets_balanced (sched : Schedule)
    (instances : gmap string GceInstance) :
  exists target,
    (forall fuel, (robinHoodFuel (count <$> instances) <= fuel)%nat ->
                  ReduceIps_target fuel sched instances = Some target) /\
    balanced target /\
    (instances <> ∅ ->
     forall c1 c2, maxValue c1 target - minValue c2 target <= 1) /\
    dom target = dom instances /\
    msum id target = msum count instances.
Proof.
  unfold ReduceIps_target. rewrite reduceInit_counts.
  destruct (robinHood_spec sched (count <$> instances) (counts_nonneg instances))
    as (t & Ht & Hb & Hnn & Hdom & Hsum).
  exists t. split; [done|]. split; [done|]. split; [|split].
  - intros Hne c1 c2.
    assert (Hne' : t <> ∅).
    { intros ->. rewrite dom_empty_L, dom_fmap_L in Hdom.
      symmetry in Hdom. by apply dom_empty_inv_L in Hdom. }
    destruct (minValue_spec c2 t Hnn Hne') as [[k2 Hk2] _].
    destruct (maxValue_spec c1 t Hnn Hne') as [[k1 Hk1] _].
    exact (Hb _ _ Hk1 _ _ Hk2).
  - by rewrite Hdom, dom_fmap_L.
  - rewrite Hsum. rewrite msum_fmap. done.
Qed.

(** ** Running programs *)

Lemma run_vis {cloud : Cloud} {R X} (c : call X) (k : X -> prog R) (w : world cloud) :
  run (Vis c k) w = run (k (perform c w).1) (perform c w).2.
Proof. reflexivity. Qed.

Lemma run_bind {cloud : Cloud} {R S} (p : prog R) (f : R -> prog S) (w : world cloud) :
  run (bind p f) w = run (f (run p w).1) (run p w).2.
Proof.
  revert w. induction p as [r|X c k IH]; intros w; [done|].
  cbn [bind]. rewrite !run_vis. apply IH.
Qed.

Lemma run_trigger {cloud : Cloud} {X} (c : call X) (w : world cloud) :
  run (trigger c) w = perform c w.
Proof. unfold trigger. rewrite run_vis. by destruct (perform c w). Qed.

Lemma perform_trace {cloud : Cloud} {X} (c : call X) (w : world cloud) :
  w_trace (perform c w).2 = w_trace w ++ [event_of c (perform c w).1].
Proof. reflexivity. Qed.

(** A program only adds to the trace. *)
Lemma run_trace {cloud : Cloud} {R} (p : prog R) (w : world cloud) :
  exists evs, w_trace (run p w).2 = w_trace w ++ evs.
Proof.
  revert w. induction p as [r|X c k IH]; intros w.
  - exists []. simpl. by rewrite app_nil_r.
  - rewrite run_vis.
    destruct (IH (perform c w).1 (perform c w).2) as [evs Hevs]. rewrite Hevs.
    rewrite perform_trace. eexists. by rewrite <- app_assoc.
Qed.

(** ** [Execute] *)

Lemma Contains_elem_of s v : Contains s v = true <-> v ∈ s.
Proof.
  unfold Contains. rewrite existsb_exists. split.
  - intros (x & Hin & Heq). apply String.eqb_eq in Heq. subst.
    by apply list_elem_of_In.
  - intros Hin. exists v. split; [by apply list_elem_of_In|apply String.eqb_refl].
Qed.

Lemma Contains_false s v : Contains s v = false <-> v ∉ s.
Proof.
  rewrite <- Contains_elem_of. destruct (Contains s v); split; done.
Qed.

(** The [Add] loop appends to the current list the added addresses it
    does not hold yet. *)
Lemma add_loop_spec (ips current : list string) :
  let newState := foldl (fun newState ip =>
                    if negb (Contains newState ip) then newState ++ [ip] else newState)
                    current ips in
  (exists extra, newState = current ++ extra /\ NoDup extra /\
     (forall ip, ip ∈ extra <-> ip ∈ ips /\ ip ∉ current)).
Proof.
  revert current. induction ips as [|ip ips IH]; intros current; simpl.
  - exists []. rewrite app_nil_r. split; [done|]. split; [constructor|].
    intros ip. split; [by intros H%elem_of_nil|]. by intros [H%elem_of_nil _].
  - destruct (Contains current ip) eqn:E; simpl.
    + apply Contains_elem_of in E.
      destruct (IH current) as (extra & -> & Hnd & Hex).
      exists extra. split; [done|]. split; [done|].
      intros x. rewrite Hex, elem_of_cons. split; [naive_solver|].
      intros [[->|H] Hx]; [done|done].
    + apply Contains_false in E.
      destruct (IH (current ++ [ip])) as (extra & -> & Hnd & Hex).
      exists (ip :: extra). rewrite <- app_assoc. split; [done|]. split.
      * constructor; [|done]. rewrite Hex. intros [_ H]. apply H.
        apply elem_of_app. right. by left.
      * intros x. rewrite !elem_of_cons, Hex, elem_of_app, list_elem_of_singleton.
        split.
        -- intros [->|[H1 H2]]; [by split; [left|]|]. split; [by right|].
           intros H. apply H2. by left.
        -- intros [[->|H1] H2]; [by left|].
           destruct (decide (x = ip)) as [->|Hne]; [by left|].
           right. split; [done|]. intros [H|H]; done.
Qed.

(** The [Remove] loop keeps, in order, the current addresses that are not
    removed. *)
Lemma remove_loop_spec (removed current acc : list string) :
  foldl (fun newState ip =>
           if negb (Contains removed ip) then newState ++ [ip] else newState)
        acc current
  = acc ++ List.filter (fun ip => negb (Contains removed ip)) current.
Proof.
  revert acc. induction current as [|ip current IH]; intros acc; simpl.
  - by rewrite app_nil_r.
  - rewrite IH. destruct (negb (Contains removed ip)); [|done].
    by rewrite <- app_assoc.
Qed.

(** The list [Execute] writes holds the desired set of the design. *)
Lemma newStateOf_desired operation instance :
  list_to_set (newStateOf operation instance) = desiredSet operation (AliasIps instance).
Proof.
  unfold newStateOf, desiredSet. destruct (OpType operation).
  - destruct (add_loop_spec (Ips operation) (AliasIps instance))
      as (extra & -> & _ & Hex).
    apply set_eq. intros x.
    rewrite !elem_of_union, !elem_of_list_to_set, elem_of_app, Hex.
    destruct (decide (x ∈ AliasIps instance)); naive_solver.
  - rewrite remove_loop_spec. simpl. apply set_eq. intros x.
    rewrite elem_of_difference, !elem_of_list_to_set.
    rewrite (list_elem_of_In (List.filter _ _) x), filter_In, <- list_elem_of_In.
    rewrite negb_true_iff, Contains_false. done.
Qed.

(** The length test of [Execute] (line 108) is a test for "nothing to
    change": the lengths agree exactly when the desired set is the current
    set. *)
Lemma newStateOf_noop operation instance :
  len (AliasIps instance) = len (newStateOf operation instance) <->
  desiredSet operation (AliasIps instance) = list_to_set (AliasIps instance).
Proof.
  unfold newStateOf, desiredSet, len. destruct (OpType operation).
  - destruct (add_loop_spec (Ips operation) (AliasIps instance))
      as (extra & -> & _ & Hex).
    rewrite length_app. split.
    + intros H. assert (extra = []) as -> by (apply nil_length_inv; lia).
      apply set_eq. intros x. rewrite elem_of_union, !elem_of_list_to_set.
      split; [|by left]. intros [H1|H1]; [done|].
      destruct (decide (x ∈ AliasIps instance)) as [|Hn]; [done|].
      exfalso. assert (Hx : x ∈ @nil string) by (by apply Hex).
      by apply elem_of_nil in Hx.
    + intros H. destruct extra as [|x extra]; [simpl; lia|]. exfalso.
      assert (Hx : x ∈ Ips operation /\ x ∉ AliasIps instance) by (apply Hex; left).
      destruct Hx as [Hx1 Hx2]. apply Hx2.
      apply (elem_of_list_to_set (C := gset string)). rewrite <- H.
      apply elem_of_union. right. by apply elem_of_list_to_set.
  - rewrite remove_loop_spec. simpl. split.
    + intros H. apply set_eq. intros x.
      rewrite elem_of_difference, !elem_of_list_to_set.
      split; [by intros [? _]|]. intros Hx. split; [done|].
      assert (Hall : forallb (fun ip => negb (Contains (Ips operation) ip))
                             (AliasIps instance) = true).
      { apply filter_length_forallb. lia. }
      rewrite forallb_forall in Hall. apply list_elem_of_In, Hall in Hx.
      apply negb_true_iff in Hx. by apply Contains_false.
    + intros H. rewrite forallb_filter_id; [done|].
      apply forallb_forall. intros x Hx. apply negb_true_iff, Contains_false.
      apply list_elem_of_In in Hx.
      apply (elem_of_list_to_set (C := gset string)) in Hx. rewrite <- H in Hx.
      apply elem_of_difference in Hx as [_ Hx].
      by rewrite elem_of_list_to_set in Hx.
Qed.

(** The request body [UpdateAliasIPs] sends for [instance] and [ips]. *)
Lemma UpdateAliasIPs_run {cloud : Cloud} cfg instance ips (w : world cloud) :
  let body := mkBody (NetworkFingerprint instance)
                (map (fun ip => (ip +:+ "/32", GcpConfig.AliasNetwork cfg)) ips) in
  let a := perform (UpdateNetworkInterface (Name instance) (NetworkInterface instance)
                                           body) w in
  run (UpdateAliasIPs cfg instance ips) w
  = (match a.1 with WriteOk => false | _ => true end, a.2).
Proof.
  intros body a. unfold UpdateAliasIPs. rewrite run_bind, run_trigger.
  fold body. fold a. by destruct a.1.
Qed.

(** [Execute], call by call. *)
Lemma Execute_run {cloud : Cloud} cfg operation (w : world cloud) :
  let g := perform (GetInstance (Name (OpInstance operation))) w in
  run (Execute cfg operation) w =
  match g.1 with
  | None => (0, g.2)
  | Some instance =>
      let newState := newStateOf operation instance in
      if len (AliasIps instance) =? len newState then (0, g.2)
      else
        let body := mkBody (NetworkFingerprint instance)
                      (map (fun ip => (ip +:+ "/32", GcpConfig.AliasNetwork cfg))
                           newState) in
        let a := perform (UpdateNetworkInterface (Name instance)
                            (NetworkInterface instance) body) g.2 in
        match a.1 with
        | WriteOk => (1, (perform (WaitForUpdate (Name instance) newState) a.2).2)
        | WriteConflict | WriteError => (0, a.2)
        end
  end.
Proof.
  intros g. unfold Execute. rewrite run_bind, run_trigger. fold g.
  destruct g.1 as [instance|]; [|done].
  cbv zeta. destruct (len (AliasIps instance) =? len (newStateOf operation instance));
    [done|].
  rewrite run_bind, UpdateAliasIPs_run. cbv zeta. cbn [fst snd].
  by destruct (perform (UpdateNetworkInterface _ _ _) g.2).1.
Qed.

Lemma returns_only_run {cloud : Cloud} {R} (P : R -> Prop) (p : prog R) (w : world cloud) :
  returns_only P p -> P (run p w).1.
Proof.
  revert w. induction p as [r|X c k IH]; intros w Hp; [done|].
  rewrite run_vis. apply IH. apply Hp.
Qed.

Lemma Execute_returns cfg operation :
  returns_only (fun r => r = 0 \/ r = 1) (Execute cfg operation).
Proof.
  unfold Execute. cbn. intros [instance|]; [|by left].
  destruct (len (AliasIps instance) =? len (newStateOf operation instance));
    [by left|].
  cbn. intros [| |]; cbn; [|by left|by left]. intros _. by right.
Qed.

Lemma Execute_tally cfg operation : tally 0 (Execute cfg operation).
Proof.
  unfold Execute. cbn. intros [instance|]; [|done].
  destruct (len (AliasIps instance) =? len (newStateOf operation instance));
    [done|].
  cbn. intros [| |]; cbn; [|done|done]. intros _. done.
Qed.

(** C7: when the desired final address set (the union of the current and
    the added addresses, or the current addresses without the removed
    ones) is the set just re-fetched, Execute returns 0, the only call it
    makes is that re-fetch (no write, no wait), and the external state is
    as it was. *)
Theorem C7_execute_noop {cloud : Cloud} (cfg : GcpConfig.t) (operation : Operation)
    (w : world cloud) (instance : GceInstance) :
  cloud_get cloud (w_clock w) (w_state w) (Name (OpInstance operation)) = Some instance ->
  desiredSet operation (AliasIps instance) = list_to_set (AliasIps instance) ->
  run (Execute cfg operation) w
  = (0, mkWorld (S (w_clock w)) (w_state w)
                (w_trace w ++ [EvGet (Name (OpInstance operation))])).
Proof.
  intros Hget Hset. rewrite Execute_run. cbv zeta.
  unfold perform. cbn [fst snd event_of]. rewrite Hget.
  apply newStateOf_noop in Hset. rewrite Hset, Z.eqb_refl. done.
Qed.

(** C8: when a write call of Execute fails (with a conflict or another
    error) Execute returns 0 and makes no call of WaitForUpdate. *)
Theorem C8_execute_failed_write {cloud : Cloud} (cfg : GcpConfig.t)
    (operation : Operation) (w : world cloud) (evs : list event) :
  w_trace (run (Execute cfg operation) w).2 = w_trace w ++ evs ->
  Exists (fun e => is_write_failed e = true) evs ->
  (run (Execute cfg operation) w).1 = 0 /\ Forall (fun e => is_wait e = false) evs.
Proof.
  rewrite Execute_run. cbv zeta.
  destruct (perform (GetInstance _) w).1 as [instance|] eqn:Hg.
  - destruct (len (AliasIps instance) =? len (newStateOf operation instance)).
    + cbn [fst snd]. rewrite perform_trace. intros H%app_inv_head. subst evs.
      intros Hex. apply Exists_cons in Hex as [Hex|Hex%Exists_nil]; done.
    + destruct (perform (UpdateNetworkInterface _ _ _) _).1 eqn:Hu; cbn [fst snd];
        rewrite !perform_trace, <- ?app_assoc; intros H%app_inv_head; subst evs;
        rewrite ?Hu.
      * intros Hex. cbn in Hex.
        apply Exists_cons in Hex as [Hex|Hex]; [done|].
        apply Exists_cons in Hex as [Hex|Hex]; [done|].
        apply Exists_cons in Hex as [Hex|Hex%Exists_nil]; done.
      * intros _. split; [done|]. by repeat constructor.
      * intros _. split; [done|]. by repeat constructor.
  - cbn [fst snd]. rewrite perform_trace. intros H%app_inv_head. subst evs.
    intros Hex. apply Exists_cons in Hex as [Hex|Hex%Exists_nil]; done.
Qed.

(** ** The worker pool *)

Lemma filter_insert_len {A} (f : A -> bool) (l : list A) j x y :
  l !! j = Some x ->
  len (List.filter f (<[j := y]> l))
  = len (List.filter f l) - Z.b2z (f x) + Z.b2z (f y).
Proof.
  revert j. induction l as [|a l IH]; intros j Hj; [done|].
  destruct j as [|j]; simpl in *.
  - injection Hj as ->. unfold len. destruct (f x), (f y); simpl; lia.
  - specialize (IH j Hj). unfold len in *.
    destruct (f a); simpl; lia.
Qed.

Lemma busy_insert ws j w w' :
  ws !! j = Some w ->
  busy (<[j := w']> ws) = busy ws - Z.b2z (is_busy w) + Z.b2z (is_busy w').
Proof. apply filter_insert_len. Qed.

Lemma busy_le ws : busy ws <= Z.of_nat (length ws).
Proof. unfold busy, len. pose proof (filter_length_le is_busy ws). lia. Qed.

Lemma busy_replicate n : busy (replicate n Idle) = 0.
Proof. induction n as [|n IH]; [done|]. exact IH. Qed.

Lemma sumZ_insert l j e e' :
  l !! j = Some e -> sumZ (<[j := e']> l) = sumZ l - e + e'.
Proof.
  revert j. induction l as [|a l IH]; intros j Hj; [done|].
  destruct j as [|j]; simpl in *.
  - injection Hj as ->. lia.
  - rewrite (IH j Hj). lia.
Qed.

Lemma writesOk_snoc trace e :
  writesOk (trace ++ [e]) = writesOk trace + (if is_write_ok e then 1 else 0).
Proof.
  unfold writesOk, len. rewrite List.filter_app, length_app. simpl.
  destruct (is_write_ok e); simpl; lia.
Qed.

Lemma nonEmpty_perm l l' : l ≡ₚ l' -> len (nonEmpty l) = len (nonEmpty l').
Proof.
  intros Hp. unfold nonEmpty, len. f_equal.
  induction Hp as [|[? o] l1 l2 Hp IH|[? o] [? o'] l1|l1 l2 l3 Hp1 IH1 Hp2 IH2].
  - done.
  - simpl. destruct (_ >? 0); simpl; lia.
  - simpl. do 2 destruct (_ >? 0); simpl; lia.
  - lia.
Qed.

Lemma nonEmptyOps_range code operations :
  len (nonEmpty (GoMap.range code operations)) = nonEmptyOps operations.
Proof. apply nonEmpty_perm, range_perm. Qed.

Lemma pool_init_inv {cloud : Cloud} nworkers code operations (w : world cloud) :
  pool_inv (nonEmptyOps operations) nworkers (pool_init nworkers code operations w).
Proof.
  unfold pool_inv, pool_init, collected, remaining. simpl.
  rewrite nonEmptyOps_range, busy_replicate, length_replicate.
  repeat split; try lia.
  apply Forall_forall. intros x Hx%elem_of_replicate. by destruct Hx as [-> _].
Qed.

Lemma pool_step_inv {cloud : Cloud} cfg total nworkers a (s s' : pool cloud) :
  pool_inv total nworkers s -> pool_step cfg a s = Some s' ->
  pool_inv total nworkers s'.
Proof.
  destruct s as [pc0 ch inf ws wl].
  unfold pool_inv, collected, remaining. simpl.
  intros (Hch & Hcol & Htot & Hinf & Hbusy & Hlen & Hall) Hstep.
  destruct a as [|j|j|j]; simpl in Hstep.
  - destruct pc0 as [[|[name operation] rest]|i|]; try done.
    + injection Hstep as <-. simpl. done.
    + destruct (len (Ips operation) >? 0) eqn:E; [done|].
      injection Hstep as <-. simpl in *. rewrite E in Htot. done.
    + destruct (i <? inf) eqn:E; [done|]. apply Z.ltb_ge in E.
      injection Hstep as <-. simpl. repeat split; try done; lia.
  - destruct pc0 as [[|[name operation] rest]|i|]; try done.
    destruct (ws !! j) as [[|p]|] eqn:Hj; try done.
    destruct (len (Ips operation) >? 0) eqn:E; [|done].
    injection Hstep as <-. simpl in *. rewrite E in Htot.
    rewrite (busy_insert _ _ _ _ Hj). simpl.
    pose proof (busy_le (<[j := Busy (Execute cfg operation)]> ws)) as Hb.
    rewrite (busy_insert _ _ _ _ Hj), length_insert in Hb. simpl in Hb.
    unfold len in *. simpl in Htot. repeat split; try lia.
    + by rewrite length_insert.
    + apply Forall_insert; [done|]. apply Execute_returns.
  - destruct (ws !! j) as [[|[r|X c k]]|] eqn:Hj; try done.
    injection Hstep as <-. simpl.
    rewrite (busy_insert _ _ _ _ Hj). simpl.
    repeat split; try lia.
    + by rewrite length_insert.
    + apply Forall_insert; [done|].
      pose proof (Forall_lookup_1 _ _ _ _ Hall Hj) as Hk. apply Hk.
  - destruct pc0 as [rest|i|]; try done.
    destruct (ws !! j) as [[|[r|X c k]]|] eqn:Hj; try done.
    destruct (i <? inf) eqn:E; [|done]. apply Z.ltb_lt in E.
    injection Hstep as <-. simpl in *.
    rewrite (busy_insert _ _ _ _ Hj). simpl.
    pose proof (Forall_lookup_1 _ _ _ _ Hall Hj) as Hr. simpl in Hr.
    repeat split; try lia.
    + by rewrite length_insert.
    + by apply Forall_insert.
Qed.

Lemma pool_run_inv {cloud : Cloud} cfg total nworkers acts : forall (s s' : pool cloud),
  pool_inv total nworkers s -> pool_run cfg acts s = Some s' ->
  pool_inv total nworkers s'.
Proof.
  induction acts as [|a acts IH]; intros s s' Hinv Hrun; simpl in Hrun.
  - by injection Hrun as <-.
  - destruct (pool_step cfg a s) as [s1|] eqn:Hstep; [|done].
    eapply IH; [|done]. eapply pool_step_inv; eauto.
Qed.

Lemma busy_nonneg ws : 0 <= busy ws.
Proof. apply len_nonneg. Qed.

Lemma busy_lookup ws j p : ws !! j = Some (Busy p) -> 1 <= busy ws.
Proof.
  intros Hj. pose proof (busy_nonneg (<[j := Idle]> ws)) as H.
  rewrite (busy_insert _ _ _ _ Hj) in H. simpl in H. lia.
Qed.

(** Until an operation is handed over no call is made. *)
Lemma pool_step_idle {cloud : Cloud} cfg total nworkers a (s s' : pool cloud) w0 :
  pool_inv total nworkers s -> pool_step cfg a s = Some s' ->
  (inFlight s = 0 -> wld s = w0) -> inFlight s' = 0 -> wld s' = w0.
Proof.
  destruct s as [pc0 ch inf ws wl].
  unfold pool_inv, collected. simpl.
  intros (Hch & Hcol & Htot & Hinf & Hbusy & Hlen & Hall) Hstep Hw.
  destruct a as [|j|j|j]; simpl in Hstep.
  - destruct pc0 as [[|[name operation] rest]|i|]; try done.
    + by injection Hstep as <-.
    + destruct (len (Ips operation) >? 0); [done|]. by injection Hstep as <-.
    + destruct (i <? inf); [done|]. by injection Hstep as <-.
  - destruct pc0 as [[|[name operation] rest]|i|]; try done.
    destruct (ws !! j) as [[|p]|]; try done.
    destruct (len (Ips operation) >? 0); [|done].
    injection Hstep as <-. simpl. lia.
  - destruct (ws !! j) as [[|[r|X c k]]|] eqn:Hj; try done.
    apply busy_lookup in Hj.
    injection Hstep as <-. simpl. intros ->.
    destruct pc0; lia.
  - destruct pc0 as [rest|i|]; try done.
    destruct (ws !! j) as [[|[r|X c k]]|]; try done.
    destruct (i <? inf); [|done]. by injection Hstep as <-.
Qed.

Lemma pool_run_idle {cloud : Cloud} cfg total nworkers acts w0 : forall (s s' : pool cloud),
  pool_inv total nworkers s -> pool_run cfg acts s = Some s' ->
  (inFlight s = 0 -> wld s = w0) -> inFlight s' = 0 -> wld s' = w0.
Proof.
  induction acts as [|a acts IH]; intros s s' Hinv Hrun Hw; simpl in Hrun.
  - by injection Hrun as <-.
  - destruct (pool_step cfg a s) as [s1|] eqn:Hstep; [|done].
    eapply IH; [|done|].
    + eapply pool_step_inv; eauto.
    + eapply pool_step_idle; eauto.
Qed.

Lemma pool_init_tally {cloud : Cloud} nworkers code operations (w : world cloud) :
  pool_tally (writesOk (w_trace w)) (pool_init nworkers code operations w).
Proof.
  exists (replicate nworkers 0). simpl. split.
  - induction nworkers as [|n IH]; simpl; by constructor.
  - assert (E : sumZ (replicate nworkers 0) = 0).
    { induction nworkers as [|n IH]; [done|]. exact IH. }
    rewrite E. lia.
Qed.

Lemma pool_step_tally {cloud : Cloud} cfg base a (s s' : pool cloud) :
  pool_tally base s -> pool_step cfg a s = Some s' -> pool_tally base s'.
Proof.
  destruct s as [pc0 ch inf ws wl]. unfold pool_tally. simpl.
  intros (earned & Hall & Hsum) Hstep.
  destruct a as [|j|j|j]; cbn [pool_step pc workers changes inFlight wld] in Hstep.
  - destruct pc0 as [[|[name operation] rest]|i|]; try done.
    + injection Hstep as <-. by exists earned.
    + destruct (len (Ips operation) >? 0); [done|].
      injection Hstep as <-. by exists earned.
    + destruct (i <? inf); [done|]. injection Hstep as <-. by exists earned.
  - destruct pc0 as [[|[name operation] rest]|i|]; try done.
    destruct (ws !! j) as [[|p]|] eqn:Hj; try done.
    destruct (len (Ips operation) >? 0); [|done].
    injection Hstep as <-. simpl.
    destruct (Forall2_lookup_l _ _ _ _ _ Hall Hj) as (e & He & Hearn).
    simpl in Hearn. subst e.
    exists (<[j := 0]> earned). split.
    + apply Forall2_insert; [done|]. apply Execute_tally.
    + rewrite (sumZ_insert _ _ _ _ He). lia.
  - destruct (ws !! j) as [[|[r|X c k]]|] eqn:Hj; try done.
    apply (inj Some) in Hstep. subst s'. cbn [workers changes wld].
    destruct (Forall2_lookup_l _ _ _ _ _ Hall Hj) as (e & He & Hearn).
    simpl in Hearn. specialize (Hearn (perform c wl).1).
    eexists (<[j := _]> earned). split.
    + apply Forall2_insert; [done|]. exact Hearn.
    + rewrite (sumZ_insert _ _ _ _ He), perform_trace, writesOk_snoc. lia.
  - destruct pc0 as [rest|i|]; try done.
    destruct (ws !! j) as [[|[r|X c k]]|] eqn:Hj; try done.
    destruct (i <? inf); [|done]. injection Hstep as <-. simpl.
    destruct (Forall2_lookup_l _ _ _ _ _ Hall Hj) as (e & He & Hearn).
    simpl in Hearn. subst e.
    exists (<[j := 0]> earned). split.
    + by apply Forall2_insert.
    + rewrite (sumZ_insert _ _ _ _ He). lia.
Qed.

Lemma pool_run_tally {cloud : Cloud} cfg base acts : forall (s s' : pool cloud),
  pool_tally base s -> pool_run cfg acts s = Some s' -> pool_tally base s'.
Proof.
  induction acts as [|a acts IH]; intros s s' Hinv Hrun; simpl in Hrun.
  - by injection Hrun as <-.
  - destruct (pool_step cfg a s) as [s1|] eqn:Hstep; [|done].
    eapply IH; [|done]. eapply pool_step_tally; eauto.
Qed.

Lemma earned_idle ws earned :
  Forall2 earns ws earned -> busy ws = 0 -> sumZ earned = 0.
Proof.
  induction 1 as [|w e ws earned Hw Hall IH]; [done|].
  pose proof (busy_nonneg ws) as Hb. unfold busy, len in *.
  destruct w; simpl in *; [|lia]. intros H0. subst e. rewrite IH; lia.
Qed.

(** What a call of [ExecuteParallel] that returns has done: it counted
    the successful writes made meanwhile, one at most for every operation
    with addresses, and the workers were enough to hold these operations
    all at once. *)
Lemma ExecuteParallel_spec {cloud : Cloud} cfg nworkers code acts operations
    (w w' : world cloud) v :
  ExecuteParallel cfg nworkers code acts operations w = Some (v, w') ->
  0 <= v <= nonEmptyOps operations /\
  nonEmptyOps operations <= Z.of_nat nworkers /\
  v = writesOk (w_trace w') - writesOk (w_trace w) /\
  (nonEmptyOps operations = 0 -> w' = w).
Proof.
  unfold ExecuteParallel.
  destruct (pool_run cfg acts _) as [s|] eqn:Hrun; [|done].
  destruct (pc s) eqn:Hpc; try done. intros [= <- <-].
  pose proof (pool_run_inv cfg _ _ acts _ _
                (pool_init_inv nworkers code operations w) Hrun) as Hinv.
  pose proof (pool_run_tally cfg _ acts _ _
                (pool_init_tally nworkers code operations w) Hrun) as Htally.
  pose proof (pool_run_idle cfg _ _ acts w _ _
                (pool_init_inv nworkers code operations w) Hrun (fun _ => eq_refl))
    as Hidle.
  destruct Hinv as (Hch & Hcol & Htot & Hinf & Hbusy & Hlen & Hall).
  unfold collected, remaining in *. rewrite Hpc in *. simpl in Htot.
  destruct Htally as (earned & Hearn & Hsum).
  rewrite (earned_idle _ _ Hearn) in Hsum by lia.
  unfold len in Htot. simpl in Htot.
  repeat split; try lia. intros H0. apply Hidle. lia.
Qed.

(** *** A run to the return, when the workers are enough *)

Lemma pool_run_app {cloud : Cloud} cfg acts1 acts2 (s : pool cloud) :
  pool_run cfg (acts1 ++ acts2) s
  = match pool_run cfg acts1 s with
    | Some s' => pool_run cfg acts2 s'
    | None => None
    end.
Proof.
  revert s. induction acts1 as [|a acts1 IH]; intros s; simpl; [done|].
  destruct (pool_step cfg a s); [apply IH|done].
Qed.

Lemma submit_run {cloud : Cloud} cfg rest : forall (pre : list worker) m ch inf (w : world cloud),
  len (nonEmpty rest) <= Z.of_nat m ->
  pool_run cfg (submitActs (length pre) rest)
    (mkPool (Submitting rest) ch inf (pre ++ replicate m Idle) w)
  = Some (mkPool (Submitting []) ch (inf + len (nonEmpty rest))
            (pre ++ ((fun e => Busy (Execute cfg e.2)) <$> nonEmpty rest)
                 ++ replicate (m - length (nonEmpty rest)) Idle) w).
Proof.
  induction rest as [|[name operation] rest IH]; intros pre m ch inf w Hm.
  - simpl. unfold len. simpl. rewrite Z.add_0_r, Nat.sub_0_r. done.
  - simpl in *. destruct (len (Ips operation) >? 0) eqn:E.
    + unfold len in Hm. simpl in Hm. destruct m as [|m]; [lia|].
      simpl. rewrite E.
      rewrite lookup_app_r by lia. rewrite Nat.sub_diag. simpl.
      rewrite insert_app_r_alt by lia. rewrite Nat.sub_diag. simpl.
      rewrite (cons_middle _ pre), app_assoc.
      replace (S (length pre)) with (length (pre ++ [Busy (Execute cfg operation)]))
        by (rewrite length_app; simpl; lia).
      rewrite IH by (unfold len; lia).
      unfold len. simpl. rewrite <- app_assoc. simpl.
      do 2 f_equal. lia.
    + simpl. rewrite E. by apply IH.
Qed.

Lemma drive_run {cloud : Cloud} cfg j p : forall (pre post : list worker) i ch inf (w : world cloud),
  length pre = j ->
  pool_run cfg (drive j p w)
    (mkPool (Collecting i) ch inf (pre ++ Busy p :: post) w)
  = Some (mkPool (Collecting i) ch inf (pre ++ Busy (Ret (run p w).1) :: post)
            (run p w).2).
Proof.
  induction p as [r|X c k IH]; intros pre post i ch inf w Hj; [done|].
  cbn [drive pool_run pool_step workers wld pc changes inFlight].
  rewrite lookup_app_r by lia. rewrite Hj, Nat.sub_diag. cbn [lookup list_lookup].
  cbv zeta. rewrite insert_app_r_alt by lia. rewrite Hj, Nat.sub_diag.
  cbn [insert list_insert]. rewrite IH by done. by rewrite run_vis.
Qed.

Lemma collect_run {cloud : Cloud} cfg ps : forall (pre post : list worker) i ch inf (w : world cloud),
  i + len ps <= inf ->
  pool_run cfg (collectActs (length pre) ps w)
    (mkPool (Collecting i) ch inf (pre ++ (Busy <$> ps) ++ post) w)
  = Some (mkPool (Collecting (i + len ps)) (ch + (runAll ps w).1) inf
            (pre ++ replicate (length ps) Idle ++ post) (runAll ps w).2).
Proof.
  induction ps as [|p ps IH]; intros pre post i ch inf w Hi.
  - simpl. unfold len. simpl. by rewrite !Z.add_0_r.
  - cbn [collectActs fmap list_fmap app]. rewrite pool_run_app.
    rewrite drive_run by done.
    cbn [pool_run pool_step workers wld pc changes inFlight].
    rewrite lookup_app_r by lia. rewrite Nat.sub_diag. cbn [lookup list_lookup].
    unfold len in Hi. simpl in Hi.
    assert (Hlt : (i <? inf) = true) by (apply Z.ltb_lt; lia). rewrite Hlt.
    rewrite insert_app_r_alt by lia. rewrite Nat.sub_diag. cbn [insert list_insert].
    rewrite (cons_middle _ pre), app_assoc.
    replace (S (length pre)) with (length (pre ++ [Idle]))
      by (rewrite length_app; simpl; lia).
    rewrite IH by (unfold len; lia).
    cbn [runAll fst snd replicate length]. rewrite <- app_assoc. simpl.
    replace (i + 1 + len ps) with (i + len (p :: ps)) by (unfold len; simpl; lia).
    by rewrite Z.add_assoc.
Qed.

(** With at least as many workers as operations with addresses,
    [ExecuteParallel] can return: one interleaving that ends with the
    return runs the operations one after the other in range order. *)
Lemma ExecuteParallel_returns {cloud : Cloud} cfg nworkers code operations (w : world cloud) :
  nonEmptyOps operations <= Z.of_nat nworkers ->
  let entries := GoMap.range code operations in
  ExecuteParallel cfg nworkers code (sequentialActs cfg entries w) operations w
  = Some (runAll ((fun e => Execute cfg e.2) <$> nonEmpty entries) w).
Proof.
  intros Hn entries. unfold ExecuteParallel, pool_init, sequentialActs.
  fold entries. rewrite <- (nonEmptyOps_range code) in Hn. fold entries in Hn.
  rewrite pool_run_app.
  pose proof (submit_run cfg entries [] nworkers 0 0 w Hn) as Hs.
  cbn [length app] in Hs. rewrite Hs. clear Hs.
  cbn [pool_run pool_step pc changes inFlight workers wld].
  rewrite pool_run_app.
  pose proof (collect_run cfg ((fun e => Execute cfg e.2) <$> nonEmpty entries) []
                (replicate (nworkers - length (nonEmpty entries)) Idle)
                0 0 (0 + len (nonEmpty entries)) w) as Hc.
  rewrite <- list_fmap_compose in Hc. unfold compose in Hc. cbn [length app] in Hc.
  rewrite Hc by (unfold len; rewrite length_fmap; lia). clear Hc.
  cbn [pool_run pool_step pc changes inFlight workers wld].
  assert (E : (0 + len ((fun e => Execute cfg e.2) <$> nonEmpty entries)
               <? 0 + len (nonEmpty entries)) = false).
  { apply Z.ltb_ge. unfold len. rewrite length_fmap. lia. }
  rewrite E. cbn [pc changes wld]. rewrite Z.add_0_l.
  by destruct (runAll _ w).
Qed.

(** With fewer workers the caller waits at [in <- operation] for a worker
    that waits at [out <-]: no interleaving ends with the return. *)
Lemma ExecuteParallel_blocks {cloud : Cloud} cfg nworkers code acts operations
    (w : world cloud) :
  Z.of_nat nworkers < nonEmptyOps operations ->
  ExecuteParallel cfg nworkers code acts operations w = None.
Proof.
  intros Hn. destruct (ExecuteParallel _ _ _ _ _ _) as [[v w']|] eqn:E; [|done].
  apply ExecuteParallel_spec in E as (_ & Hle & _). lia.
Qed.

(** ** Spare addresses *)

Lemma spareInit_lookup_acc vips (acc : gmap string bool) ip :
  foldl (fun used ip => <[ip := false]> used) acc vips !! ip
  = if bool_decide (ip ∈ vips) then Some false else acc !! ip.
Proof.
  revert acc. induction vips as [|x vips IH]; intros acc; simpl; [done|].
  rewrite IH. destruct (decide (ip ∈ vips)) as [Hin|Hnin].
  - rewrite !bool_decide_eq_true_2; [done|by right|done].
  - rewrite (bool_decide_eq_false_2 (ip ∈ vips)) by done.
    destruct (decide (ip = x)) as [->|Hne].
    + rewrite bool_decide_eq_true_2 by left. apply lookup_insert_eq.
    + rewrite bool_decide_eq_false_2.
      * by rewrite lookup_insert_ne.
      * intros [?|?]%elem_of_cons; done.
Qed.

Lemma spareInit_lookup vips ip :
  spareInit vips !! ip = if bool_decide (ip ∈ vips) then Some false else None.
Proof. unfold spareInit. by rewrite spareInit_lookup_acc, lookup_empty. Qed.

Lemma spareMark_lookup used ips ip :
  spareMark used ips !! ip
  = (fun b : bool => b || bool_decide (ip ∈ ips)) <$> used !! ip.
Proof.
  unfold spareMark. revert used. induction ips as [|x ips IH]; intros used; simpl.
  - destruct (used !! ip) as [b|]; simpl; [|done]. by rewrite orb_false_r.
  - rewrite IH. destruct (decide (ip = x)) as [->|Hne].
    + rewrite (bool_decide_eq_true_2 (x ∈ x :: ips)) by left.
      destruct (used !! x) as [b|] eqn:Hx.
      * rewrite lookup_insert_eq. simpl. by rewrite orb_true_r.
      * by rewrite Hx.
    + assert (E : bool_decide (ip ∈ x :: ips) = bool_decide (ip ∈ ips)).
      { apply bool_decide_ext. rewrite elem_of_cons. naive_solver. }
      rewrite E. destruct (used !! x); [|done]. by rewrite lookup_insert_ne.
Qed.

Lemma spareMark_app used ips1 ips2 :
  spareMark (spareMark used ips1) ips2 = spareMark used (ips1 ++ ips2).
Proof. unfold spareMark. by rewrite foldl_app. Qed.

Lemma spareMark_all (l : list (string * GceInstance)) used :
  foldl (fun used '(_, instance) => spareMark used (AliasIps instance)) used l
  = spareMark used (concat ((fun p => AliasIps p.2) <$> l)).
Proof.
  revert used. induction l as [|[name instance] l IH]; intros used; simpl; [done|].
  rewrite IH. apply spareMark_app.
Qed.

Lemma spareCollect (l : list (string * bool)) acc :
  foldl (fun spare '(ip, inuse) => if inuse : bool then spare else spare ++ [ip]) acc l
  = acc ++ (List.filter (fun p => negb p.2) l).*1.
Proof.
  revert acc. induction l as [|[ip inuse] l IH]; intros acc; simpl.
  - by rewrite app_nil_r.
  - rewrite IH. destruct inuse; simpl; [done|]. by rewrite <- app_assoc.
Qed.

Lemma assigned_range code instances ip :
  ip ∈ concat ((fun p => AliasIps p.2) <$> GoMap.range code instances)
  <-> assigned instances ip.
Proof.
  rewrite list_elem_of_In, in_concat. split.
  - intros (ips & Hips & Hip). apply list_elem_of_In in Hips, Hip.
    apply list_elem_of_fmap in Hips as ([name i] & -> & Hin).
    apply elem_of_range in Hin. by exists name, i.
  - intros (name & i & Hi & Hip). exists (AliasIps i).
    rewrite <- !list_elem_of_In. split; [|done].
    apply list_elem_of_fmap. exists (name, i). split; [done|]. by apply elem_of_range.
Qed.

(** The spare addresses are the addresses of the pool that no instance
    holds, each listed once. *)
Lemma GetSpareIps_spec sched cfg instances :
  NoDup (GetSpareIps sched cfg instances) /\
  (forall ip, ip ∈ GetSpareIps sched cfg instances
              <-> ip ∈ VIPs cfg /\ ~ assigned instances ip).
Proof.
  unfold GetSpareIps. rewrite spareMark_all, spareCollect. simpl.
  set (used := spareMark _ _).
  split.
  - assert (Hsub : sublist (List.filter (fun p => negb p.2)
                              (GoMap.range (sched RangeSpareUsed 0%nat) used)).*1
                           (GoMap.range (sched RangeSpareUsed 0%nat) used).*1).
    { generalize (GoMap.range (sched RangeSpareUsed 0%nat) used).
      induction l as [|[ip b] l IH]; simpl; [constructor|].
      destruct b; simpl; by constructor. }
    exact (sublist_NoDup _ _ (NoDup_fst_range _ _) Hsub).
  - intros ip.
    assert (Hused : used !! ip = Some false <-> ip ∈ VIPs cfg /\ ~ assigned instances ip).
    { unfold used. rewrite spareMark_lookup, spareInit_lookup.
      rewrite <- (assigned_range (sched RangeSpareInstances 0%nat)).
      set (held := concat _).
      destruct (decide (ip ∈ VIPs cfg)) as [Hv|Hv].
      - rewrite (bool_decide_eq_true_2 (ip ∈ VIPs cfg)) by done. simpl.
        destruct (decide (ip ∈ held)) as [Ha|Ha].
        + rewrite (bool_decide_eq_true_2 (ip ∈ held)) by done. naive_solver.
        + rewrite (bool_decide_eq_false_2 (ip ∈ held)) by done. naive_solver.
      - rewrite (bool_decide_eq_false_2 (ip ∈ VIPs cfg)) by done. simpl.
        naive_solver. }
    rewrite <- Hused. rewrite <- (elem_of_range (sched RangeSpareUsed 0%nat)).
    rewrite list_elem_of_fmap. split.
    + intros ([ip' b] & -> & Hin). apply list_elem_of_In, filter_In in Hin as [Hin Hb].
      simpl in *. apply negb_true_iff in Hb. subst b. by apply list_elem_of_In.
    + intros Hin. exists (ip, false). split; [done|].
      apply list_elem_of_In, filter_In. split; [by apply list_elem_of_In|done].
Qed.

(** ** The grow pass *)

Lemma minAliasIps_spec code instances operations :
  instances <> ∅ ->
  (exists name, is_Some (instances !! name) /\
     load instances operations name = minAliasIps code instances operations) /\
  (forall name, is_Some (instances !! name) ->
     minAliasIps code instances operations <= load instances operations name).
Proof.
  intros Hne. unfold minAliasIps.
  destruct (foldl_min_spec
              (fun '(name, instance) =>
                 len (AliasIps instance) + len (opIps operations name))
              (fun min '(name, instance) =>
                 let ips := len (AliasIps instance) + len (opIps operations name) in
                 if (min <? 0) || (ips <? min) then ips else min)
              (GoMap.range code instances)) as [([k i] & Hx & Hgx) Hmin].
  - by intros a [k v].
  - intros [k v] _. pose proof (len_nonneg (AliasIps v)).
    pose proof (len_nonneg (opIps operations k)). lia.
  - intros E. by apply range_nil_inv in E.
  - apply elem_of_range in Hx. split.
    + exists k. split; [by eexists|]. unfold load. by rewrite Hx.
    + intros name [i' Hi']. unfold load. rewrite Hi'.
      apply (Hmin (name, i')). by apply elem_of_range.
Qed.

(** With at least one instance, an iteration stages the address on an
    instance whose load is least. *)
Lemma allocStep_spec sched n instances operations ip :
  instances <> ∅ ->
  exists name, is_Some (instances !! name) /\
    allocStep sched n instances operations ip = stage operations name ip /\
    (forall name', is_Some (instances !! name') ->
       load instances operations name <= load instances operations name').
Proof.
  intros Hne. unfold allocStep, allocPick.
  destruct (minAliasIps_spec (sched RangeMinAliasIps n) instances operations Hne)
    as [(k & [i Hi] & Hk) Hmin].
  destruct (List.find _ _) as [[name instance]|] eqn:Hf.
  - apply find_range_Some in Hf as [Hname Ht]. apply Z.eqb_eq in Ht.
    exists name. split; [by eexists|]. split; [done|].
    intros name' Hname'. unfold load at 1. rewrite Hname. unfold count.
    rewrite Ht. by apply Hmin.
  - eapply find_range_None in Hf; [|exact Hi].
    apply Z.eqb_neq in Hf. unfold load in Hk. rewrite Hi in Hk. done.
Qed.

Lemma allocStep_cases sched n instances operations ip :
  allocStep sched n instances operations ip = operations \/
  exists name, allocStep sched n instances operations ip = stage operations name ip.
Proof.
  unfold allocStep. destruct (allocPick _ _ _ _) as [[name ?]|]; [|by left].
  right. by exists name.
Qed.

Lemma staged_stage operations name ip n x :
  staged (stage operations name ip) n x <->
  staged operations n x \/ (n = name /\ x = ip /\ is_Some (operations !! name)).
Proof.
  unfold stage, staged. destruct (operations !! name) as [o|] eqn:Ho.
  - destruct (decide (n = name)) as [->|Hne].
    + rewrite lookup_insert_eq. split.
      * intros (o' & [= <-] & Hin). simpl in Hin.
        apply elem_of_app in Hin as [Hin|Hin%list_elem_of_singleton].
        -- left. by exists o.
        -- right. by eauto.
      * intros [(o' & Ho' & Hin)|(_ & -> & _)].
        -- rewrite Ho in Ho'. injection Ho' as <-. eexists. split; [done|].
           simpl. apply elem_of_app. by left.
        -- eexists. split; [done|]. simpl. apply elem_of_app. right. by left.
    + rewrite lookup_insert_ne by done. split; [by left|].
      intros [H|(? & _)]; done.
  - split; [by left|]. intros [H|(_ & _ & [? ?])]; done.
Qed.

Lemma stage_lookup operations name ip n operation :
  stage operations name ip !! n = Some operation ->
  exists operation', operations !! n = Some operation' /\
    OpType operation = OpType operation' /\
    OpInstance operation = OpInstance operation' /\
    (Ips operation = Ips operation' \/
     (n = name /\ Ips operation = Ips operation' ++ [ip])).
Proof.
  unfold stage. destruct (operations !! name) as [o|] eqn:Ho.
  - destruct (decide (n = name)) as [->|Hne].
    + rewrite lookup_insert_eq. intros [= <-]. exists o. simpl. by eauto 10.
    + rewrite lookup_insert_ne by done. intros H. exists operation. by eauto 10.
  - intros H. exists operation. by eauto 10.
Qed.

Lemma stage_is_Some operations name ip n :
  is_Some (stage operations name ip !! n) <-> is_Some (operations !! n).
Proof.
  unfold stage. destruct (operations !! name) as [o|] eqn:Ho; [|done].
  destruct (decide (n = name)) as [->|Hne].
  - rewrite lookup_insert_eq, Ho. split; by eauto.
  - by rewrite lookup_insert_ne.
Qed.

Lemma stage_inv instances done operations name ip :
  alloc_inv instances done operations -> ip ∉ done ->
  alloc_inv instances (done ++ [ip]) (stage operations name ip).
Proof.
  intros (Hdom & Hadd & Hdone & Huniq & Hnd) Hip.
  split; [|split; [|split; [|split]]].
  - intros n. by rewrite stage_is_Some.
  - intros n o Ho. apply stage_lookup in Ho as (o' & Ho' & -> & -> & _). eauto.
  - intros n x Hs. apply staged_stage in Hs as [Hs|(_ & -> & _)].
    + apply elem_of_app. left. eauto.
    + apply elem_of_app. right. by left.
  - intros n1 n2 x H1 H2.
    apply staged_stage in H1 as [H1|(E1 & E1' & _)];
      apply staged_stage in H2 as [H2|(E2 & E2' & _)]; subst; eauto.
    + exfalso. eauto.
    + exfalso. eauto.
  - intros n o Ho. apply stage_lookup in Ho as (o' & Ho' & _ & _ & [->|[-> ->]]).
    + eauto.
    + apply NoDup_app. split; [eauto|]. split; [|apply NoDup_singleton].
      intros x Hx ->%list_elem_of_singleton. apply Hip. apply (Hdone name).
      by exists o'.
Qed.

Lemma alloc_inv_weaken instances done ip operations :
  alloc_inv instances done operations -> alloc_inv instances (done ++ [ip]) operations.
Proof.
  intros (Hdom & Hadd & Hdone & Huniq & Hnd).
  split; [done|]. split; [done|]. split; [|done].
  intros name x Hs. apply elem_of_app. left. by eapply Hdone.
Qed.

Lemma allocInit_inv code instances : alloc_inv instances [] (allocInit code instances).
Proof.
  assert (Hst : forall name ip, ~ staged (allocInit code instances) name ip).
  { intros name ip (o & Ho & Hin). rewrite allocInit_lookup in Ho.
    destruct (instances !! name); [|done]. injection Ho as <-.
    by apply elem_of_nil in Hin. }
  split; [|split; [|split; [|split]]].
  - intros name. rewrite allocInit_lookup. by rewrite fmap_is_Some.
  - intros name o. rewrite allocInit_lookup.
    destruct (instances !! name); [|done]. by intros [= <-].
  - intros name ip H. by apply Hst in H.
  - intros n1 n2 ip H. by apply Hst in H.
  - intros name o. rewrite allocInit_lookup.
    destruct (instances !! name); [|done]. intros [= <-]. constructor.
Qed.

Lemma allocLoop_inv sched instances spare : forall n done operations,
  alloc_inv instances done operations -> NoDup spare ->
  (forall ip, ip ∈ spare -> ip ∉ done) ->
  alloc_inv instances (done ++ spare) (allocLoop sched n instances spare operations).
Proof.
  induction spare as [|ip spare IH]; intros n done operations Hinv Hnd Hfresh; simpl.
  - by rewrite app_nil_r.
  - apply NoDup_cons in Hnd as [Hip Hnd].
    replace (done ++ ip :: spare) with ((done ++ [ip]) ++ spare)
      by (by rewrite <- app_assoc).
    apply IH; [|done|].
    + destruct (allocStep_cases sched n instances operations ip) as [->|[name ->]].
      * by apply alloc_inv_weaken.
      * apply stage_inv; [done|]. apply Hfresh. left.
    + intros x Hx Hd. apply elem_of_app in Hd as [Hd|Hd].
      * eapply Hfresh; [|exact Hd]. by right.
      * apply list_elem_of_singleton in Hd. by subst.
Qed.

Lemma staged_allocStep sched n instances operations ip name x :
  staged operations name x -> staged (allocStep sched n instances operations ip) name x.
Proof.
  intros H. destruct (allocStep_cases sched n instances operations ip) as [->|[k ->]];
    [done|]. apply staged_stage. by left.
Qed.

Lemma staged_allocLoop sched instances spare : forall n operations name x,
  staged operations name x -> staged (allocLoop sched n instances spare operations) name x.
Proof.
  induction spare as [|ip spare IH]; intros n operations name x H; simpl; [done|].
  apply IH. by apply staged_allocStep.
Qed.

Lemma allocLoop_app sched instances pre : forall n post operations,
  allocLoop sched n instances (pre ++ post) operations
  = allocLoop sched (n + length pre) instances post
      (allocLoop sched n instances pre operations).
Proof.
  induction pre as [|ip pre IH]; intros n post operations; simpl.
  - by rewrite Nat.add_0_r.
  - rewrite IH. f_equal. lia.
Qed.

Lemma AllocateIps_operations_inv sched cfg instances :
  alloc_inv instances (GetSpareIps sched cfg instances)
    (AllocateIps_operations sched instances (GetSpareIps sched cfg instances)).
Proof.
  unfold AllocateIps_operations.
  apply (allocLoop_inv sched instances _ 0%nat []).
  - apply allocInit_inv.
  - apply GetSpareIps_spec.
  - intros ip _ H. by apply elem_of_nil in H.
Qed.

(** C2: in the operations a grow pass hands to the engine an address is
    staged on one node at most; it is then a spare address, and it stands
    once in the list of that node. *)
Theorem C2_grow_stages_each_address_once (sched : Schedule) (cfg : Config)
    (instances : gmap string GceInstance) (n1 n2 ip : string) :
  let operations :=
    AllocateIps_operations sched instances (GetSpareIps sched cfg instances) in
  staged operations n1 ip -> staged operations n2 ip ->
  n1 = n2 /\
  ip ∈ GetSpareIps sched cfg instances /\
  (forall operation, operations !! n1 = Some operation -> NoDup (Ips operation)).
Proof.
  intros operations H1 H2.
  destruct (AllocateIps_operations_inv sched cfg instances)
    as (_ & _ & Hdone & Huniq & Hnd).
  split; [by eapply Huniq|]. split; [by eapply Hdone|].
  intros operation Ho. by eapply Hnd.
Qed.

Lemma applyAdds_staged instances done operations name ip :
  alloc_inv instances done operations ->
  staged operations name ip -> assigned (applyAdds instances operations) ip.
Proof.
  intros (Hdom & _) (o & Ho & Hip).
  destruct (proj2 (Hdom name) (mk_is_Some _ _ Ho)) as [i Hi].
  unfold applyAdds. eexists name, _. rewrite map_lookup_imap, Hi. simpl.
  split; [done|]. simpl. apply elem_of_app. right. unfold opIps. by rewrite Ho.
Qed.

(** C3: with at least one instance, a grow pass has these spare
    addresses: the addresses of the pool that no instance holds.  It
    stages every one of them in the Add operation of some instance, so
    that no address is spare once the staged addresses are added; and the
    instance an address is staged on has, at the moment of the
    assignment, the least load (addresses held plus addresses staged
    before in this pass) of all instances. *)
Theorem C3_grow_stages_every_spare (sched : Schedule) (cfg : Config)
    (instances : gmap string GceInstance) :
  instances <> ∅ ->
  let spare := GetSpareIps sched cfg instances in
  let operations := AllocateIps_operations sched instances spare in
  (forall ip, ip ∈ spare <-> ip ∈ VIPs cfg /\ ~ assigned instances ip) /\
  (forall ip, ip ∈ spare -> exists name, staged operations name ip) /\
  (forall name operation, operations !! name = Some operation ->
     OpType operation = Add /\ instances !! name = Some (OpInstance operation)) /\
  (forall sched', GetSpareIps sched' cfg (applyAdds instances operations) = []) /\
  (forall pre ip post, spare = pre ++ ip :: post ->
     let before := allocLoop sched 0 instances pre
                     (allocInit (sched RangeAllocInit 0%nat) instances) in
     exists name, staged operations name ip /\
       forall name', is_Some (instances !! name') ->
         load instances before name <= load instances before name').
Proof.
  intros Hne spare operations.
  pose proof (AllocateIps_operations_inv sched cfg instances) as Hinv.
  fold spare in Hinv. fold operations in Hinv.
  destruct (GetSpareIps_spec sched cfg instances) as [Hnd Hspare].
  fold spare in Hnd, Hspare.
  assert (Hmoment : forall pre ip post, spare = pre ++ ip :: post ->
    let before := allocLoop sched 0 instances pre
                    (allocInit (sched RangeAllocInit 0%nat) instances) in
    exists name, staged operations name ip /\
      forall name', is_Some (instances !! name') ->
        load instances before name <= load instances before name').
  { intros pre ip post Hsplit before.
    assert (Hbefore : alloc_inv instances ([] ++ pre) before).
    { apply allocLoop_inv; [apply allocInit_inv| |].
      - rewrite Hsplit in Hnd. by apply NoDup_app in Hnd as [? _].
      - intros x _ H. by apply elem_of_nil in H. }
    destruct (allocStep_spec sched (length pre) instances before ip Hne)
      as (name & Hname & Hstep & Hmin).
    exists name. split; [|done].
    unfold operations, AllocateIps_operations. rewrite Hsplit, allocLoop_app.
    fold before. simpl. apply staged_allocLoop. rewrite Hstep.
    apply staged_stage. right. split; [done|]. split; [done|].
    by apply (proj1 Hbefore). }
  split; [done|]. split; [|split; [|split; [|done]]].
  - intros ip Hip. apply list_elem_of_split in Hip as (pre & post & Hsplit).
    destruct (Hmoment pre ip post Hsplit) as (name & Hst & _). by exists name.
  - apply Hinv.
  - intros sched'.
    destruct (GetSpareIps_spec sched' cfg (applyAdds instances operations))
      as [_ Hleft].
    destruct (GetSpareIps sched' cfg (applyAdds instances operations))
      as [|ip rest]; [done|]. exfalso.
    destruct (proj1 (Hleft ip) ltac:(left)) as [Hv Hna].
    assert (Hip : ip ∈ spare).
    { apply Hspare. split; [done|]. intros (name & i & Hi & Hin). apply Hna.
      unfold applyAdds. eexists name, _. rewrite map_lookup_imap, Hi. simpl.
      split; [done|]. simpl. apply elem_of_app. by left. }
    apply list_elem_of_split in Hip as (pre & post & Hsplit).
    destruct (Hmoment pre ip post Hsplit) as (name & Hst & _).
    apply Hna. by eapply applyAdds_staged.
Qed.

(** ** The passes as a whole *)

Lemma reads_only_run {cloud : Cloud} {R} (p : prog R) (w : world cloud) :
  reads_only p ->
  w_state (run p w).2 = w_state w /\
  writesOk (w_trace (run p w).2) = writesOk (w_trace w).
Proof.
  revert w. induction p as [r|X c k IH]; intros w Hp; [done|].
  destruct Hp as [Hc Hk]. rewrite run_vis.
  destruct (IH (perform c w).1 (perform c w).2 (Hk _)) as [-> ->].
  rewrite perform_trace, writesOk_snoc.
  destruct c; try done; split; try done; simpl; lia.
Qed.

Lemma fetchInstances_reads names : forall instances,
  reads_only (fetchInstances names instances).
Proof.
  induction names as [|name names IH]; intros instances; [done|].
  cbn. split; [done|]. intros [i|]; apply IH.
Qed.

Lemma GetInstancesFromMIG_reads : reads_only GetInstancesFromMIG.
Proof.
  unfold GetInstancesFromMIG. cbn. split; [done|].
  intros [names|]; [apply fetchInstances_reads|done].
Qed.

Lemma ExecuteParallel_nothing {cloud : Cloud} cfg nworkers code (w : world cloud) :
  ExecuteParallel cfg nworkers code [Main; Main] ∅ w = Some (0, w).
Proof. unfold ExecuteParallel, pool_init. by rewrite range_empty. Qed.

Lemma nonEmptyOps_empty : nonEmptyOps ∅ = 0.
Proof. unfold nonEmptyOps. by rewrite map_to_list_empty. Qed.

(** Balanced counts are their own targets, with any fuel. *)
Lemma robinHood_balanced fuel sched (target : gmap string Z) :
  nonneg target -> balanced target -> robinHood fuel sched target = Some target.
Proof.
  intros Hnn Hb. unfold robinHood.
  assert (Hgap : (maxValue (sched RangeMaxValue 0%nat) target
                  - minValue (sched RangeMinValue 0%nat) target >? 1) = false).
  { rewrite Z.gtb_ltb. apply Z.ltb_ge. destruct (decide (target = ∅)) as [->|Hne].
    - by rewrite minValue_empty, maxValue_empty.
    - destruct (minValue_spec (sched RangeMinValue 0%nat) target Hnn Hne) as [[k2 Hk2] _].
      destruct (maxValue_spec (sched RangeMaxValue 0%nat) target Hnn Hne) as [[k1 Hk1] _].
      exact (Hb _ _ Hk1 _ _ Hk2). }
  destruct fuel; simpl; by rewrite Hgap.
Qed.

(** Targets equal to the counts ask for no removal. *)
Lemma ReduceIps_operations_counts code instances :
  ReduceIps_operations code instances (count <$> instances) = Some ∅.
Proof.
  unfold ReduceIps_operations.
  assert (H : forall l, (forall name i, (name, i) ∈ l -> instances !! name = Some i) ->
    foldl (reduceGen (count <$> instances)) (Some ∅) l = Some ∅).
  { induction l as [|[name i] l IH]; intros Hl; [done|]. simpl.
    unfold GoMap.get. rewrite lookup_fmap, (Hl name i) by left. simpl.
    unfold count. rewrite Z.sub_diag. simpl. apply IH.
    intros n j Hin. apply Hl. by right. }
  apply H. intros name i Hin. by apply elem_of_range in Hin.
Qed.

(** C6: when the counts of the instances fetched differ by at most one,
    the targets of a shrink pass are these counts, no Remove operation is
    made, and ReduceIps returns 0 (it can return, and whenever it returns
    the value is 0) after no call but the fetch of the snapshot. *)
Theorem C6_shrink_idempotent_when_balanced {cloud : Cloud} (fuel : nat) (sched : Schedule)
    (cfg : Config) (w w1 : world cloud) (instances : gmap string GceInstance)
    (err : bool) :
  run GetInstancesFromMIG w = ((instances, err), w1) ->
  balanced (count <$> instances) ->
  ReduceIps_target fuel sched instances = Some (count <$> instances) /\
  ReduceIps_operations (sched RangeReduceGen 0%nat) instances (count <$> instances)
    = Some ∅ /\
  ReduceIps fuel sched [Main; Main] cfg w = Some (0, w1) /\
  (forall acts r, ReduceIps fuel sched acts cfg w = Some r -> r = (0, w1)) /\
  w_state w1 = w_state w.
Proof.
  intros Hrun Hb.
  assert (Ht : ReduceIps_target fuel sched instances = Some (count <$> instances)).
  { unfold ReduceIps_target. rewrite reduceInit_counts.
    apply robinHood_balanced; [apply counts_nonneg|done]. }
  pose proof (ReduceIps_operations_counts (sched RangeReduceGen 0%nat) instances) as Ho.
  split; [done|]. split; [done|].
  unfold ReduceIps. rewrite Hrun, Ht, Ho.
  split; [|split].
  - destruct err; [done|]. destruct (GoMap.len instances =? 0); [done|].
    apply ExecuteParallel_nothing.
  - intros acts r. destruct err; [by intros [= <-]|].
    destruct (GoMap.len instances =? 0); [by intros [= <-]|].
    destruct r as [v w']. intros H.
    apply ExecuteParallel_spec in H as (Hv & _ & _ & Hw).
    rewrite nonEmptyOps_empty in Hv, Hw. rewrite Hw by done.
    f_equal. lia.
  - pose proof (reads_only_run GetInstancesFromMIG w GetInstancesFromMIG_reads) as [H _].
    by rewrite Hrun in H.
Qed.

(** C9: when no instance is fetched ReduceIps returns 0 at once: no
    target is computed and no operation made, whatever the fuel and the
    interleaving.  (On the empty map minValue is -1 and maxValue is 0.) *)
Theorem C9_shrink_without_instances {cloud : Cloud} (fuel : nat) (sched : Schedule)
    (acts : list action) (cfg : Config) (w w1 : world cloud) (err : bool) :
  run GetInstancesFromMIG w = ((∅, err), w1) ->
  ReduceIps fuel sched acts cfg w = Some (0, w1) /\
  w_state w1 = w_state w /\
  writesOk (w_trace w1) = writesOk (w_trace w) /\
  (forall code, minValue code ∅ = -1 /\ maxValue code ∅ = 0).
Proof.
  intros Hrun. split; [|split; [|split]].
  - unfold ReduceIps. rewrite Hrun. by destruct err.
  - pose proof (reads_only_run GetInstancesFromMIG w GetInstancesFromMIG_reads) as [H _].
    by rewrite Hrun in H.
  - pose proof (reads_only_run GetInstancesFromMIG w GetInstancesFromMIG_reads) as [_ H].
    by rewrite Hrun in H.
  - intros code. by rewrite minValue_empty, maxValue_empty.
Qed.

(** C10: Execute returns 0 or 1; the count ExecuteParallel returns is at
    least 0 and at most the number of operations with addresses; and an
    operation without addresses is passed over by the first loop: it is
    not handed to a worker and nothing else changes. *)
Theorem C10_change_count_bounds {cloud : Cloud} (cfg : GcpConfig.t) :
  (forall operation (w : world cloud),
     (run (Execute cfg operation) w).1 = 0 \/ (run (Execute cfg operation) w).1 = 1) /\
  (forall nworkers code acts operations (w : world cloud) v,
     fst <$> ExecuteParallel cfg nworkers code acts operations w = Some v ->
     0 <= v <= nonEmptyOps operations) /\
  (forall (s : pool cloud) name operation rest,
     pc s = Submitting ((name, operation) :: rest) -> Ips operation = [] ->
     (forall j, pool_step cfg (Send j) s = None) /\
     pool_step cfg Main s
     = Some (mkPool (Submitting rest) (changes s) (inFlight s) (workers s) (wld s))).
Proof.
  split; [|split].
  - intros operation w. apply (returns_only_run (fun r => r = 0 \/ r = 1)).
    apply Execute_returns.
  - intros nworkers code acts operations w v H.
    destruct (ExecuteParallel _ _ _ _ _ _) as [[v' w']|] eqn:E; [|done].
    injection H as <-. by apply ExecuteParallel_spec in E as (Hv & _).
  - intros s name operation rest Hpc Hips. split.
    + intros j. unfold pool_step. rewrite Hpc, Hips.
      by destruct (workers s !! j) as [[|]|].
    + unfold pool_step. by rewrite Hpc, Hips.
Qed.

(** ** The passes return when the workers are enough *)








(** What [Execute] writes for an [Add] operation of a grow pass, when the
    instance it fetches is the instance of the snapshot: the addresses
    held followed by the addresses staged. *)
Lemma add_loop_fresh (ips current : list string) :
  NoDup ips -> (forall ip, ip ∈ ips -> ip ∉ current) ->
  foldl (fun newState ip =>
           if negb (Contains newState ip) then newState ++ [ip] else newState)
        current ips = current ++ ips.
Proof.
  revert current. induction ips as [|ip ips IH]; intros current Hnd Hfresh; simpl.
  - by rewrite app_nil_r.
  - apply NoDup_cons in Hnd as [Hip Hnd].
    assert (E : Contains current ip = false)
      by (apply Contains_false, Hfresh; left).
    rewrite E. simpl. rewrite IH; [by rewrite <- app_assoc|done|].
    intros x Hx Hin. apply elem_of_app in Hin as [Hin|Hin].
    + eapply Hfresh; [by right|done].
    + apply list_elem_of_singleton in Hin. by subst.
Qed.

Lemma grow_writes_planned_state sched cfg instances name operation instance :
  AllocateIps_operations sched instances (GetSpareIps sched cfg instances) !! name
    = Some operation ->
  instances !! name = Some instance ->
  newStateOf operation instance = AliasIps instance ++ Ips operation /\
  AliasIps <$> applyAdds instances
     (AllocateIps_operations sched instances (GetSpareIps sched cfg instances)) !! name
    = Some (newStateOf operation instance).
Proof.
  intros Ho Hi.
  destruct (AllocateIps_operations_inv sched cfg instances)
    as (_ & Hadd & Hdone & _ & Hnd).
  destruct (Hadd _ _ Ho) as [Htype _].
  assert (E : newStateOf operation instance = AliasIps instance ++ Ips operation).
  { unfold newStateOf. rewrite Htype. apply add_loop_fresh; [by eapply Hnd|].
    intros ip Hip Hin.
    assert (Hsp : ip ∈ GetSpareIps sched cfg instances)
      by (apply (Hdone name); by exists operation).
    apply GetSpareIps_spec in Hsp as [_ Hna]. apply Hna. by exists name, instance. }
  split; [done|]. unfold applyAdds. rewrite map_lookup_imap, Hi. simpl.
  unfold opIps. by rewrite Ho, E.
Qed.

(** ** The properties at concrete passes *)

Lemma C2_witness :
  "a" = "a" /\
  "10.0.0.3" ∈ GetSpareIps sched0 configTwo (snapshot nodesTwo) /\
  (forall operation,
     AllocateIps_operations sched0 (snapshot nodesTwo)
       (GetSpareIps sched0 configTwo (snapshot nodesTwo)) !! "a" = Some operation ->
     NoDup (Ips operation)).
Proof.
  apply (C2_grow_stages_each_address_once sched0 configTwo (snapshot nodesTwo)
           "a" "a" "10.0.0.3");
    (exists (mkOperation Add (node "a" []) ["10.0.0.3"; "10.0.0.2"]);
     split; [vm_compute; reflexivity|left]).
Defined.

Lemma C3_witness :
  snapshot nodesTwo <> ∅ /\
  GetSpareIps sched0 configTwo (applyAdds (snapshot nodesTwo) operationsTwo) = [].
Proof.
  assert (Hne : snapshot nodesTwo <> ∅)
    by (apply (bool_decide_unpack _); vm_compute; exact I).
  split; [exact Hne|].
  exact (proj1 (proj2 (proj2 (proj2
           (C3_grow_stages_every_spare sched0 configTwo (snapshot nodesTwo) Hne))))
         sched0).
Defined.



Lemma C6_witness :
  run GetInstancesFromMIG startBalanced
    = ((snapshot nodesBalanced, false), fetchedBalanced) /\
  balanced (count <$> snapshot nodesBalanced) /\
  ReduceIps 0 sched0 [Main; Main] (config0 [] 1) startBalanced
    = Some (0, fetchedBalanced).
Proof.
  assert (Hrun : run GetInstancesFromMIG startBalanced
                 = ((snapshot nodesBalanced, false), fetchedBalanced))
    by (vm_compute; reflexivity).
  assert (Hb : balanced (count <$> snapshot nodesBalanced))
    by (unfold balanced; apply (bool_decide_unpack _); vm_compute; exact I).
  split; [exact Hrun|]. split; [exact Hb|].
  exact (proj1 (proj2 (proj2
           (C6_shrink_idempotent_when_balanced 0 sched0 (config0 [] 1) startBalanced
              fetchedBalanced (snapshot nodesBalanced) false Hrun Hb)))).
Defined.

Lemma C7_witness : run (Execute gcp0 addHeld) startBalanced = (0, heldBalanced).
Proof.
  apply (C7_execute_noop gcp0 addHeld startBalanced (node "a" ["10.0.0.1"; "10.0.0.2"])).
  - reflexivity.
  - vm_compute. reflexivity.
Defined.

Lemma C8_witness :
  (run (Execute gcp0 addOne) startConflict).1 = 0 /\
  Forall (fun e => is_wait e = false)
    [EvGet "a"; EvUpdate "a" "nic0" (mkBody "fp" [("10.0.0.1/32", "vips")]) WriteConflict].
Proof.
  apply (C8_execute_failed_write gcp0 addOne startConflict).
  - vm_compute. reflexivity.
  - apply Exists_cons. right. apply Exists_cons. left. reflexivity.
Defined.

Lemma C9_witness :
  ReduceIps 0 sched0 [] (config0 [] 1) startEmpty = Some (0, fetchedEmpty).
Proof.
  refine (proj1 (C9_shrink_without_instances 0 sched0 [] (config0 [] 1)
                   startEmpty fetchedEmpty false _)).
  vm_compute. reflexivity.
Defined.

Lemma C10_witness : 0 <= 2 <= nonEmptyOps operationsTwo.
Proof.
  apply (proj1 (proj2 (C10_change_count_bounds (cloud := cloudTwo) gcp0))
           2%nat [] actsTwo operationsTwo startTwo 2).
  vm_compute. reflexivity.
Defined.

Lemma C1_witness :
  snapshot nodes3330 <> ∅ /\
  exists target,
    ReduceIps_target 27 sched0 (snapshot nodes3330) = Some target /\
    balanced target /\
    maxValue [] target - minValue [] target <= 1 /\
    msum id target = msum count (snapshot nodes3330).
Proof.
  assert (Hne : snapshot nodes3330 <> ∅)
    by (apply (bool_decide_unpack _); vm_compute; exact I).
  split; [exact Hne|].
  destruct (C1_shrink_targets_balanced sched0 (snapshot nodes3330))
    as (target & Ht & Hb & Hspread & _ & Hsum).
  exists target. split; [|split; [|split]].
  - apply Ht. vm_compute. lia.
  - exact Hb.
  - exact (Hspread Hne [] []).
  - exact Hsum.
Defined.

(** ** The scenarios of the design *)

(** Counts 3, 3, 3, 0: the targets have spread 1 and sum 9; which node
    keeps three addresses depends on the iteration order. *)
Example shrink_3330 :
  ReduceIps_target 27 sched0 (snapshot nodes3330)
  = Some (list_to_map [("a", 2); ("b", 3); ("c", 2); ("d", 2)]) /\
  ReduceIps_target 27 sched1 (snapshot nodes3330)
  = Some (list_to_map [("a", 2); ("b", 2); ("c", 3); ("d", 2)]) /\
  robinHoodFuel (count <$> snapshot nodes3330) = 27%nat.
Proof. repeat split; vm_compute; reflexivity. Qed.

(** The Remove operations of that pass take the first address of two of
    the nodes that held three. *)
Example shrink_3330_operations :
  ReduceIps_operations [] (snapshot nodes3330)
    (list_to_map [("a", 2); ("b", 3); ("c", 2); ("d", 2)])
  = Some (list_to_map [("a", mkOperation Remove (node "a" ["1"; "2"; "3"]) ["1"]);
                       ("c", mkOperation Remove (node "c" ["7"; "8"; "9"]) ["7"])]).
Proof. vm_compute. reflexivity. Qed.

(** A pool of four addresses and two nodes without addresses: each node
    is given two, no address stays spare, and with two workers the pass
    counts two changes. *)
Example grow_two :
  Ips <$> operationsTwo
  = list_to_map [("a", ["10.0.0.3"; "10.0.0.2"]); ("b", ["10.0.0.1"; "10.0.0.4"])] /\
  GetSpareIps sched0 configTwo (applyAdds (snapshot nodesTwo) operationsTwo) = [] /\
  fst <$> AllocateIps sched0 actsTwo configTwo startTwo = Some 2.
Proof. repeat split; vm_compute; reflexivity. Qed.

(** The same pass with one worker: after the first operation is handed
    over, the caller waits at the send on [in] and the worker, once done,
    at the send on [out]. *)
Example grow_two_one_worker :
  pool_run gcp0 [Send 0%nat; Work 0%nat; Work 0%nat; Work 0%nat]
    (pool_init 1 [] operationsTwo startTwo)
  = Some (mkPool (Submitting [("b", mkOperation Add (node "b" [])
                                      ["10.0.0.1"; "10.0.0.4"])])
            0 1 [Busy (Ret 1)]
            (@mkWorld cloudTwo 3 tt
               [EvGet "a";
                EvUpdate "a" "nic0"
                  (mkBody "fp" [("10.0.0.3/32", "vips"); ("10.0.0.2/32", "vips")])
                  WriteOk;
                EvWait "a" ["10.0.0.3"; "10.0.0.2"]])) /\
  forall acts, ExecuteParallel gcp0 1 [] acts operationsTwo startTwo = None.
Proof.
  split; [vm_compute; reflexivity|].
  intros acts. apply ExecuteParallel_blocks. vm_compute. reflexivity.
Qed.

(** * Further properties of the code *)

(** ** [exponentialBackoff] and [WaitForUpdate] *)

Lemma exponentialBackoff_range e : 1 <= exponentialBackoff e <= 10.
Proof.
  unfold exponentialBackoff.
  destruct (e <? 5); [lia|]. destruct (e <? 15); [lia|]. destruct (e <? 60); lia.
Qed.

(** X1: the pause between two polls grows with the time already waited
    and stays between 1 and 10 seconds. *)
Theorem X1_backoff_monotone_and_capped (e1 e2 : Z) :
  e1 <= e2 ->
  exponentialBackoff e1 <= exponentialBackoff e2 /\
  1 <= exponentialBackoff e1 <= 10.
Proof.
  intros Hle. split; [|apply exponentialBackoff_range].
  unfold exponentialBackoff.
  destruct (e1 <? 5) eqn:A1, (e2 <? 5) eqn:A2,
           (e1 <? 15) eqn:B1, (e2 <? 15) eqn:B2,
           (e1 <? 60) eqn:C1, (e2 <? 60) eqn:C2;
    rewrite ?Z.ltb_lt, ?Z.ltb_ge in *; lia.
Qed.

Lemma X1_witness :
  3 <= 20 /\ exponentialBackoff 3 <= exponentialBackoff 20 /\
  1 <= exponentialBackoff 3 <= 10.
Proof.
  assert (H : 3 <= 20) by lia.
  split; [exact H|]. exact (X1_backoff_monotone_and_capped 3 20 H).
Defined.

Lemma sumZ_snoc l d : sumZ (l ++ [d]) = sumZ l + d.
Proof. induction l as [|a l IH]; simpl; lia. Qed.

Lemma uint_small x : 0 <= x < 2 ^ 63 -> uint x = x.
Proof. intros H. unfold uint. apply Z.mod_small. lia. Qed.

Lemma waitLoop_mono W env newState f1 : forall f2 k e sl x,
  (f1 <= f2)%nat ->
  waitLoop f1 W env newState k e sl = Some x ->
  waitLoop f2 W env newState k e sl = Some x.
Proof.
  induction f1 as [|f1 IH1]; intros f2 k e sl x Hle Hx.
  - cbn [waitLoop] in Hx. destruct (uint e <? W) eqn:E; [done|].
    destruct f2; cbn [waitLoop]; by rewrite E.
  - destruct f2 as [|f2]; [lia|]. cbn [waitLoop] in *.
    destruct (uint e <? W); [|done].
    destruct (wait_poll env k) as [i|]; [|done].
    destruct (len newState =? len (AliasIps i)); [done|].
    apply IH1; [lia|done].
Qed.

Lemma waitLoop_bounded W env newState (Hc : honest_clock W env) fuel :
  forall k sleeps,
  W - elapsedAt env k <= Z.of_nat fuel ->
  Z.of_nat k <= elapsedAt env k < 2 ^ 63 ->
  Z.of_nat k <= W \/ k = O ->
  sumZ sleeps <= elapsedAt env k -> sumZ sleeps < W + 10 ->
  exists r, waitLoop fuel W env newState k (elapsedAt env k) sleeps = Some r /\
    (Z.of_nat (wait_polls r) <= W \/ wait_polls r = O) /\
    sumZ (wait_sleeps r) < W + 10.
Proof.
  induction fuel as [|fuel IH]; intros k sleeps Hfuel He Hk Hsum Hcap;
    cbn [waitLoop]; rewrite uint_small by lia;
    destruct (elapsedAt env k <? W) eqn:E;
    rewrite ?Z.ltb_lt, ?Z.ltb_ge in E; try lia.
  - eexists. split; [done|]. simpl. split; [done|done].
  - destruct (wait_poll env k) as [instance|].
    + destruct (len newState =? len (AliasIps instance)).
      * eexists. split; [done|]. simpl. split; [left; lia|done].
      * destruct (Hc k E) as [Hstep Hmax].
        pose proof (exponentialBackoff_range (elapsedAt env k)).
        apply (IH (S k)); simpl; rewrite ?sumZ_snoc; lia.
    + eexists. split; [done|]. simpl. split; [left; lia|done].
  - eexists. split; [done|]. simpl. split; [done|done].
Qed.

(** X2: on a clock on which sleeping takes at least the time asked for,
    WaitForUpdate ends after at most WaitSeconds polls, and the pauses
    it asks for add up to less than WaitSeconds + 10 seconds; with
    WaitSeconds = 0 it gives up without a poll. *)
Theorem X2_wait_is_bounded (cfg : GcpConfig.t) (env : WaitEnv) (newState : list string) :
  honest_clock (GcpConfig.WaitSeconds cfg) env -> 0 <= GcpConfig.WaitSeconds cfg ->
  exists r,
    (forall fuel, (Z.to_nat (GcpConfig.WaitSeconds cfg) <= fuel)%nat ->
       WaitForUpdate_body fuel cfg env newState = Some r) /\
    Z.of_nat (wait_polls r) <= GcpConfig.WaitSeconds cfg /\
    sumZ (wait_sleeps r) < GcpConfig.WaitSeconds cfg + 10 /\
    (GcpConfig.WaitSeconds cfg = 0 -> r = mkWaitResult GaveUp 0 []).
Proof.
  intros Hc HW. set (W := GcpConfig.WaitSeconds cfg) in *.
  destruct (waitLoop_bounded W env newState Hc (Z.to_nat W) 0 [])
    as (r & Hr & Hpolls & Hsleeps); simpl; try lia; try (by right).
  exists r. split; [|split; [|split]].
  - intros fuel Hfuel. unfold WaitForUpdate_body. fold W.
    by apply (waitLoop_mono W env newState (Z.to_nat W)).
  - destruct Hpolls as [? | ->]; [done|simpl; lia].
  - done.
  - intros H0. rewrite H0 in Hr. change (Z.to_nat 0) with O in Hr.
    cbn [waitLoop elapsedAt] in Hr. rewrite uint_small in Hr by lia.
    simpl in Hr. congruence.
Qed.

Lemma X2_witness :
  honest_clock 60 tenEnv /\ 0 <= 60 /\
  exists r,
    (forall fuel, (60 <= fuel)%nat ->
       WaitForUpdate_body fuel gcp0 tenEnv ["10.0.0.1"] = Some r) /\
    Z.of_nat (wait_polls r) <= 60 /\
    sumZ (wait_sleeps r) < 60 + 10 /\
    (60 = 0 -> r = mkWaitResult GaveUp 0 []).
Proof.
  assert (Hc : honest_clock 60 tenEnv).
  { intros k Hk. pose proof (exponentialBackoff_range (elapsedAt tenEnv k)).
    destruct k as [|k]; simpl in *; lia. }
  assert (HW : 0 <= 60) by lia.
  split; [exact Hc|]. split; [exact HW|].
  exact (X2_wait_is_bounded gcp0 tenEnv ["10.0.0.1"] Hc HW).
Defined.

(** ** [increment] *)

Lemma bigEndian_snoc l b : bigEndian (l ++ [b]) = bigEndian l * 256 + b.
Proof. unfold bigEndian. by rewrite foldl_app. Qed.

Lemma bigEndian_bound l : bytes l -> 0 <= bigEndian l < 256 ^ Z.of_nat (length l).
Proof.
  unfold bytes. induction l as [|b l IH] using rev_ind; intros Hb; [by vm_compute|].
  rewrite Forall_app, Forall_singleton in Hb. destruct Hb as [Hl Hb].
  specialize (IH Hl). rewrite bigEndian_snoc, length_app. simpl.
  replace (Z.of_nat (length l + 1)) with (Z.of_nat (length l) + 1) by lia.
  rewrite Z.pow_add_r, Z.pow_1_r by lia. lia.
Qed.

Lemma incrementFrom_spec n : forall ip,
  bytes ip -> (n <= length ip)%nat ->
  length (incrementFrom n ip) = length ip /\
  bytes (incrementFrom n ip) /\
  drop n (incrementFrom n ip) = drop n ip /\
  bigEndian (take n (incrementFrom n ip))
  = (bigEndian (take n ip) + 1) mod 256 ^ Z.of_nat n.
Proof.
  induction n as [|i IH]; intros ip Hb Hn.
  - simpl. rewrite take_0. done.
  - cbn [incrementFrom]. cbv zeta.
    destruct (lookup_lt_is_Some_2 ip i ltac:(lia)) as [b Hi].
    assert (Hb0 : 0 <= b < 256) by (eapply Forall_lookup_1 in Hb; eauto).
    assert (Hnth : nth i ip 0 = b) by (by apply nth_lookup_Some with (d := 0) in Hi).
    rewrite Hnth.
    assert (Hpre : bytes (take i ip)) by (by apply Forall_take).
    pose proof (bigEndian_bound _ Hpre) as Hv.
    rewrite length_take_le in Hv by lia.
    assert (Hpow : 256 ^ Z.of_nat (S i) = 256 ^ Z.of_nat i * 256).
    { replace (Z.of_nat (S i)) with (Z.of_nat i + 1) by lia.
      by rewrite Z.pow_add_r, Z.pow_1_r by lia. }
    assert (Hb' : bytes (<[i := (b + 1) mod 256]> ip)).
    { apply Forall_insert; [done|]. apply Z.mod_pos_bound. lia. }
    rewrite (take_S_r ip i b Hi), bigEndian_snoc.
    destruct ((b + 1) mod 256 >? 0) eqn:E.
    + apply Z.gtb_lt in E.
      assert (Hlt : b + 1 < 256).
      { destruct (decide (b = 255)) as [->|]; [done|lia]. }
      rewrite Z.mod_small in * by lia.
      rewrite length_insert. split; [done|]. split; [done|]. split.
      * by rewrite drop_insert_lt by lia.
      * rewrite (take_S_r _ i (b + 1)) by (rewrite list_lookup_insert_eq; [done|lia]).
        rewrite take_insert_ge by lia. rewrite bigEndian_snoc.
        rewrite Z.mod_small by nia. lia.
    + assert (E' : (b + 1) mod 256 = 0).
      { pose proof (Z.mod_pos_bound (b + 1) 256 ltac:(lia)).
        rewrite Z.gtb_ltb in E. apply Z.ltb_ge in E. lia. }
      assert (Hb255 : b = 255).
      { destruct (decide (b = 255)) as [|Hne]; [done|].
        rewrite Z.mod_small in E' by lia. lia. }
      rewrite E' in *. clear Hnth. subst b.
      destruct (IH (<[i := 0]> ip) Hb' ltac:(rewrite length_insert; lia))
        as (Hlen & Hbytes & Hdrop & Hval).
      rewrite length_insert in Hlen. split; [done|]. split; [done|]. split.
      * replace (S i) with (i + 1)%nat by lia.
        rewrite <- (drop_drop (incrementFrom _ _) 1 i), Hdrop, drop_drop.
        by rewrite drop_insert_lt by lia.
      * assert (Hri : incrementFrom i (<[i := 0]> ip) !! i = Some 0).
        { pose proof (f_equal (fun l => l !! 0%nat) Hdrop) as Hl. simpl in Hl.
          rewrite !lookup_drop, Nat.add_0_r in Hl. rewrite Hl.
          apply list_lookup_insert_eq. lia. }
        rewrite (take_S_r _ i 0 Hri), bigEndian_snoc, Hval.
        rewrite take_insert_ge by lia. rewrite Hpow.
        replace (bigEndian (take i ip) * 256 + 255 + 1)
          with ((bigEndian (take i ip) + 1) * 256) by lia.
        rewrite Z.mul_mod_distr_r by lia. lia.
Qed.

(** X3: on bytes, increment adds one to the number the bytes denote
    (first byte first) and wraps to zero after the largest; the length
    stays. *)
Theorem X3_increment_adds_one (ip : list Z) :
  bytes ip ->
  length (increment ip) = length ip /\
  bytes (increment ip) /\
  bigEndian (increment ip) = (bigEndian ip + 1) mod 256 ^ Z.of_nat (length ip).
Proof.
  intros Hb. unfold increment.
  destruct (incrementFrom_spec (length ip) ip Hb ltac:(lia)) as (Hlen & Hbytes & _ & Hval).
  split; [done|]. split; [done|].
  rewrite (take_ge (incrementFrom _ _)) in Hval by lia.
  by rewrite (take_ge ip) in Hval by lia.
Qed.

Lemma X3_witness :
  bytes [10; 0; 255; 255] /\
  increment [10; 0; 255; 255] = [10; 1; 0; 0] /\
  increment [255; 255; 255; 255] = [0; 0; 0; 0] /\
  bigEndian (increment [10; 0; 255; 255])
  = (bigEndian [10; 0; 255; 255] + 1) mod 256 ^ 4.
Proof.
  assert (Hb : bytes [10; 0; 255; 255]) by (repeat constructor; lia).
  split; [exact Hb|]. split; [reflexivity|]. split; [reflexivity|].
  exact (proj2 (proj2 (X3_increment_adds_one [10; 0; 255; 255] Hb))).
Defined.

(** ** The scans and the targets of a shrink pass *)

(** X4: on a non-empty map without negative values minValue is the
    least and maxValue the greatest value of the map, whatever the order
    in which the map is visited. *)
Theorem X4_scans_do_not_depend_on_order (values : gmap string Z) (c1 c2 : list nat) :
  nonneg values -> values <> ∅ ->
  is_min values (minValue c1 values) /\
  is_max values (maxValue c1 values) /\
  minValue c1 values = minValue c2 values /\
  maxValue c1 values = maxValue c2 values.
Proof.
  intros Hnn Hne.
  destruct (minValue_spec c1 values Hnn Hne) as [[k1 Hk1] Hmin1].
  destruct (minValue_spec c2 values Hnn Hne) as [[k2 Hk2] Hmin2].
  destruct (maxValue_spec c1 values Hnn Hne) as [[j1 Hj1] Hmax1].
  destruct (maxValue_spec c2 values Hnn Hne) as [[j2 Hj2] Hmax2].
  split; [split; eauto|]. split; [split; eauto|].
  pose proof (Hmin1 _ _ Hk2). pose proof (Hmin2 _ _ Hk1).
  pose proof (Hmax1 _ _ Hj2). pose proof (Hmax2 _ _ Hj1). lia.
Qed.

Lemma X4_witness :
  nonneg counts3330 /\ counts3330 <> ∅ /\
  minValue [2; 0; 1]%nat counts3330 = minValue [] counts3330 /\
  maxValue [2; 0; 1]%nat counts3330 = maxValue [] counts3330.
Proof.
  assert (Hnn : nonneg counts3330)
    by (unfold nonneg; apply (bool_decide_unpack _); vm_compute; exact I).
  assert (Hne : counts3330 <> ∅)
    by (apply (bool_decide_unpack _); vm_compute; exact I).
  split; [exact Hnn|]. split; [exact Hne|].
  exact (proj2 (proj2 (X4_scans_do_not_depend_on_order counts3330 [2; 0; 1]%nat []
                         Hnn Hne))).
Defined.

Lemma msum_id_between (m : gmap string Z) a b :
  (forall k v, m !! k = Some v -> a <= v <= b) ->
  a * Z.of_nat (size m) <= msum id m <= b * Z.of_nat (size m).
Proof.
  induction m as [|k v m Hk IH] using map_ind; intros Hm.
  - rewrite msum_empty, map_size_empty. lia.
  - rewrite msum_insert_new, map_size_insert_None by done.
    assert (Hv : a <= v <= b) by (apply (Hm k); apply lookup_insert_eq).
    assert (IH' : a * Z.of_nat (size m) <= msum id m <= b * Z.of_nat (size m)).
    { apply IH. intros j w Hj. apply (Hm j). rewrite lookup_insert_ne; [done|].
      intros ->. congruence. }
    unfold id at 1 3. lia.
Qed.

(** In a balanced map every value is within [size - 1] of the mean
    taken [size] times. *)
Lemma balanced_near_mean (m : gmap string Z) k v :
  balanced m -> m !! k = Some v ->
  Z.of_nat (size m) * v - (Z.of_nat (size m) - 1) <= msum id m
  <= Z.of_nat (size m) * v + (Z.of_nat (size m) - 1).
Proof.
  intros Hb Hk.
  assert (Hsize : size m = S (size (delete k m))).
  { rewrite <- (insert_delete_id m k v) at 1 by done.
    apply map_size_insert_None, lookup_delete_eq. }
  assert (Hsum : msum id m = v + msum id (delete k m)).
  { rewrite <- (insert_delete_id m k v) at 1 by done.
    by rewrite msum_insert_new by apply lookup_delete_eq. }
  pose proof (msum_id_between (delete k m) (v - 1) (v + 1)) as Hbt.
  assert (Hrest : forall j w, delete k m !! j = Some w -> v - 1 <= w <= v + 1).
  { intros j w Hj. apply lookup_delete_Some in Hj as [_ Hj].
    pose proof (Hb _ _ Hk _ _ Hj). pose proof (Hb _ _ Hj _ _ Hk). simpl in *. lia. }
  specialize (Hbt Hrest). rewrite Hsize, Hsum. lia.
Qed.

(** X5: every target of a shrink pass is the mean of the current counts
    rounded down or rounded up. *)
Theorem X5_targets_are_the_rounded_mean (sched : Schedule)
    (instances : gmap string GceInstance) :
  exists target,
    (forall fuel, (robinHoodFuel (count <$> instances) <= fuel)%nat ->
       ReduceIps_target fuel sched instances = Some target) /\
    forall name v, target !! name = Some v ->
      msum count instances / Z.of_nat (size instances) <= v
      <= (msum count instances + Z.of_nat (size instances) - 1)
         / Z.of_nat (size instances).
Proof.
  unfold ReduceIps_target. rewrite reduceInit_counts.
  destruct (robinHood_spec sched (count <$> instances) (counts_nonneg instances))
    as (t & Ht & Hb & _ & Hdom & Hsum).
  exists t. split; [done|]. intros name v Hv.
  pose proof (balanced_near_mean t name v Hb Hv) as Hnear.
  assert (Hsize : size t = size instances).
  { rewrite <- !size_dom, Hdom. by rewrite dom_fmap_L. }
  rewrite Hsum, msum_fmap, Hsize in Hnear. fold count in Hnear.
  assert (Hpos : 0 < Z.of_nat (size instances)).
  { rewrite <- Hsize. assert (size t <> 0%nat); [|lia].
    apply map_size_non_empty_iff. intros ->. by rewrite lookup_empty in Hv. }
  assert (E : msum (fun v0 => id (count v0)) instances = msum count instances) by done.
  rewrite E in Hnear. split.
  - assert (msum count instances / Z.of_nat (size instances) < v + 1); [|lia].
    apply Z.div_lt_upper_bound; lia.
  - apply Z.div_le_lower_bound; lia.
Qed.

(** ** The operations of a shrink pass *)

Lemma reduceGen_step target operations name instance :
  0 <= GoMap.get 0 target name ->
  reduceGen target (Some operations) (name, instance)
  = Some (match removalFor (GoMap.get 0 target name) instance with
          | Some operation => <[name := operation]> operations
          | None => operations
          end).
Proof.
  intros Ht. unfold reduceGen, removalFor, count. cbv zeta.
  destruct (len (AliasIps instance) - GoMap.get 0 target name >? 0) eqn:E; [|done].
  apply Z.gtb_lt in E. unfold sliceTo.
  assert (Hin : (0 <=? len (AliasIps instance) - GoMap.get 0 target name)
                && (len (AliasIps instance) - GoMap.get 0 target name
                    <=? len (AliasIps instance)) = true).
  { apply andb_true_iff. split; apply Z.leb_le; lia. }
  by rewrite Hin.
Qed.

Lemma get_nonneg target name : nonneg target -> 0 <= GoMap.get 0 target name.
Proof.
  intros Hnn. unfold GoMap.get. destruct (target !! name) as [v|] eqn:Hv; simpl; [|lia].
  exact (Hnn _ _ Hv).
Qed.

Lemma reduceGen_fold target (Hnn : nonneg target) l : forall acc,
  NoDup l.*1 ->
  exists operations, foldl (reduceGen target) (Some acc) l = Some operations /\
    (forall name instance, (name, instance) ∈ l ->
       operations !! name = removalFor (GoMap.get 0 target name) instance
       \/ (removalFor (GoMap.get 0 target name) instance = None
           /\ operations !! name = acc !! name)) /\
    (forall name, name ∉ l.*1 -> operations !! name = acc !! name).
Proof.
  induction l as [|[k i] l IH]; intros acc Hnd.
  - exists acc. split; [done|]. split; [|done]. intros ? ? H. by apply elem_of_nil in H.
  - cbn [foldl]. rewrite reduceGen_step by (by apply get_nonneg).
    simpl in Hnd. apply NoDup_cons in Hnd as [Hk Hnd].
    set (acc' := match removalFor (GoMap.get 0 target k) i with
                 | Some operation => <[k := operation]> acc
                 | None => acc
                 end).
    destruct (IH acc' Hnd) as (ops & Hops & Hin & Hout).
    exists ops. split; [done|]. split.
    + intros name instance Hel. apply elem_of_cons in Hel as [E|Hel].
      * inversion E; subst. rewrite (Hout k Hk). unfold acc'.
        destruct (removalFor (GoMap.get 0 target k) i) as [o|] eqn:Ho.
        -- left. apply lookup_insert_eq.
        -- right. done.
      * destruct (Hin _ _ Hel) as [H|[H1 H2]]; [by left|]. right. split; [done|].
        rewrite H2. unfold acc'.
        destruct (removalFor (GoMap.get 0 target k) i); [|done].
        rewrite lookup_insert_ne; [done|]. intros ->. apply Hk.
        apply list_elem_of_fmap. by exists (name, instance).
    + intros name Hname. simpl in Hname. apply not_elem_of_cons in Hname as [Hne Hname].
      rewrite (Hout _ Hname). unfold acc'.
      destruct (removalFor (GoMap.get 0 target k) i); [|done].
      by rewrite lookup_insert_ne.
Qed.

(** With targets that are not negative the operations of a shrink pass
    are, instance by instance, those of [removalFor]. *)
Lemma ReduceIps_operations_lookup code instances target :
  nonneg target ->
  exists operations, ReduceIps_operations code instances target = Some operations /\
    forall name, operations !! name
                 = instances !! name ≫= removalFor (GoMap.get 0 target name).
Proof.
  intros Hnn. unfold ReduceIps_operations.
  destruct (reduceGen_fold target Hnn (GoMap.range code instances) ∅
              (NoDup_fst_range _ _)) as (ops & Hops & Hin & Hout).
  exists ops. split; [done|]. intros name.
  destruct (instances !! name) as [i|] eqn:Hi; simpl.
  - destruct (Hin name i) as [H|[H1 H2]]; [by apply elem_of_range|done|].
    by rewrite H1, H2, lookup_empty.
  - rewrite Hout, lookup_empty; [done|]. intros Hel.
    apply list_elem_of_fmap in Hel as ([k i] & -> & Hel).
    apply elem_of_range in Hel. simpl in Hi. congruence.
Qed.

(** Removing the first [k] of a list without repetition leaves the
    rest. *)
Lemma remove_prefix (pre suf : list string) :
  NoDup (pre ++ suf) ->
  List.filter (fun ip => negb (Contains pre ip)) (pre ++ suf) = suf.
Proof.
  intros Hnd. apply NoDup_app in Hnd as (_ & Hdisj & _). rewrite List.filter_app.
  assert (H : forall s, (forall x, x ∈ s -> x ∈ pre) ->
              List.filter (fun ip => negb (Contains pre ip)) s = []).
  { induction s as [|x s IHs]; intros Hs; [done|]. simpl.
    assert (Hx : Contains pre x = true) by (apply Contains_elem_of, Hs; left).
    rewrite Hx. simpl. apply IHs. intros y Hy. apply Hs. by right. }
  rewrite H by done. simpl. apply forallb_filter_id, forallb_forall.
  intros x Hx. apply negb_true_iff, Contains_false. intros Hin.
  apply (Hdisj x Hin). by apply list_elem_of_In.
Qed.

Lemma remove_first_k (l : list string) k :
  NoDup l ->
  List.filter (fun ip => negb (Contains (take k l) ip)) l = drop k l.
Proof.
  intros Hnd. rewrite <- (take_drop k l) in Hnd.
  pose proof (remove_prefix _ _ Hnd) as H. by rewrite take_drop in H.
Qed.

(** X6: a shrink pass makes no operation for an instance that holds no
    more than its target, and for an instance above its target one
    Remove operation with the first (count - target) addresses the
    instance holds; the slice taken is always within the list.  Applied
    by Execute to the instance as it was fetched (a list without
    repetition), the operation leaves exactly the target. *)
Theorem X6_shrink_operations (sched : Schedule) (instances : gmap string GceInstance) :
  exists target operations,
    (forall fuel, (robinHoodFuel (count <$> instances) <= fuel)%nat ->
       ReduceIps_target fuel sched instances = Some target) /\
    ReduceIps_operations (sched RangeReduceGen 0%nat) instances target
      = Some operations /\
    dom operations ⊆ dom instances /\
    forall name instance, instances !! name = Some instance ->
      exists t, target !! name = Some t /\ 0 <= t /\
        (count instance <= t -> operations !! name = None) /\
        (t < count instance ->
           exists operation, operations !! name = Some operation /\
             operation = mkOperation Remove instance
                           (take (Z.to_nat (count instance - t)) (AliasIps instance)) /\
             (NoDup (AliasIps instance) -> len (newStateOf operation instance) = t)).
Proof.
  pose proof (reduceInit_counts (sched RangeReduceInit 0%nat) instances) as Hinit.
  destruct (robinHood_spec sched (count <$> instances) (counts_nonneg instances))
    as (target & Ht & _ & Hnn & Hdom & _).
  destruct (ReduceIps_operations_lookup (sched RangeReduceGen 0%nat) instances target Hnn)
    as (operations & Ho & Hlook).
  exists target, operations. split; [|split; [done|split]].
  - intros fuel Hfuel. unfold ReduceIps_target. rewrite Hinit. by apply Ht.
  - intros name Hname. apply elem_of_dom in Hname as [o Ho'].
    rewrite Hlook in Ho'. apply elem_of_dom.
    destruct (instances !! name); [by eexists|done].
  - intros name instance Hi.
    assert (Hin : name ∈ dom target)
      by (rewrite Hdom, dom_fmap_L; by apply elem_of_dom_2 in Hi).
    apply elem_of_dom in Hin as [t Htn].
    exists t. split; [done|]. split; [exact (Hnn _ _ Htn)|].
    specialize (Hlook name). rewrite Hi in Hlook. simpl in Hlook.
    unfold GoMap.get in Hlook. rewrite Htn in Hlook. simpl in Hlook.
    unfold removalFor in Hlook. split.
    + intros Hle. destruct (count instance - t >? 0) eqn:E; [|done].
      apply Z.gtb_lt in E. lia.
    + intros Hlt. destruct (count instance - t >? 0) eqn:E.
      * eexists. split; [done|]. split; [done|].
        intros Hnd. unfold newStateOf. simpl.
        rewrite remove_loop_spec. simpl. rewrite remove_first_k by done.
        pose proof (Hnn _ _ Htn) as Ht0. simpl in Ht0.
        unfold len, count, len in *. rewrite length_drop. lia.
      * rewrite Z.gtb_ltb in E. apply Z.ltb_ge in E. lia.
Qed.

(** ** The loads a grow pass leaves *)

Lemma opIps_stage operations k ip n :
  is_Some (operations !! k) ->
  opIps (stage operations k ip) n
  = if decide (n = k) then opIps operations k ++ [ip] else opIps operations n.
Proof.
  intros [o Ho]. unfold opIps, stage. rewrite Ho.
  destruct (decide (n = k)) as [->|Hne].
  - by rewrite lookup_insert_eq.
  - by rewrite lookup_insert_ne.
Qed.

Lemma load_stage instances operations k ip n :
  is_Some (operations !! k) -> is_Some (instances !! n) ->
  load instances (stage operations k ip) n
  = load instances operations n + (if decide (n = k) then 1 else 0).
Proof.
  intros Hk [i Hi]. unfold load. rewrite Hi, opIps_stage by done.
  destruct (decide (n = k)) as [->|]; [|lia].
  unfold len. rewrite length_app. simpl. lia.
Qed.

Lemma allocInit_opIps code instances n : opIps (allocInit code instances) n = [].
Proof.
  unfold opIps. rewrite allocInit_lookup. by destruct (instances !! n).
Qed.

(** What the loop of a grow pass keeps for every two instances [n] and
    [j]: once [n] has been given an address its load exceeds no load by
    more than one, and loads that differ by one at most keep doing so. *)
Lemma allocLoop_loads sched instances spare : forall m operations,
  (forall name, is_Some (instances !! name) -> is_Some (operations !! name)) ->
  let final := allocLoop sched m instances spare operations in
  (forall name, is_Some (instances !! name) -> is_Some (final !! name)) /\
  ((forall n j, is_Some (instances !! n) -> is_Some (instances !! j) ->
      opIps operations n <> [] ->
      load instances operations n <= load instances operations j + 1) ->
   forall n j, is_Some (instances !! n) -> is_Some (instances !! j) ->
      opIps final n <> [] -> load instances final n <= load instances final j + 1) /\
  ((forall n j, is_Some (instances !! n) -> is_Some (instances !! j) ->
      load instances operations n <= load instances operations j + 1) ->
   forall n j, is_Some (instances !! n) -> is_Some (instances !! j) ->
      load instances final n <= load instances final j + 1).
Proof.
  induction spare as [|ip spare IH]; intros m operations Hdom; [by simpl|].
  cbn [allocLoop]. cbv zeta.
  destruct (decide (instances = ∅)) as [->|Hne].
  { split; [|split]; intros; exfalso;
      match goal with H : is_Some (∅ !! _) |- _ =>
        rewrite lookup_empty in H; by destruct H end. }
  destruct (allocStep_spec sched m instances operations ip Hne)
    as (k & Hk & Hstep & Hmin).
  assert (Hko : is_Some (operations !! k)) by auto.
  assert (Hdom' : forall name, is_Some (instances !! name) ->
                    is_Some (allocStep sched m instances operations ip !! name)).
  { intros name Hname. rewrite Hstep, stage_is_Some. auto. }
  destruct (IH (S m) _ Hdom') as (Hd & Hwater & Hspread).
  split; [done|]. split.
  - intros Hpre. apply Hwater. intros n j Hn Hj. rewrite Hstep.
    rewrite !load_stage, opIps_stage by done.
    pose proof (Hmin n Hn) as Hkn. pose proof (Hmin j Hj) as Hkj.
    destruct (decide (n = k)) as [Enk|Hnk]; destruct (decide (j = k)) as [Ejk|Hjk];
      intros Hips; try (rewrite ?Enk, ?Ejk in *; lia);
      specialize (Hpre n j Hn Hj Hips); lia.
  - intros Hpre. apply Hspread. intros n j Hn Hj. rewrite Hstep.
    rewrite !load_stage by done.
    pose proof (Hmin n Hn) as Hkn. pose proof (Hmin j Hj) as Hkj.
    specialize (Hpre n j Hn Hj).
    destruct (decide (n = k)) as [Enk|Hnk]; destruct (decide (j = k)) as [Ejk|Hjk];
      try (rewrite ?Enk, ?Ejk in *; lia); lia.
Qed.

Lemma allocInit_dom code instances name :
  is_Some (instances !! name) -> is_Some (allocInit code instances !! name).
Proof. intros H. rewrite allocInit_lookup. by rewrite fmap_is_Some. Qed.

(** X7: in the operations of a grow pass, an instance that has been
    given an address has a load (addresses held plus addresses staged)
    that exceeds the load of no instance by more than one. *)
Theorem X7_grow_fills_from_below (sched : Schedule)
    (instances : gmap string GceInstance) (spare : list string) (n j : string) :
  let operations := AllocateIps_operations sched instances spare in
  is_Some (instances !! n) -> is_Some (instances !! j) ->
  opIps operations n <> [] ->
  load instances operations n <= load instances operations j + 1.
Proof.
  intros operations Hn Hj Hips.
  destruct (allocLoop_loads sched instances spare 0
              (allocInit (sched RangeAllocInit 0%nat) instances)
              (allocInit_dom _ instances)) as (_ & Hwater & _).
  apply Hwater; try done.
  intros n' j' _ _ H. by rewrite allocInit_opIps in H.
Qed.

Lemma X7_witness :
  is_Some (snapshot nodes3330 !! "d") /\ is_Some (snapshot nodes3330 !! "a") /\
  opIps (AllocateIps_operations sched0 (snapshot nodes3330) ["x"; "y"]) "d" <> [] /\
  load (snapshot nodes3330)
       (AllocateIps_operations sched0 (snapshot nodes3330) ["x"; "y"]) "d"
  <= load (snapshot nodes3330)
          (AllocateIps_operations sched0 (snapshot nodes3330) ["x"; "y"]) "a" + 1.
Proof.
  assert (Hd : is_Some (snapshot nodes3330 !! "d")) by (vm_compute; eauto).
  assert (Ha : is_Some (snapshot nodes3330 !! "a")) by (vm_compute; eauto).
  assert (Hips : opIps (AllocateIps_operations sched0 (snapshot nodes3330) ["x"; "y"])
                       "d" <> []) by (vm_compute; discriminate).
  split; [exact Hd|]. split; [exact Ha|]. split; [exact Hips|].
  exact (X7_grow_fills_from_below sched0 (snapshot nodes3330) ["x"; "y"] "d" "a"
           Hd Ha Hips).
Defined.

Lemma applyAdds_count instances operations n :
  (count <$> applyAdds instances operations) !! n
  = (fun _ => load instances operations n) <$> instances !! n.
Proof.
  unfold applyAdds, load. rewrite lookup_fmap, map_lookup_imap.
  destruct (instances !! n) as [i|]; [|done]. simpl. f_equal.
  unfold count, len. simpl. rewrite length_app. lia.
Qed.

(** X8: a grow pass keeps a balanced snapshot balanced: when the counts
    of the instances differ by one at most, so do the counts once the
    staged addresses are added. *)
Theorem X8_grow_keeps_balance (sched : Schedule)
    (instances : gmap string GceInstance) (spare : list string) :
  balanced (count <$> instances) ->
  balanced (count <$> applyAdds instances
                        (AllocateIps_operations sched instances spare)).
Proof.
  intros Hb.
  destruct (allocLoop_loads sched instances spare 0
              (allocInit (sched RangeAllocInit 0%nat) instances)
              (allocInit_dom _ instances)) as (_ & _ & Hspread).
  assert (Hinit : forall n j, is_Some (instances !! n) -> is_Some (instances !! j) ->
    load instances (allocInit (sched RangeAllocInit 0%nat) instances) n
    <= load instances (allocInit (sched RangeAllocInit 0%nat) instances) j + 1).
  { intros n j [a Ha] [b Hb']. unfold load. rewrite Ha, Hb', !allocInit_opIps.
    assert (H1 : (count <$> instances) !! n = Some (count a))
      by (by rewrite lookup_fmap, Ha).
    assert (H2 : (count <$> instances) !! j = Some (count b))
      by (by rewrite lookup_fmap, Hb').
    pose proof (Hb _ _ H1 _ _ H2) as H. simpl in H. unfold len. simpl. lia. }
  specialize (Hspread Hinit).
  intros n v1 H1 j v2 H2. simpl.
  rewrite applyAdds_count in H1, H2.
  destruct (instances !! n) as [a|] eqn:Ha; [|done].
  destruct (instances !! j) as [b|] eqn:Hb'; [|done].
  simpl in H1, H2. injection H1 as <-. injection H2 as <-.
  pose proof (Hspread n j ltac:(by rewrite Ha) ltac:(by rewrite Hb')) as H.
  unfold AllocateIps_operations. lia.
Qed.

Lemma X8_witness :
  balanced (count <$> snapshot nodesBalanced) /\
  balanced (count <$> applyAdds (snapshot nodesBalanced)
              (AllocateIps_operations sched0 (snapshot nodesBalanced)
                 ["10.0.0.5"; "10.0.0.6"; "10.0.0.7"])).
Proof.
  assert (Hb : balanced (count <$> snapshot nodesBalanced))
    by (unfold balanced; apply (bool_decide_unpack _); vm_compute; exact I).
  split; [exact Hb|].
  exact (X8_grow_keeps_balance sched0 (snapshot nodesBalanced)
           ["10.0.0.5"; "10.0.0.6"; "10.0.0.7"] Hb).
Defined.

(** ** The snapshot fetch *)

Lemma perform_get {cloud : Cloud} name (w : world cloud) :
  perform (GetInstance name) w
  = (cloud_get cloud (w_clock w) (w_state w) name,
     mkWorld (S (w_clock w)) (w_state w) (w_trace w ++ [EvGet name])).
Proof. reflexivity. Qed.

Lemma perform_list {cloud : Cloud} (w : world cloud) :
  perform ListInstancesInGroup w
  = (cloud_list cloud (w_clock w) (w_state w),
     mkWorld (S (w_clock w)) (w_state w) (w_trace w ++ [EvList])).
Proof. reflexivity. Qed.

Lemma fetchInstances_world {cloud : Cloud} names : forall instances (w : world cloud),
  (run (fetchInstances names instances) w).1.2 = false /\
  (run (fetchInstances names instances) w).2
  = mkWorld (w_clock w + length names) (w_state w) (w_trace w ++ (EvGet <$> names)).
Proof.
  induction names as [|n names IH]; intros instances w.
  - simpl. rewrite Nat.add_0_r, app_nil_r. destruct w. by split.
  - cbn [fetchInstances]. rewrite run_bind, run_trigger, perform_get. cbn [fst snd].
    set (w1 := mkWorld (S (w_clock w)) (w_state w) (w_trace w ++ [EvGet n])).
    set (acc := match cloud_get cloud (w_clock w) (w_state w) n with
                | Some instance => <[n := instance]> instances
                | None => instances
                end).
    assert (E : run (match cloud_get cloud (w_clock w) (w_state w) n with
                     | Some instance => fetchInstances names (<[n := instance]> instances)
                     | None => fetchInstances names instances
                     end) w1 = run (fetchInstances names acc) w1).
    { unfold acc. by destruct (cloud_get cloud (w_clock w) (w_state w) n). }
    rewrite E. destruct (IH acc w1) as [Herr Hw]. split; [done|].
    rewrite Hw. unfold w1. simpl. f_equal; [lia|]. by rewrite <- app_assoc.
Qed.

(** The map after the loop, name by name: the instance of the last fetch
    of the name that succeeded, or else what the map held before. *)
Lemma fetchInstances_found {cloud : Cloud} names : forall instances (w : world cloud),
  let r := run (fetchInstances names instances) w in
  let get k name := cloud_get cloud (w_clock w + k) (w_state w) name in
  (forall name instance,
     r.1.1 !! name = Some instance <->
     (exists k, names !! k = Some name /\ get k name = Some instance /\
        forall k', (k < k')%nat -> names !! k' = Some name -> get k' name = None) \/
     ((forall k, names !! k = Some name -> get k name = None) /\
      instances !! name = Some instance)) /\
  (forall name,
     r.1.1 !! name = None <->
     (forall k, names !! k = Some name -> get k name = None) /\
     instances !! name = None).
Proof.
  induction names as [|n names IH]; intros instances w r get.
  - subst r get. simpl. split.
    + intros name instance. split; [intros H; right; by split|].
      intros [(k & Hk & _) | [_ H]]; [by rewrite lookup_nil in Hk|done].
    + intros name. split; [intros H; by split|]. by intros [_ H].
  - subst r. cbn [fetchInstances]. rewrite run_bind, run_trigger, perform_get.
    cbn [fst snd].
    set (w1 := mkWorld (S (w_clock w)) (w_state w) (w_trace w ++ [EvGet n])).
    set (acc := match cloud_get cloud (w_clock w) (w_state w) n with
                | Some instance => <[n := instance]> instances
                | None => instances
                end).
    assert (E : run (match cloud_get cloud (w_clock w) (w_state w) n with
                     | Some instance => fetchInstances names (<[n := instance]> instances)
                     | None => fetchInstances names instances
                     end) w1 = run (fetchInstances names acc) w1).
    { unfold acc. by destruct (cloud_get cloud (w_clock w) (w_state w) n). }
    rewrite E. destruct (IH acc w1) as [Hsome Hnone]. clear IH E.
    assert (Hget : forall k name,
              cloud_get cloud (w_clock w1 + k) (w_state w1) name = get (S k) name).
    { intros k name. unfold get, w1. simpl. f_equal. lia. }
    assert (Hhead : get 0%nat n = cloud_get cloud (w_clock w) (w_state w) n).
    { unfold get. f_equal. lia. }
    assert (Hacc : forall name,
              acc !! name = if decide (n = name)
                            then match get 0%nat n with
                                 | Some instance => Some instance
                                 | None => instances !! name
                                 end
                            else instances !! name).
    { intros name. unfold acc. rewrite Hhead.
      destruct (cloud_get cloud (w_clock w) (w_state w) n) as [i0|];
        destruct (decide (n = name)) as [->|Hne]; try done.
      - by rewrite lookup_insert_eq.
      - by rewrite lookup_insert_ne. }
    assert (Hfail : forall name,
              (forall k, (n :: names) !! k = Some name -> get k name = None) <->
              (n = name -> get 0%nat n = None) /\
              (forall k, names !! k = Some name -> get (S k) name = None)).
    { intros name. split.
      - intros H. split.
        + intros <-. by apply (H 0%nat).
        + intros k Hk. by apply (H (S k)).
      - intros [H0 H1] [|k] Hk; simpl in Hk.
        + injection Hk as ->. by apply H0.
        + by apply H1. }
    split.
    + intros name instance. rewrite Hsome, Hfail. clear Hsome Hnone.
      setoid_rewrite Hget. rewrite Hacc. split.
      * intros [(k & Hk & Hg & Hlater) | [Hall Hin]].
        { left. exists (S k). split; [done|]. split; [done|].
          intros [|k'] Hlt Hk'; [lia|]. apply Hlater; [lia|done]. }
        destruct (decide (n = name)) as [->|Hne].
        { destruct (get 0%nat name) as [i0|] eqn:E0.
          - left. exists 0%nat. split; [done|]. split; [congruence|].
            intros [|k'] Hlt Hk'; [lia|]. by apply Hall.
          - right. split; [|done]. by split. }
        right. split; [|done]. by split.
      * intros [(k & Hk & Hg & Hlater) | [[H0 Hall] Hin]].
        { destruct k as [|k]; simpl in Hk.
          - injection Hk as ->. right. split.
            + intros k Hk. apply (Hlater (S k)); [lia|done].
            + rewrite decide_True by done. by rewrite Hg.
          - left. exists k. split; [done|]. split; [done|].
            intros k' Hlt Hk'. apply (Hlater (S k')); [lia|done]. }
        right. split; [done|].
        destruct (decide (n = name)) as [->|Hne]; [|done]. by rewrite H0.
    + intros name. rewrite Hnone, Hfail. clear Hsome Hnone.
      setoid_rewrite Hget. rewrite Hacc. split.
      * intros [Hall Hin]. destruct (decide (n = name)) as [->|Hne].
        { destruct (get 0%nat name) as [i0|] eqn:E0; [done|]. by repeat split. }
        repeat split; try done.
      * intros [[H0 Hall] Hin]. split; [done|].
        destruct (decide (n = name)) as [->|Hne]; [|done]. by rewrite H0.
Qed.

(** X9: when the instances cannot be listed GetInstancesFromMIG returns
    an error and no instance.  When they are listed it returns no error,
    whatever the fetches of the single instances do: it makes one fetch
    for every name of the listing, in order, and the map it returns holds
    for a name the instance that the last successful fetch of that name
    gave, and nothing for a name of which every fetch failed or that is
    not listed.  When every name is listed once, the map holds for every
    name what its fetch gave.  The state outside is not changed. *)
Theorem X9_snapshot_skips_failed_nodes {cloud : Cloud} (w : world cloud) :
  match cloud_list cloud (w_clock w) (w_state w) with
  | None =>
      run GetInstancesFromMIG w
      = ((∅, true), mkWorld (S (w_clock w)) (w_state w) (w_trace w ++ [EvList]))
  | Some names =>
      let found := (run GetInstancesFromMIG w).1.1 in
      let get k name := cloud_get cloud (S (w_clock w) + k) (w_state w) name in
      (run GetInstancesFromMIG w).1.2 = false /\
      (run GetInstancesFromMIG w).2
      = mkWorld (S (w_clock w) + length names) (w_state w)
                (w_trace w ++ EvList :: (EvGet <$> names)) /\
      (forall name instance,
         found !! name = Some instance <->
         exists k, names !! k = Some name /\ get k name = Some instance /\
           forall k', (k < k')%nat -> names !! k' = Some name -> get k' name = None) /\
      (forall name,
         found !! name = None <->
         forall k, names !! k = Some name -> get k name = None) /\
      (forall name, name ∉ names -> found !! name = None) /\
      (NoDup names ->
       forall k name, names !! k = Some name -> found !! name = get k name)
  end.
Proof.
  unfold GetInstancesFromMIG. rewrite run_bind, run_trigger.
  rewrite perform_list. cbn [fst snd].
  destruct (cloud_list cloud (w_clock w) (w_state w)) as [names|]; [|done].
  set (w1 := mkWorld (S (w_clock w)) (w_state w) (w_trace w ++ [EvList])).
  destruct (fetchInstances_found names ∅ w1) as [Hsome Hnone].
  cbv zeta. cbn [w_clock w_state w1] in Hsome, Hnone.
  assert (Hmiss : forall name, name ∉ names ->
            (run (fetchInstances names ∅) w1).1.1 !! name = None).
  { intros name Hname. apply Hnone. split; [|apply lookup_empty].
    intros k Hk. destruct Hname. by eapply list_elem_of_lookup_2. }
  destruct (fetchInstances_world names ∅ w1) as [Herr Hw].
  unfold w1 in Hw at 2 3 4. cbn [w_clock w_state w_trace] in Hw.
  rewrite <- app_assoc in Hw. cbn [app] in Hw.
  split; [done|]. split; [done|]. split; [|split; [|split; [done|]]].
  - intros name instance. rewrite Hsome. split.
    + by intros [H | [_ H]].
    + intros H. by left.
  - intros name. rewrite Hnone. split; [by intros [H _]|].
    intros H. split; [done|]. apply lookup_empty.
  - intros Hnd k name Hk.
    destruct (cloud_get cloud (S (w_clock w) + k) (w_state w) name) as [i0|] eqn:E.
    + apply Hsome. left. exists k. split; [done|]. split; [done|].
      intros k' Hlt Hk'. pose proof (NoDup_lookup _ _ _ _ Hnd Hk Hk'). lia.
    + apply Hnone. split; [|apply lookup_empty].
      intros k' Hk'. pose proof (NoDup_lookup _ _ _ _ Hnd Hk Hk'). by subst.
Qed.

(** A node that cannot be fetched is left out, without an error. *)
Example snapshot_without_b :
  (run GetInstancesFromMIG startPartial).1
  = (snapshot [node "a" ["10.0.0.1"]; node "c" ["10.0.0.1"]], false).
Proof. vm_compute. reflexivity. Qed.

(** A name listed twice: the second fetch fails and the instance of the
    first stays in the map. *)
Example snapshot_listed_twice :
  (run GetInstancesFromMIG startTwice).1 = (snapshot [node "a" ["10.0.0.1"]], false) /\
  cloud_get cloudTwice 2 tt "a" = None.
Proof. split; vm_compute; reflexivity. Qed.

(** ** What [Execute] calls *)

(** The calls of a run of [Execute]: the fetch alone; the fetch and a
    refused write; or the fetch, an accepted write and the wait. *)
Lemma Execute_shapes {cloud : Cloud} cfg operation (w : world cloud) :
  let name := Name (OpInstance operation) in
  let got := cloud_get cloud (w_clock w) (w_state w) name in
  exists evs, w_trace (run (Execute cfg operation) w).2 = w_trace w ++ evs /\
    ((evs = [EvGet name] /\ (run (Execute cfg operation) w).1 = 0 /\
      (got = None \/ exists instance, got = Some instance /\
         len (AliasIps instance) = len (newStateOf operation instance))) \/
     (exists instance r, got = Some instance /\
        len (AliasIps instance) <> len (newStateOf operation instance) /\
        evs = [EvGet name;
               EvUpdate (Name instance) (NetworkInterface instance)
                 (bodyFor cfg instance (newStateOf operation instance)) r;
               EvWait (Name instance) (newStateOf operation instance)] /\
        r = WriteOk /\ (run (Execute cfg operation) w).1 = 1) \/
     (exists instance r, got = Some instance /\
        len (AliasIps instance) <> len (newStateOf operation instance) /\
        evs = [EvGet name;
               EvUpdate (Name instance) (NetworkInterface instance)
                 (bodyFor cfg instance (newStateOf operation instance)) r] /\
        r <> WriteOk /\ (run (Execute cfg operation) w).1 = 0)).
Proof.
  intros name got. rewrite Execute_run. cbv zeta. rewrite perform_get. cbn [fst snd].
  fold name. fold got. destruct got as [instance|] eqn:Hgot.
  - destruct (len (AliasIps instance) =? len (newStateOf operation instance)) eqn:E.
    + apply Z.eqb_eq in E. exists [EvGet name]. split; [done|]. left.
      split; [done|]. split; [done|]. right. by exists instance.
    + apply Z.eqb_neq in E.
      fold (bodyFor cfg instance (newStateOf operation instance)).
      set (w1 := mkWorld (S (w_clock w)) (w_state w) (w_trace w ++ [EvGet name])).
      destruct (perform (UpdateNetworkInterface _ _ _) w1).1 eqn:Hu; cbn [fst snd];
        rewrite !perform_trace, ?Hu; unfold w1; cbn [w_trace event_of];
        rewrite <- ?app_assoc; eexists; (split; [reflexivity|]).
      * right. left. exists instance, WriteOk. by repeat split.
      * right. right. exists instance, WriteConflict. by repeat split.
      * right. right. exists instance, WriteError. by repeat split.
  - exists [EvGet name]. split; [done|]. left. split; [done|]. split; [done|]. by left.
Qed.

(** X10: Execute makes at most one write call.  The write is for the
    instance just fetched, not for the copy in the operation: it carries
    the fingerprint and the interface of the fetched instance and, as a
    /32 range each, every address of the list computed from the fetched
    addresses. *)
Theorem X10_execute_writes_the_whole_fresh_state {cloud : Cloud} (cfg : GcpConfig.t)
    (operation : Operation) (w : world cloud) (evs : list event) :
  w_trace (run (Execute cfg operation) w).2 = w_trace w ++ evs ->
  (length (List.filter is_update evs) <= 1)%nat /\
  forall name iface rb r, EvUpdate name iface rb r ∈ evs ->
    exists instance,
      cloud_get cloud (w_clock w) (w_state w) (Name (OpInstance operation))
        = Some instance /\
      name = Name instance /\ iface = NetworkInterface instance /\
      Fingerprint rb = NetworkFingerprint instance /\
      AliasIpRanges rb
      = map (fun ip => (ip +:+ "/32", GcpConfig.AliasNetwork cfg))
            (newStateOf operation instance).
Proof.
  intros Htrace.
  destruct (Execute_shapes cfg operation w) as (evs' & Hevs & Hshape).
  rewrite Hevs in Htrace. apply app_inv_head in Htrace. subst evs'.
  destruct Hshape as [(-> & _)|[(i & r & Hg & _ & -> & _)|(i & r & Hg & _ & -> & _)]].
  - split; [simpl; lia|]. intros ? ? ? ? H. apply list_elem_of_singleton in H. done.
  - split; [simpl; lia|]. intros name iface rb r' H.
    apply elem_of_cons in H as [H|H]; [done|].
    apply elem_of_cons in H as [H|H]; [|apply list_elem_of_singleton in H; done].
    injection H as -> -> -> ->. exists i. by repeat split.
  - split; [simpl; lia|]. intros name iface rb r' H.
    apply elem_of_cons in H as [H|H]; [done|].
    apply list_elem_of_singleton in H. injection H as -> -> -> ->.
    exists i. by repeat split.
Qed.

Lemma X10_witness :
  w_trace (run (Execute gcp0 addOne) startConflict).2
  = w_trace startConflict
    ++ [EvGet "a"; EvUpdate "a" "nic0" (mkBody "fp" [("10.0.0.1/32", "vips")])
                     WriteConflict] /\
  (length (List.filter is_update
     [EvGet "a"; EvUpdate "a" "nic0" (mkBody "fp" [("10.0.0.1/32", "vips")])
                   WriteConflict]) <= 1)%nat.
Proof.
  assert (H : w_trace (run (Execute gcp0 addOne) startConflict).2
              = w_trace startConflict
                ++ [EvGet "a"; EvUpdate "a" "nic0"
                                 (mkBody "fp" [("10.0.0.1/32", "vips")]) WriteConflict])
    by (vm_compute; reflexivity).
  split; [exact H|].
  exact (proj1 (X10_execute_writes_the_whole_fresh_state gcp0 addOne startConflict _ H)).
Defined.

(** X11: Execute returns 1 exactly when its write was accepted, and
    exactly then it calls WaitForUpdate, once, for the list it wrote; its
    first call is always the fetch of the instance of the operation. *)
Theorem X11_execute_counts_accepted_writes {cloud : Cloud} (cfg : GcpConfig.t)
    (operation : Operation) (w : world cloud) (evs : list event) :
  w_trace (run (Execute cfg operation) w).2 = w_trace w ++ evs ->
  ((run (Execute cfg operation) w).1 = 1 <-> Exists (fun e => is_write_ok e = true) evs) /\
  ((run (Execute cfg operation) w).1 = 1 <-> Exists (fun e => is_wait e = true) evs) /\
  (length (List.filter is_wait evs) <= 1)%nat /\
  (forall name newState, EvWait name newState ∈ evs ->
     exists iface rb, EvUpdate name iface rb WriteOk ∈ evs /\
       AliasIpRanges rb
       = map (fun ip => (ip +:+ "/32", GcpConfig.AliasNetwork cfg)) newState) /\
  evs !! 0%nat = Some (EvGet (Name (OpInstance operation))).
Proof.
  intros Htrace.
  destruct (Execute_shapes cfg operation w) as (evs' & Hevs & Hshape).
  rewrite Hevs in Htrace. apply app_inv_head in Htrace. subst evs'.
  destruct Hshape as [(-> & Hr & _)|[(i & r & _ & _ & -> & -> & Hr)
                                    |(i & r & _ & _ & -> & Hne & Hr)]]; rewrite Hr.
  - split; [|split; [|split; [|split]]]; try done; try (simpl; lia).
    + split; [done|]. intros H. apply Exists_cons in H as [H|H%Exists_nil]; done.
    + split; [done|]. intros H. apply Exists_cons in H as [H|H%Exists_nil]; done.
    + intros ? ? H. apply list_elem_of_singleton in H. done.
  - split; [|split; [|split; [|split]]]; try done; try (simpl; lia).
    + split; [|done]. intros _. apply Exists_cons. right. apply Exists_cons. by left.
    + split; [|done]. intros _. do 2 (apply Exists_cons; right).
      apply Exists_cons. by left.
    + intros name newState H.
      apply elem_of_cons in H as [H|H]; [done|].
      apply elem_of_cons in H as [H|H]; [done|].
      apply list_elem_of_singleton in H. injection H as -> ->.
      eexists _, _. split; [right; left|]. done.
  - split; [|split; [|split; [|split]]]; try done; try (simpl; lia).
    + split; [done|]. intros H. apply Exists_cons in H as [H|H]; [done|].
      apply Exists_cons in H as [H|H%Exists_nil]; [|done]. by destruct r.
    + split; [done|]. intros H. apply Exists_cons in H as [H|H]; [done|].
      apply Exists_cons in H as [H|H%Exists_nil]; done.
    + intros name newState H.
      apply elem_of_cons in H as [H|H]; [done|].
      apply list_elem_of_singleton in H. done.
Qed.

Lemma X11_witness :
  w_trace (run (Execute gcp0 (mkOperation Add (node "a" []) ["10.0.0.3"; "10.0.0.2"]))
               startTwo).2
  = w_trace startTwo
    ++ [EvGet "a";
        EvUpdate "a" "nic0"
          (mkBody "fp" [("10.0.0.3/32", "vips"); ("10.0.0.2/32", "vips")]) WriteOk;
        EvWait "a" ["10.0.0.3"; "10.0.0.2"]] /\
  ((run (Execute gcp0 (mkOperation Add (node "a" []) ["10.0.0.3"; "10.0.0.2"]))
        startTwo).1 = 1 <->
   Exists (fun e => is_write_ok e = true)
     [EvGet "a";
      EvUpdate "a" "nic0"
        (mkBody "fp" [("10.0.0.3/32", "vips"); ("10.0.0.2/32", "vips")]) WriteOk;
      EvWait "a" ["10.0.0.3"; "10.0.0.2"]]).
Proof.
  assert (H : w_trace (run (Execute gcp0 (mkOperation Add (node "a" [])
                                            ["10.0.0.3"; "10.0.0.2"])) startTwo).2
              = w_trace startTwo
                ++ [EvGet "a";
                    EvUpdate "a" "nic0"
                      (mkBody "fp" [("10.0.0.3/32", "vips"); ("10.0.0.2/32", "vips")])
                      WriteOk;
                    EvWait "a" ["10.0.0.3"; "10.0.0.2"]])
    by (vm_compute; reflexivity).
  split; [exact H|].
  exact (proj1 (X11_execute_counts_accepted_writes gcp0 _ startTwo _ H)).
Defined.

(** ** The list [Execute] writes *)

(** X12: for an Add operation the list Execute writes is the list of
    the addresses held, unchanged, followed by the added addresses that
    are not held, each once; for a Remove operation it is the list of
    the addresses held without the removed ones, in the order held.
    Either way its addresses are the desired set of the design. *)
Theorem X12_new_state_keeps_order (operation : Operation) (instance : GceInstance) :
  match OpType operation with
  | Add =>
      exists extra,
        newStateOf operation instance = AliasIps instance ++ extra /\
        NoDup extra /\
        (forall ip, ip ∈ extra <-> ip ∈ Ips operation /\ ip ∉ AliasIps instance)
  | Remove =>
      newStateOf operation instance `sublist_of` AliasIps instance /\
      (forall ip, ip ∈ newStateOf operation instance
                  <-> ip ∈ AliasIps instance /\ ip ∉ Ips operation)
  end /\
  (NoDup (AliasIps instance) -> NoDup (newStateOf operation instance)) /\
  list_to_set (newStateOf operation instance)
  = desiredSet operation (AliasIps instance).
Proof.
  assert (Hsub : forall (f : string -> bool) l, List.filter f l `sublist_of` l).
  { intros f l. induction l as [|x l IH]; simpl; [constructor|].
    destruct (f x); by constructor. }
  split; [|split; [|apply newStateOf_desired]].
  - unfold newStateOf. destruct (OpType operation).
    + apply add_loop_spec.
    + rewrite remove_loop_spec. simpl. split; [apply Hsub|].
      intros ip. rewrite (list_elem_of_In (List.filter _ _) ip), filter_In.
      rewrite <- list_elem_of_In, negb_true_iff, Contains_false. done.
  - intros Hnd. unfold newStateOf. destruct (OpType operation).
    + destruct (add_loop_spec (Ips operation) (AliasIps instance))
        as (extra & -> & Hex & Hmem).
      apply NoDup_app. split; [done|]. split; [|done].
      intros x Hx Hx'. by apply Hmem in Hx' as [_ ?].
    + rewrite remove_loop_spec. simpl. eapply sublist_NoDup; [exact Hnd|apply Hsub].
Qed.

(** ** The worker pool, as a whole *)

(** X13: ExecuteParallel can return exactly when there are at least as
    many workers as operations with addresses; with fewer workers no
    interleaving of the caller and the workers reaches the return. *)
Theorem X13_pool_returns_iff_enough_workers {cloud : Cloud} (cfg : GcpConfig.t)
    (nworkers : nat) (code : list nat) (operations : gmap string Operation)
    (w : world cloud) :
  (exists acts r, ExecuteParallel cfg nworkers code acts operations w = Some r)
  <-> nonEmptyOps operations <= Z.of_nat nworkers.
Proof.
  split.
  - intros (acts & [v w'] & H). by apply ExecuteParallel_spec in H as (_ & ? & _).
  - intros Hn. eexists _, _. by apply ExecuteParallel_returns.
Qed.

Lemma busy_zero_idle ws : busy ws = 0 -> ws = replicate (length ws) Idle.
Proof.
  induction ws as [|w ws IH]; [done|]. unfold busy, len in *. simpl.
  pose proof (busy_nonneg ws) as Hb. unfold busy, len in Hb.
  destruct w; simpl; [|lia]. intros H. f_equal. apply IH. lia.
Qed.

(** X14: when ExecuteParallel returns, every operation with addresses
    has been handed to a worker, as many results have been received, and
    every worker waits for an operation again. *)
Theorem X14_pool_is_idle_at_return {cloud : Cloud} (cfg : GcpConfig.t)
    (nworkers : nat) (code : list nat) (acts : list action)
    (operations : gmap string Operation) (w : world cloud) :
  pc <$> pool_run cfg acts (pool_init nworkers code operations w) = Some Returned ->
  workers <$> pool_run cfg acts (pool_init nworkers code operations w)
    = Some (replicate nworkers Idle) /\
  inFlight <$> pool_run cfg acts (pool_init nworkers code operations w)
    = Some (nonEmptyOps operations) /\
  collected <$> pool_run cfg acts (pool_init nworkers code operations w)
    = Some (nonEmptyOps operations).
Proof.
  destruct (pool_run cfg acts _) as [s|] eqn:Hrun; [|done]. simpl.
  intros [= Hpc].
  pose proof (pool_run_inv cfg _ _ acts _ _
                (pool_init_inv nworkers code operations w) Hrun)
    as (_ & _ & Htot & _ & Hbusy & Hlen & _).
  unfold collected, remaining in *. rewrite Hpc in *.
  unfold len in Htot. simpl in Htot.
  split; [|split]; f_equal; try lia.
  rewrite <- Hlen. apply busy_zero_idle. lia.
Qed.

Lemma X14_witness :
  pc <$> pool_run gcp0 actsTwo (pool_init 2 [] operationsTwo startTwo) = Some Returned /\
  workers <$> pool_run gcp0 actsTwo (pool_init 2 [] operationsTwo startTwo)
    = Some [Idle; Idle].
Proof.
  assert (H : pc <$> pool_run gcp0 actsTwo (pool_init 2 [] operationsTwo startTwo)
              = Some Returned) by (vm_compute; reflexivity).
  split; [exact H|].
  exact (proj1 (X14_pool_is_idle_at_return gcp0 2 [] actsTwo operationsTwo startTwo H)).
Defined.

(** ** The passes and the loop of [main] *)

Lemma fetch_keeps {cloud : Cloud} (w w1 : world cloud) instances err :
  run GetInstancesFromMIG w = ((instances, err), w1) ->
  w_state w1 = w_state w /\ writesOk (w_trace w1) = writesOk (w_trace w).
Proof.
  intros Hrun.
  pose proof (reads_only_run GetInstancesFromMIG w GetInstancesFromMIG_reads) as H.
  by rewrite Hrun in H.
Qed.







(** A round in which the one write is refused: the loop sleeps. *)
Example round_refused_write :
  mainRound 0 sched0 sched0 actsOne [Main; Main] configOne startWriteFails
  = Some (Slept 10,
          @mkWorld cloudWriteFails 6 tt (w_trace refusedOne ++ [EvList; EvGet "a"])).
Proof. vm_compute. reflexivity. Qed.

(** X16: a grow pass that cannot fetch the snapshot, finds no instance
    or finds no spare address returns 0 after the fetch alone: it hands
    nothing to the workers and makes no write. *)
Theorem X16_grow_with_nothing_to_do {cloud : Cloud} (sched : Schedule)
    (acts : list action) (cfg : Config) (w w1 : world cloud)
    (instances : gmap string GceInstance) (err : bool) :
  run GetInstancesFromMIG w = ((instances, err), w1) ->
  err = true \/ instances = ∅ \/ GetSpareIps sched cfg instances = [] ->
  AllocateIps sched acts cfg w = Some (0, w1) /\
  w_state w1 = w_state w /\
  writesOk (w_trace w1) = writesOk (w_trace w).
Proof.
  intros Hrun Hcase. split; [|by eapply fetch_keeps].
  unfold AllocateIps. rewrite Hrun.
  destruct err; [done|]. destruct Hcase as [? | [-> | ->]]; [done| |done].
  by rewrite orb_true_r.
Qed.

Lemma X16_witness :
  run GetInstancesFromMIG startBalanced
    = ((snapshot nodesBalanced, false), fetchedBalanced) /\
  AllocateIps sched0 [] (config0 ["10.0.0.1"; "10.0.0.4"] 1) startBalanced
    = Some (0, fetchedBalanced).
Proof.
  assert (Hrun : run GetInstancesFromMIG startBalanced
                 = ((snapshot nodesBalanced, false), fetchedBalanced))
    by (vm_compute; reflexivity).
  split; [exact Hrun|].
  refine (proj1 (X16_grow_with_nothing_to_do sched0 []
                   (config0 ["10.0.0.1"; "10.0.0.4"] 1) startBalanced fetchedBalanced
                   (snapshot nodesBalanced) false Hrun _)).
  right. right. vm_compute. reflexivity.
Defined.

(** ** Prefixes *)

Lemma bigEndian_cons x l :
  bigEndian (x :: l) = x * 256 ^ Z.of_nat (length l) + bigEndian l.
Proof.
  induction l as [|b l IH] using rev_ind.
  - unfold bigEndian. simpl. lia.
  - change (x :: l ++ [b]) with ((x :: l) ++ [b]).
    rewrite !bigEndian_snoc, IH, length_app. simpl.
    replace (Z.of_nat (length l + 1)) with (Z.of_nat (length l) + 1) by lia.
    rewrite Z.pow_add_r, Z.pow_1_r by lia. lia.
Qed.

Lemma bigEndian_zeros l : bigEndian (replicate l 0) = 0.
Proof.
  induction l as [|l IH]; [done|]. simpl replicate.
  rewrite bigEndian_cons, IH. lia.
Qed.

Lemma bigEndian_inj a : forall b,
  bytes a -> bytes b -> length a = length b ->
  bigEndian a = bigEndian b -> a = b.
Proof.
  induction a as [|x a IH]; intros [|y b] Ha Hb Hlen Hv; try done.
  unfold bytes in *. apply Forall_cons in Ha as [Hx Ha].
  apply Forall_cons in Hb as [Hy Hb]. simpl in Hlen.
  rewrite !bigEndian_cons in Hv.
  pose proof (bigEndian_bound a Ha) as Ba.
  pose proof (bigEndian_bound b Hb) as Bb.
  assert (Hl : length b = length a) by lia. rewrite Hl in *.
  set (P := 256 ^ Z.of_nat (length a)) in *.
  assert (x = y) as -> by (destruct (Z.lt_trichotomy x y) as [? | [? | ?]]; nia).
  f_equal. apply IH; try done; lia.
Qed.

Lemma pow256 (l : nat) : 256 ^ Z.of_nat l = 2 ^ (8 * Z.of_nat l).
Proof. change 256 with (2 ^ 8). rewrite <- Z.pow_mul_r by lia. done. Qed.

Lemma land_full x : 0 <= x < 256 -> Z.land x 255 = x.
Proof.
  intros Hx. change 255 with (Z.ones 8). rewrite Z.land_ones by lia.
  apply Z.mod_small. lia.
Qed.

Lemma land_partial x n :
  0 <= x < 256 -> 0 <= n < 8 ->
  Z.land x (Z.lxor 255 (Z.shiftr 255 n)) = x / 2 ^ (8 - n) * 2 ^ (8 - n).
Proof.
  intros Hx Hn.
  assert (H : forallb (fun n => forallb (fun x =>
                Z.land x (Z.lxor 255 (Z.shiftr 255 n))
                =? x / 2 ^ (8 - n) * 2 ^ (8 - n)) (seqZ 0 256)) (seqZ 0 8) = true)
    by (vm_compute; reflexivity).
  rewrite forallb_forall in H. specialize (H n).
  rewrite <- list_elem_of_In, elem_of_seqZ in H. specialize (H ltac:(lia)).
  rewrite forallb_forall in H. specialize (H x).
  rewrite <- list_elem_of_In, elem_of_seqZ in H. specialize (H ltac:(lia)).
  by apply Z.eqb_eq in H.
Qed.

Lemma CIDRMask_length l : forall n, length (CIDRMask l n) = l.
Proof.
  induction l as [|l IH]; intros n; [done|]. simpl.
  destruct (8 <=? n); simpl; by rewrite IH.
Qed.

Lemma CIDRMask_zero l : CIDRMask l 0 = replicate l 0.
Proof. induction l as [|l IH]; [done|]. simpl. by rewrite IH. Qed.

Lemma IP_Mask_zero a : IP_Mask a (replicate (length a) 0) = replicate (length a) 0.
Proof.
  unfold IP_Mask. induction a as [|x a IH]; [done|]. simpl.
  by rewrite IH, Z.land_0_r.
Qed.

Lemma IP_Mask_length a m : length m = length a -> length (IP_Mask a m) = length a.
Proof. intros H. unfold IP_Mask. rewrite length_zip_with. lia. Qed.

Lemma div_block P Q x A :
  0 < P -> 0 < Q -> 0 <= A < P -> (x * P + A) / (P * Q) = x / Q.
Proof.
  intros HP HQ HA. rewrite <- Z.div_div by lia.
  rewrite (Z.add_comm (x * P)), Z.div_add by lia.
  rewrite (Z.div_small A P) by lia. done.
Qed.

(** The number of a masked address: the low bits are cleared. *)
Lemma mask_value l : forall n a,
  0 <= n <= 8 * Z.of_nat l -> bytes a -> length a = l ->
  bytes (IP_Mask a (CIDRMask l n)) /\
  bigEndian (IP_Mask a (CIDRMask l n))
  = bigEndian a / 2 ^ (8 * Z.of_nat l - n) * 2 ^ (8 * Z.of_nat l - n).
Proof.
  induction l as [|l IH]; intros n a Hn Ha Hlen.
  - destruct a; [|done]. split; [constructor|].
    replace n with 0 by lia. by vm_compute.
  - destruct a as [|x a]; [done|]. simpl in Hlen.
    unfold bytes in Ha. apply Forall_cons in Ha as [Hx Ha].
    pose proof (bigEndian_bound a Ha) as Ba. rewrite pow256 in Ba.
    assert (Hl : length a = l) by lia. rewrite Hl in Ba.
    cbn [CIDRMask]. destruct (8 <=? n) eqn:E.
    + apply Z.leb_le in E.
      destruct (IH (n - 8) a ltac:(lia) Ha Hl) as [IHb IHv].
      unfold IP_Mask in *. cbn [zip_with]. rewrite land_full by done.
      split; [by constructor|].
      rewrite !bigEndian_cons, IHv.
      rewrite length_zip_with, CIDRMask_length, Hl, Nat.min_id, pow256.
      replace (8 * Z.of_nat (S l) - n) with (8 * Z.of_nat l - (n - 8)) by lia.
      set (k := 8 * Z.of_nat l - (n - 8)).
      replace (8 * Z.of_nat l) with ((n - 8) + k) by lia.
      rewrite Z.pow_add_r by lia.
      rewrite Z.mul_assoc, Z.div_add_l by lia. lia.
    + apply Z.leb_gt in E.
      unfold IP_Mask in *. cbn [zip_with].
      rewrite CIDRMask_zero. rewrite <- Hl.
      fold (IP_Mask a (replicate (length a) 0)). rewrite IP_Mask_zero, Hl.
      rewrite land_partial by (done || lia).
      assert (Hp : 0 < 2 ^ (8 - n)) by (apply Z.pow_pos_nonneg; lia).
      split.
      { constructor.
        - pose proof (Z.mul_div_le x (2 ^ (8 - n)) Hp).
          pose proof (Z.div_pos x (2 ^ (8 - n)) ltac:(lia) Hp). nia.
        - apply Forall_replicate. lia. }
      rewrite !bigEndian_cons, bigEndian_zeros, length_replicate, Hl, pow256.
      replace (8 * Z.of_nat (S l) - n) with (8 * Z.of_nat l + (8 - n)) by lia.
      rewrite Z.pow_add_r by lia.
      rewrite div_block by (lia || (apply Z.pow_pos_nonneg; lia)). lia.
Qed.

Lemma in_block W q v : 0 < W -> v / W = q <-> q * W <= v < q * W + W.
Proof.
  intros HW. split.
  - intros <-. pose proof (Z.div_mod v W ltac:(lia)).
    pose proof (Z.mod_pos_bound v W HW). nia.
  - intros Hv. symmetry. apply (Z.div_unique v W q (v - q * W)); lia.
Qed.

(** [IPNet.Contains], in numbers: the address lies in the block of the
    network. *)
Lemma IPNet_Contains_spec ipv4 ones ip :
  bytes ipv4 -> length ipv4 = 4%nat -> bytes ip -> length ip = 4%nat ->
  0 <= ones <= 32 ->
  IPNet_Contains (IP_Mask ipv4 (CIDRMask 4 ones)) (CIDRMask 4 ones) ip = true
  <-> bigEndian ip / 2 ^ (32 - ones) = bigEndian ipv4 / 2 ^ (32 - ones).
Proof.
  intros H4 L4 Hip Lip Hn.
  assert (Hp : 0 < 2 ^ (32 - ones)) by (apply Z.pow_pos_nonneg; lia).
  destruct (mask_value 4 ones ipv4 ltac:(lia) H4 L4) as [Bn Vn].
  destruct (mask_value 4 ones ip ltac:(lia) Hip Lip) as [Bi Vi].
  assert (Ln : length (IP_Mask ipv4 (CIDRMask 4 ones)) = 4%nat)
    by (rewrite IP_Mask_length; rewrite ?CIDRMask_length; lia).
  destruct (mask_value 4 ones _ ltac:(lia) Bn Ln) as [Bnn Vnn].
  change (8 * Z.of_nat 4 - ones) with (32 - ones) in *.
  rewrite Vn, Z.div_mul in Vnn by lia.
  unfold IPNet_Contains. rewrite andb_true_iff, !bool_decide_eq_true.
  split.
  - intros [_ Heq]. rewrite Heq, Vi in Vnn.
    apply Z.mul_reg_r in Vnn; lia.
  - intros Heq. split; [lia|].
    apply bigEndian_inj; try done.
    + rewrite !IP_Mask_length; rewrite ?CIDRMask_length; lia.
    + rewrite Vnn, Vi. by rewrite Heq.
Qed.

Lemma increment_next ip :
  bytes ip -> length ip = 4%nat ->
  bytes (increment ip) /\ length (increment ip) = 4%nat /\
  bigEndian (increment ip) = (bigEndian ip + 1) mod 2 ^ 32.
Proof.
  intros Hb Hl. unfold increment.
  destruct (incrementFrom_spec (length ip) ip Hb ltac:(lia))
    as (Hlen & Hbytes & _ & Hval).
  split; [done|]. split; [lia|].
  rewrite !take_ge in Hval by lia. by rewrite Hval, Hl.
Qed.

(** The loop from an address of the block to the end of the block. *)
Lemma expandLoop_run ipv4 ones (j : nat) : forall ip,
  bytes ipv4 -> length ipv4 = 4%nat -> 0 < ones <= 32 ->
  bytes ip -> length ip = 4%nat ->
  Z.of_nat j < 2 ^ (32 - ones) ->
  bigEndian ip + Z.of_nat j + 1
  = bigEndian ipv4 / 2 ^ (32 - ones) * 2 ^ (32 - ones) + 2 ^ (32 - ones) ->
  exists out,
    bigEndian <$> out = seqZ (bigEndian ip) (Z.of_nat j + 1) /\
    Forall (fun a => bytes a /\ length a = 4%nat) out /\
    forall fuel addrs, (S j < fuel)%nat ->
      expandLoop fuel (IP_Mask ipv4 (CIDRMask 4 ones)) (CIDRMask 4 ones) ip addrs
      = Some (addrs ++ out).
Proof.
  intros ip H4 L4 Hn. revert ip.
  set (W := 2 ^ (32 - ones)). set (q := bigEndian ipv4 / W).
  assert (HW : 0 < W) by (apply Z.pow_pos_nonneg; lia).
  pose proof (bigEndian_bound ipv4 H4) as B4. rewrite L4 in B4.
  change (256 ^ Z.of_nat 4) with (2 ^ 32) in B4.
  assert (Hsplit : 2 ^ 32 = 2 ^ ones * W).
  { unfold W. rewrite <- Z.pow_add_r by lia. f_equal. lia. }
  assert (Hones : 2 <= 2 ^ ones).
  { change 2 with (2 ^ 1) at 1. apply Z.pow_le_mono_r; lia. }
  assert (Hq : 0 <= q /\ q * W + W <= 2 ^ 32).
  { assert (q < 2 ^ ones)
      by (apply Z.div_lt_upper_bound; [lia|]; rewrite Z.mul_comm; lia).
    assert (0 <= q) by (apply Z.div_pos; lia). nia. }
  induction j as [|j IH]; intros ip Hip Lip Hj Hv.
  - exists [ip]. split; [done|]. split; [by repeat constructor|].
    intros fuel addrs Hfuel.
    destruct fuel as [|[|fuel]]; [lia|lia|]. cbn [expandLoop].
    pose proof (proj2 (IPNet_Contains_spec ipv4 ones ip H4 L4 Hip Lip ltac:(lia))) as Hin.
    rewrite Hin by (fold W; fold q; apply in_block; lia).
    destruct (increment_next ip Hip Lip) as (Hb' & Hl' & Hv').
    destruct (IPNet_Contains _ _ (increment ip)) eqn:Hout; [|done].
    apply IPNet_Contains_spec in Hout; try done; [|lia].
    fold W in Hout. fold q in Hout. apply in_block in Hout; [|done].
    rewrite Hv' in Hout. exfalso.
    replace (bigEndian ip + 1) with (q * W + W) in Hout by lia.
    destruct (decide (q * W + W = 2 ^ 32)) as [E|E].
    + rewrite E, Z.mod_same in Hout by lia. nia.
    + rewrite Z.mod_small in Hout by lia. lia.
  - destruct (increment_next ip Hip Lip) as (Hb' & Hl' & Hv').
    rewrite Z.mod_small in Hv' by lia.
    destruct (IH (increment ip) Hb' Hl' ltac:(lia) ltac:(lia))
      as (out & Hout & Hall & Hrun).
    exists (ip :: out). split; [|split].
    + rewrite fmap_cons, Hout, Hv'.
      rewrite (seqZ_cons (bigEndian ip)) by lia. f_equal. f_equal; lia.
    + by constructor.
    + intros fuel addrs Hfuel. destruct fuel as [|fuel]; [lia|].
      cbn [expandLoop].
      pose proof (proj2 (IPNet_Contains_spec ipv4 ones ip H4 L4 Hip Lip ltac:(lia))) as Hin.
      rewrite Hin by (fold W; fold q; apply in_block; lia).
      rewrite Hrun by lia. by rewrite <- app_assoc.
Qed.

(** X17: for an IPv4 prefix of 1 to 32 bits ExpandNetworkPrefix returns
    the whole block of the prefix: 2^(32 - bits) addresses, from the
    address with the host bits cleared upwards, one by one, whatever
    host bits the prefix was written with. *)
Theorem X17_prefix_expands_to_its_block (ipv4 : list Z) (ones : Z) :
  bytes ipv4 -> length ipv4 = 4%nat -> 0 < ones <= 32 ->
  exists addrs,
    (forall fuel, (Z.to_nat (2 ^ (32 - ones)) < fuel)%nat ->
       ExpandNetworkPrefix fuel ipv4 ones = Some addrs) /\
    bigEndian <$> addrs
    = seqZ (bigEndian ipv4 / 2 ^ (32 - ones) * 2 ^ (32 - ones)) (2 ^ (32 - ones)) /\
    Forall (fun a => bytes a /\ length a = 4%nat) addrs.
Proof.
  intros H4 L4 Hn.
  assert (HW : 0 < 2 ^ (32 - ones)) by (apply Z.pow_pos_nonneg; lia).
  destruct (mask_value 4 ones ipv4 ltac:(lia) H4 L4) as [Bn Vn].
  change (8 * Z.of_nat 4 - ones) with (32 - ones) in Vn.
  assert (Ln : length (IP_Mask ipv4 (CIDRMask 4 ones)) = 4%nat)
    by (rewrite IP_Mask_length; rewrite ?CIDRMask_length; lia).
  destruct (expandLoop_run ipv4 ones (Z.to_nat (2 ^ (32 - ones) - 1))
              (IP_Mask ipv4 (CIDRMask 4 ones)) H4 L4 Hn Bn Ln ltac:(lia) ltac:(lia))
    as (out & Hout & Hall & Hrun).
  exists out. split; [|split; [|done]].
  - intros fuel Hfuel. unfold ExpandNetworkPrefix. cbv zeta.
    rewrite Hrun by lia. done.
  - rewrite Hout, Vn. f_equal. lia.
Qed.

Lemma X17_witness :
  (bytes [10; 0; 0; 5] /\ 0 < 30 <= 32) /\
  ExpandNetworkPrefix 5 [10; 0; 0; 5] 30
  = Some [[10; 0; 0; 4]; [10; 0; 0; 5]; [10; 0; 0; 6]; [10; 0; 0; 7]] /\
  exists addrs,
    (forall fuel, (Z.to_nat (2 ^ (32 - 30)) < fuel)%nat ->
       ExpandNetworkPrefix fuel [10; 0; 0; 5] 30 = Some addrs) /\
    bigEndian <$> addrs
    = seqZ (bigEndian [10; 0; 0; 5] / 2 ^ (32 - 30) * 2 ^ (32 - 30)) (2 ^ (32 - 30)) /\
    Forall (fun a => bytes a /\ length a = 4%nat) addrs.
Proof.
  assert (Hb : bytes [10; 0; 0; 5]) by (repeat constructor; lia).
  assert (Hn : 0 < 30 <= 32) by lia.
  split; [done|]. split; [vm_compute; reflexivity|].
  exact (X17_prefix_expands_to_its_block [10; 0; 0; 5] 30 Hb eq_refl Hn).
Defined.

Lemma expandLoop_zero fuel : forall ip addrs,
  bytes ip -> length ip = 4%nat ->
  expandLoop fuel (replicate 4 0) (replicate 4 0) ip addrs = None.
Proof.
  induction fuel as [|fuel IH]; intros ip addrs Hip Lip; [done|].
  cbn [expandLoop].
  assert (Hin : IPNet_Contains (replicate 4 0) (replicate 4 0) ip = true).
  { unfold IPNet_Contains. rewrite andb_true_iff, !bool_decide_eq_true.
    split; [done|]. pose proof (IP_Mask_zero ip) as Hz. rewrite Lip in Hz.
    by rewrite Hz. }
  rewrite Hin. destruct (increment_next ip Hip Lip) as (Hb' & Hl' & _).
  by apply IH.
Qed.

(** X18: for an IPv4 prefix of 0 bits the loop of ExpandNetworkPrefix
    never ends: after the last address the bytes wrap around to 0.0.0.0,
    which the network contains, so the function returns no list,
    however long it runs. *)
Theorem X18_prefix_of_zero_bits_never_ends (fuel : nat) (ipv4 : list Z) :
  bytes ipv4 -> length ipv4 = 4%nat ->
  ExpandNetworkPrefix fuel ipv4 0 = None.
Proof.
  intros H4 L4. unfold ExpandNetworkPrefix. cbv zeta.
  rewrite CIDRMask_zero. pose proof (IP_Mask_zero ipv4) as Hz.
  rewrite L4 in Hz. rewrite Hz.
  apply expandLoop_zero; [|done]. apply Forall_replicate. lia.
Qed.

Lemma X18_witness :
  bytes [0; 0; 0; 0] /\ ExpandNetworkPrefix 1000 [0; 0; 0; 0] 0 = None.
Proof.
  assert (Hb : bytes [0; 0; 0; 0]) by (repeat constructor; lia).
  split; [exact Hb|].
  exact (X18_prefix_of_zero_bits_never_ends 1000 [0; 0; 0; 0] Hb eq_refl).
Defined.

(** ** The spare addresses *)

(** X19: GetSpareIps returns every configured address that no instance
    of the snapshot holds, once, also when the configuration lists it
    twice; addresses that instances hold and the configuration does not
    list play no role; the order of the map iterations changes the order
    of the result only. *)
Theorem X19_spare_is_configured_and_unheld (sched sched' : Schedule) (cfg : Config)
    (instances : gmap string GceInstance) :
  NoDup (GetSpareIps sched cfg instances) /\
  (forall ip, ip ∈ GetSpareIps sched cfg instances
              <-> ip ∈ VIPs cfg /\ ~ assigned instances ip) /\
  GetSpareIps sched' cfg instances ≡ₚ GetSpareIps sched cfg instances.
Proof.
  destruct (GetSpareIps_spec sched cfg instances) as [Hnd Hmem].
  destruct (GetSpareIps_spec sched' cfg instances) as [Hnd' Hmem'].
  split; [done|]. split; [done|].
  apply NoDup_Permutation; try done.
  intros ip. by rewrite Hmem, Hmem'.
Qed.

(** ** Reading an instance *)







(** A prefix of 32 bits is its one address. *)
Lemma expand_single ipv4 fuel :
  bytes ipv4 -> length ipv4 = 4%nat -> (1 < fuel)%nat ->
  ExpandNetworkPrefix fuel ipv4 32 = Some [ipv4].
Proof.
  intros H4 L4 Hfuel.
  destruct (mask_value 4 32 ipv4 ltac:(lia) H4 L4) as [Bn Vn].
  change (2 ^ (8 * Z.of_nat 4 - 32)) with 1 in Vn.
  rewrite Z.div_1_r, Z.mul_1_r in Vn.
  assert (Ln : length (IP_Mask ipv4 (CIDRMask 4 32)) = 4%nat)
    by (rewrite IP_Mask_length; rewrite ?CIDRMask_length; lia).
  assert (Hm : IP_Mask ipv4 (CIDRMask 4 32) = ipv4)
    by (apply bigEndian_inj; try done; lia).
  destruct (expandLoop_run ipv4 32 0 ipv4 H4 L4 ltac:(lia) H4 L4)
    as (out & Hout & Hall & Hrun).
  { by vm_compute. }
  { change (2 ^ (32 - 32)) with 1. rewrite Z.div_1_r. lia. }
  unfold ExpandNetworkPrefix. cbv zeta. rewrite Hm in *.
  rewrite Hrun by lia. simpl. f_equal.
  change (seqZ (bigEndian ipv4) (Z.of_nat 0 + 1)) with [bigEndian ipv4] in Hout.
  destruct out as [|a [|a' out]]; try done.
  injection Hout as Hv. apply Forall_singleton in Hall as [Ha La].
  f_equal. apply bigEndian_inj; try done; lia.
Qed.

Lemma aliases_written P S cfg fuel ips : forall instance0,
  Forall (canonical P S) ips -> (1 < fuel)%nat ->
  foldl (aliasStep P S fuel) (Some instance0)
        (map (fun ip => (ip +:+ "/32", GcpConfig.AliasNetwork cfg)) ips)
  = Some (mkGceInstance (Name instance0) (NetworkInterface instance0)
            (NetworkFingerprint instance0)
            (if ips is [] then AliasNetwork instance0 else GcpConfig.AliasNetwork cfg)
            (AliasIps instance0 ++ ips)).
Proof.
  intros instance0 Hc Hfuel. revert instance0.
  induction Hc as [|ip ips Hip Hc IH]; intros instance0.
  - simpl. rewrite app_nil_r. by destruct instance0.
  - cbn [map foldl]. unfold aliasStep at 2. unfold expandPrefix. cbn [fst snd].
    unfold canonical in Hip.
    destruct (P (ip +:+ "/32")) as [[ipv4 ones]|]; [|done].
    destruct Hip as (-> & Hb & Hl & Hs).
    rewrite expand_single by done. cbn [fmap option_fmap option_map map].
    rewrite Hs, IH. cbn [Name NetworkInterface NetworkFingerprint AliasNetwork AliasIps].
    rewrite <- app_assoc. by destruct ips.
Qed.

(** X21: GetInstance reads back what UpdateAliasIPs writes: from an
    answer whose interface carries the alias ranges of the request body
    it makes an instance with exactly the written addresses, in the
    written order, for addresses that are parsed and printed alike. *)
Theorem X21_written_addresses_are_read_back (ParseCIDR : string -> option (list Z * Z))
    (AddrString : list Z -> string) (cfg : GcpConfig.t) (instance : GceInstance)
    (ips : list string) (fingerprint : string) (fuel : nat) :
  Forall (canonical ParseCIDR AddrString) ips -> (1 < fuel)%nat ->
  instanceOf ParseCIDR AddrString fuel
    (mkInstanceResp (Name instance)
       [mkInterface (NetworkInterface instance) fingerprint
          (AliasIpRanges (bodyFor cfg instance ips))])
  = Some (mkGceInstance (Name instance) (NetworkInterface instance) fingerprint
            (if ips is [] then "" else GcpConfig.AliasNetwork cfg) ips).
Proof.
  intros Hc Hfuel. unfold instanceOf, bodyFor.
  cbn [NetworkInterfaces RespName foldl interfaceStep AliasIpRanges IfAliasIpRanges
       IfName IfFingerprint Name AliasNetwork AliasIps].
  by rewrite (aliases_written ParseCIDR AddrString cfg fuel ips _ Hc Hfuel).
Qed.

Lemma X21_witness :
  Forall (canonical parseOne printOne) ["10.0.0.1"] /\
  instanceOf parseOne printOne 2
    (mkInstanceResp "a"
       [mkInterface "nic0" "f1" (AliasIpRanges (bodyFor gcp0 (node "a" []) ["10.0.0.1"]))])
  = Some (mkGceInstance "a" "nic0" "f1" (GcpConfig.AliasNetwork gcp0) ["10.0.0.1"]).
Proof.
  assert (Hc : Forall (canonical parseOne printOne) ["10.0.0.1"]).
  { constructor; [|constructor]. unfold canonical. simpl.
    split; [reflexivity|]. split; [repeat constructor; lia|]. split; reflexivity. }
  split; [exact Hc|].
  exact (X21_written_addresses_are_read_back parseOne printOne gcp0 (node "a" [])
           ["10.0.0.1"] "f1" 2 Hc ltac:(lia)).
Defined.

(** ** Names of the group *)

Lemma splitSlash_last s :
  exists init name pre,
    splitSlash s = init ++ [name] /\
    hasSlash name = false /\
    s = pre +:+ name /\
    (init = [] -> pre = "") /\
    (init <> [] -> exists pre', pre = pre' +:+ "/") /\
    (hasSlash s = false -> init = []).
Proof.
  induction s as [|c s IH].
  - exists [], "", "". by repeat split.
  - destruct IH as (init & name & pre & Hsplit & Hname & Hs & Hnil & Hcons & Hno).
    cbn [splitSlash hasSlash]. destruct (Ascii.eqb_spec c slash) as [-> | Hc].
    + exists ("" :: init), name, (String slash pre).
      split; [by rewrite Hsplit|]. split; [done|].
      split; [by rewrite Hs|]. split; [done|]. split; [|done].
      intros _. destruct init as [|i0 init].
      * rewrite Hnil by done. by exists "".
      * destruct Hcons as [pre' ->]; [done|]. by exists (String slash pre').
    + rewrite Hsplit. destruct init as [|i0 init]; cbn [app].
      * exists [], (String c name), "".
        split; [done|]. split.
        { cbn [hasSlash]. rewrite Hname.
          by destruct (Ascii.eqb_spec c slash). }
        split; [|done]. rewrite Hs, Hnil by done. done.
      * exists (String c i0 :: init), name, (String c pre).
        split; [done|]. split; [done|]. split; [by rewrite Hs|].
        split; [done|]. split.
        { intros _. destruct Hcons as [pre' ->]; [done|]. by exists (String c pre'). }
        simpl. intros H. by apply Hno in H.
Qed.

(** X22: the name that ListInstancesInGroup takes from the URL of an
    instance is the text after the last slash: the index is always
    within the pieces, the name holds no slash, what stands before it is
    empty or ends in a slash, and a URL without a slash is its own
    name. *)
Theorem X22_name_is_the_last_piece (instance : string) :
  exists name pre,
    instanceName instance = Some name /\
    hasSlash name = false /\
    instance = pre +:+ name /\
    (pre = "" \/ exists pre', pre = pre' +:+ "/") /\
    (hasSlash instance = false -> name = instance).
Proof.
  destruct (splitSlash_last instance)
    as (init & name & pre & Hsplit & Hname & Hs & Hnil & Hcons & Hno).
  exists name, pre. unfold instanceName. rewrite Hsplit, last_snoc.
  split; [done|]. split; [done|]. split; [done|]. split.
  - destruct init as [|i0 init]; [left; by apply Hnil|right; by apply Hcons].
  - intros H. by rewrite Hs, (Hnil (Hno H)).
Qed.

(** ** The worker pool cannot get stuck *)

Lemma idle_exists ws : busy ws < Z.of_nat (length ws) -> exists j, ws !! j = Some Idle.
Proof.
  induction ws as [|w ws IH]; [simpl; unfold busy, len; simpl; lia|].
  destruct w as [|p]; [intros _; by exists 0%nat|].
  intros H. destruct IH as [j Hj]; [|by exists (S j)].
  unfold busy, len in *. simpl in H. lia.
Qed.

Lemma busy_exists ws : 0 < busy ws -> exists j p, ws !! j = Some (Busy p).
Proof.
  induction ws as [|w ws IH]; [unfold busy, len; simpl; lia|].
  destruct w as [|p]; [|intros _; by exists 0%nat, p].
  intros H. destruct IH as (j & p & Hj); [|by exists (S j), p].
  unfold busy, len in *. simpl in H. lia.
Qed.

(** A worker that holds an operation can make the calls of its [Execute]
    up to the result. *)
Lemma drive_any {cloud : Cloud} cfg (p : prog Z) : forall (s : pool cloud) j,
  workers s !! j = Some (Busy p) ->
  exists acts s' r,
    pool_run cfg acts s = Some s' /\ pc s' = pc s /\ inFlight s' = inFlight s /\
    workers s' !! j = Some (Busy (Ret r)).
Proof.
  induction p as [r|X c k IH]; intros s j Hj.
  - by exists [], s, r.
  - set (a := perform c (wld s)).
    set (s1 := mkPool (pc s) (changes s) (inFlight s)
                      (<[j := Busy (k a.1)]> (workers s)) a.2).
    assert (Hstep : pool_step cfg (Work j) s = Some s1)
      by (unfold pool_step; by rewrite Hj).
    destruct (IH a.1 s1 j) as (acts & s' & r & Hrun & Hpc & Hin & Hw).
    { simpl. apply list_lookup_insert_eq. by eapply lookup_lt_Some. }
    exists (Work j :: acts), s', r. cbn [pool_run]. rewrite Hstep. by repeat split.
Qed.

Lemma progress_collect {cloud : Cloud} cfg total nworkers (m : nat) :
  forall (s : pool cloud) i,
    pool_inv total nworkers s -> pc s = Collecting i ->
    Z.to_nat (inFlight s - i) = m ->
    exists acts s', pool_run cfg acts s = Some s' /\ pc s' = Returned.
Proof.
  induction m as [|m IH]; intros s i Hinv Hpc Hm.
  - exists [Main]. eexists. cbn [pool_run pool_step]. rewrite Hpc.
    replace (i <? inFlight s) with false by (symmetry; apply Z.ltb_ge; lia).
    by split.
  - pose proof Hinv as (_ & _ & _ & _ & Hbusy & _).
    unfold collected in Hbusy. rewrite Hpc in Hbusy.
    destruct (busy_exists (workers s)) as (j & p & Hj); [lia|].
    destruct (drive_any cfg p s j Hj) as (acts1 & s1 & r & Hrun1 & Hpc1 & Hin1 & Hw1).
    pose proof (pool_run_inv cfg _ _ _ _ _ Hinv Hrun1) as Hinv1.
    rewrite Hpc in Hpc1.
    set (s2 := mkPool (Collecting (i + 1)) (changes s1 + r) (inFlight s1)
                      (<[j := Idle]> (workers s1)) (wld s1)).
    assert (Hstep : pool_step cfg (Recv j) s1 = Some s2).
    { unfold pool_step. rewrite Hpc1, Hw1.
      replace (i <? inFlight s1) with true by (symmetry; apply Z.ltb_lt; lia). done. }
    pose proof (pool_step_inv cfg _ _ _ _ _ Hinv1 Hstep) as Hinv2.
    destruct (IH s2 (i + 1) Hinv2 eq_refl) as (acts2 & s' & Hrun2 & Hret).
    { simpl. lia. }
    exists (acts1 ++ Recv j :: acts2), s'. split; [|done].
    rewrite pool_run_app, Hrun1. cbn [pool_run]. by rewrite Hstep.
Qed.

Lemma progress_submit {cloud : Cloud} cfg total nworkers rest :
  forall (s : pool cloud),
    pool_inv total nworkers s -> total <= Z.of_nat nworkers ->
    pc s = Submitting rest ->
    exists acts s', pool_run cfg acts s = Some s' /\ pc s' = Returned.
Proof.
  induction rest as [|[name operation] rest IH]; intros s Hinv Htotal Hpc.
  - set (s1 := mkPool (Collecting 0) (changes s) (inFlight s) (workers s) (wld s)).
    assert (Hstep : pool_step cfg Main s = Some s1)
      by (unfold pool_step; by rewrite Hpc).
    pose proof (pool_step_inv cfg _ _ _ _ _ Hinv Hstep) as Hinv1.
    destruct (progress_collect cfg total nworkers _ s1 0 Hinv1 eq_refl eq_refl)
      as (acts & s' & Hrun & Hret).
    exists (Main :: acts), s'. cbn [pool_run]. by rewrite Hstep.
  - destruct (len (Ips operation) >? 0) eqn:E.
    + pose proof Hinv as (_ & _ & Htot & _ & Hbusy & Hlen & _).
      unfold collected, remaining in *. rewrite Hpc in *.
      unfold nonEmpty in Htot. simpl in Htot. rewrite E in Htot.
      unfold len in Htot. simpl in Htot.
      destruct (idle_exists (workers s)) as [j Hj]; [lia|].
      set (s1 := mkPool (Submitting rest) (changes s) (inFlight s + 1)
                        (<[j := Busy (Execute cfg operation)]> (workers s)) (wld s)).
      assert (Hstep : pool_step cfg (Send j) s = Some s1)
        by (unfold pool_step; by rewrite Hpc, Hj, E).
      pose proof (pool_step_inv cfg _ _ _ _ _ Hinv Hstep) as Hinv1.
      destruct (IH s1 Hinv1 Htotal eq_refl) as (acts & s' & Hrun & Hret).
      exists (Send j :: acts), s'. cbn [pool_run]. by rewrite Hstep.
    + set (s1 := mkPool (Submitting rest) (changes s) (inFlight s) (workers s) (wld s)).
      assert (Hstep : pool_step cfg Main s = Some s1)
        by (unfold pool_step; by rewrite Hpc, E).
      pose proof (pool_step_inv cfg _ _ _ _ _ Hinv Hstep) as Hinv1.
      destruct (IH s1 Hinv1 Htotal eq_refl) as (acts & s' & Hrun & Hret).
      exists (Main :: acts), s'. cbn [pool_run]. by rewrite Hstep.
Qed.

(** X23: with at least as many workers as operations with addresses
    ExecuteParallel cannot get stuck: whatever steps the caller and the
    workers have made, in whatever order, further steps lead to the
    return. *)
Theorem X23_pool_cannot_get_stuck {cloud : Cloud} (cfg : GcpConfig.t)
    (nworkers : nat) (code : list nat) (operations : gmap string Operation)
    (w : world cloud) (acts : list action) :
  nonEmptyOps operations <= Z.of_nat nworkers ->
  is_Some (pool_run cfg acts (pool_init nworkers code operations w)) ->
  exists acts' r,
    ExecuteParallel cfg nworkers code (acts ++ acts') operations w = Some r.
Proof.
  intros Hn [s Hrun].
  pose proof (pool_run_inv cfg _ _ acts _ _
                (pool_init_inv nworkers code operations w) Hrun) as Hinv.
  assert (Hend : exists acts' s', pool_run cfg acts' s = Some s' /\ pc s' = Returned).
  { destruct (pc s) as [rest|i|] eqn:Hpc.
    - by eapply progress_submit.
    - by eapply progress_collect.
    - by exists [], s. }
  destruct Hend as (acts' & s' & Hrun' & Hret).
  exists acts', (changes s', wld s'). unfold ExecuteParallel.
  by rewrite pool_run_app, Hrun, Hrun', Hret.
Qed.

Lemma X23_witness :
  nonEmptyOps operationsTwo <= Z.of_nat 2 /\
  is_Some (pool_run gcp0 [Send 1%nat; Work 1%nat; Send 0%nat]
             (pool_init 2 [] operationsTwo startTwo)) /\
  exists acts' r,
    ExecuteParallel gcp0 2 [] ([Send 1%nat; Work 1%nat; Send 0%nat] ++ acts')
      operationsTwo startTwo = Some r.
Proof.
  assert (Hn : nonEmptyOps operationsTwo <= Z.of_nat 2) by (vm_compute; discriminate).
  assert (Hrun : is_Some (pool_run gcp0 [Send 1%nat; Work 1%nat; Send 0%nat]
                            (pool_init 2 [] operationsTwo startTwo)))
    by (vm_compute; eexists; reflexivity).
  split; [exact Hn|]. split; [exact Hrun|].
  exact (X23_pool_cannot_get_stuck gcp0 2 [] operationsTwo startTwo
           [Send 1%nat; Work 1%nat; Send 0%nat] Hn Hrun).
Defined.
